(** * METE / AGSNE distributions ([mete_distributions.py]) over the reals

    The Python module evaluates its distributions in IEEE double precision.
    This development follows the same arithmetic over the real numbers:
    every float is a real, [math.exp] and [math.log] are [exp] and [ln], and
    the places where an evaluation leaves the reals (a division by zero, the
    logarithm of a non-positive number, a numpy [inf]/[nan]) are explicit
    outcomes of the call.  Objects, the standard output and the global
    random generator form the world that every method call threads.

    The reading over the reals leaves out what rounding adds: a double
    [1 - t] is exactly 1 once [t] is below half a unit in the last place,
    [math.exp] raises [OverflowError] for arguments above about 709.78, and
    a sum of rounded masses can stop short of 1.  Statements that a call
    returns are therefore made on the part of the domain where the doubles
    stay away from these effects; the hypotheses that delimit it say so. *)

From Stdlib Require Import String.
From Stdlib Require Import Reals Lra Lia ZArith List Bool Sorted.
From Stdlib Require Import Zfloor RiemannInt Ranalysis.
Import ListNotations.
Local Open Scope Z_scope.
Local Open Scope R_scope.

(** ** Outcomes *)

(** Python exceptions the module can raise. *)
Inductive exn : Set :=
| ZeroDivisionError   (* float division by zero, [0.0 ** negative] *)
| ValueError          (* [math.log] outside its domain, [bisect] without a sign change *)
| NameError           (* a name bound neither locally nor globally *)
| IndexError          (* list index out of range *)
| RuntimeError.       (* [bisect] did not converge *)

(** Where the real-number reading of a call stops. *)
Inductive gap : Set :=
| NonFinite           (* numpy continues with [inf] or [nan] (RuntimeWarning) *)
| OutOfFuel.          (* an unbounded loop was cut off *)

Inductive res (A : Type) : Type :=
| Ok (a : A)
| Raise (e : exn)
| Undef (g : gap).
Arguments Ok {A} a.
Arguments Raise {A} e.
Arguments Undef {A} g.

(** The world of a method call: the receiver, what was printed so far, and
    the stream of uniform draws the global generator will deliver next. *)
Record world (O : Type) : Type := World {
  obj : O;
  stdout : list string;
  rng : nat -> R
}.
Arguments World {O} obj stdout rng.
Arguments obj {O} w.
Arguments stdout {O} w.
Arguments rng {O} w.

Definition M (O A : Type) : Type := world O -> res A * world O.

Class Monad (m : Type -> Type) : Type := {
  ret : forall {A : Type}, A -> m A;
  bind : forall {A B : Type}, m A -> (A -> m B) -> m B
}.

Class MonadExc (m : Type -> Type) : Type := {
  stop : forall {A : Type}, res A -> m A
}.

Notation "x <- c ;; k" := (bind c (fun x => k))
  (at level 61, c at next level, right associativity).
Notation "c ;;; k" := (bind c (fun _ => k))
  (at level 61, right associativity).

#[export] Instance res_monad : Monad res := {
  ret := fun A a => Ok a;
  bind := fun A B c k =>
    match c with
    | Ok a => k a
    | Raise e => Raise e
    | Undef g => Undef g
    end
}.

#[export] Instance res_exc : MonadExc res := {
  stop := fun A r => r
}.

#[export] Instance M_monad (O : Type) : Monad (M O) := {
  ret := fun A a w => (Ok a, w);
  bind := fun A B c k w =>
    match c w with
    | (Ok a, w') => k a w'
    | (Raise e, w') => (Raise e, w')
    | (Undef g, w') => (Undef g, w')
    end
}.

#[export] Instance M_exc (O : Type) : MonadExc (M O) := {
  stop := fun A r w => (r, w)
}.

Definition raise {m : Type -> Type} `{MonadExc m} {A : Type} (e : exn) : m A :=
  stop (Raise e).
Definition undef {m : Type -> Type} `{MonadExc m} {A : Type} (g : gap) : m A :=
  stop (Undef g).

(** [self]: the receiver, whose attributes a method body reads. *)
Definition this {O : Type} : M O O :=
  fun w => (Ok (obj w), w).

(** The print statement. *)
Definition print {O : Type} (s : string) : M O unit :=
  fun w => (Ok tt, World (obj w) (stdout w ++ [s]) (rng w)).

(** [scipy.stats.uniform.rvs(size = size)]: the next [size] draws of the
    global generator, which advances past them. *)
Definition uniform_rvs {O : Type} (size : nat) : M O (list R) :=
  fun w => (Ok (map (rng w) (seq 0 size)),
            World (obj w) (stdout w) (fun k => rng w (size + k)%nat)).

Fixpoint mapM {m : Type -> Type} `{Monad m} {A B : Type}
    (f : A -> m B) (l : list A) : m (list B) :=
  match l with
  | [] => ret []
  | a :: l' => b <- f a ;; bs <- mapM f l' ;; ret (b :: bs)
  end.

(** ** Numbers *)

Definition Rleb (x y : R) : bool := if Rle_dec x y then true else false.
Definition Rltb (x y : R) : bool := if Rlt_dec x y then true else false.
Definition Reqb (x y : R) : bool := if Req_dec_T x y then true else false.

(** [lo <= x <= hi] *)
Definition between (lo x hi : R) : bool := Rleb lo x && Rleb x hi.

(** Python float arithmetic ([from __future__ import division]). *)
Definition float_div {m : Type -> Type} `{MonadExc m} (x y : R) : m R :=
  if Reqb y 0 then raise ZeroDivisionError else stop (Ok (x / y)).

(** [x ** n] for a float [x] and an int [n]. *)
Definition float_pow {m : Type -> Type} `{MonadExc m} (x : R) (n : Z) : m R :=
  if Reqb x 0 && (n <? 0)%Z then raise ZeroDivisionError
  else stop (Ok (powerRZ x n)).

(** [math.log] *)
Definition log {m : Type -> Type} `{MonadExc m} (x : R) : m R :=
  if Rltb 0 x then stop (Ok (ln x)) else raise ValueError.

(** numpy arithmetic on float64: a zero divisor or a non-positive argument of
    the logarithm gives [inf], [-inf] or [nan] and a warning, no exception. *)
Definition np_div {m : Type -> Type} `{MonadExc m} (x y : R) : m R :=
  if Reqb y 0 then undef NonFinite else stop (Ok (x / y)).

Definition np_log {m : Type -> Type} `{MonadExc m} (x : R) : m R :=
  if Rltb 0 x then stop (Ok (ln x)) else undef NonFinite.

(** [np.arange(lo, hi)] and [range(lo, hi)] *)
Definition arange (lo hi : Z) : list Z :=
  map (fun k => (lo + Z.of_nat k)%Z) (seq 0 (Z.to_nat (hi - lo))).

(** The builtin [sum]: starts from 0 and adds from the left. *)
Definition sum (l : list R) : R := fold_left Rplus l 0.

(** Arguments of the integer-valued distributions, with their Python class
    (the module is Python 2: it uses the print statement).  [PyBool] and
    [NpIntp], the default numpy integer [numpy.int_], are classes derived
    from [int]; [NpInt] stands for the other numpy integer scalars (such as
    [numpy.int32] where [int] is 64 bits wide, or [numpy.uint8]), whose
    classes do not derive from [int]. *)
Inductive pynum : Type :=
| PyBool (b : bool)
| PyInt (z : Z)
| PyLong (z : Z)
| PyFloat (r : R)
| NpIntp (z : Z)
| NpInt (z : Z)
| NpFloat (r : R).

Definition num (x : pynum) : R :=
  match x with
  | PyBool b => if b then 1 else 0
  | PyInt z | PyLong z | NpIntp z | NpInt z => IZR z
  | PyFloat r | NpFloat r => r
  end.

(** [type(x) is int] *)
Definition type_is_int (x : pynum) : bool :=
  match x with
  | PyInt _ => true
  | _ => false
  end.

(** [isinstance(x, int)]: true of [int] and of the classes derived from it. *)
Definition isinstance_int (x : pynum) : bool :=
  match x with
  | PyBool _ | PyInt _ | NpIntp _ => true
  | _ => false
  end.

(** [np.float64 ** int]: a zero base with a negative exponent gives [inf]. *)
Definition np_pow {m : Type -> Type} `{MonadExc m} (x : R) (n : Z) : m R :=
  if Reqb x 0 && (n <? 0)%Z then undef NonFinite
  else stop (Ok (powerRZ x n)).

(** The builtin [sorted] on floats (ascending, stable). *)
Fixpoint insert_sorted (x : R) (l : list R) : list R :=
  match l with
  | [] => [x]
  | y :: l' => if Rltb x y then x :: y :: l' else y :: insert_sorted x l'
  end.

Definition sorted (l : list R) : list R :=
  fold_left (fun acc x => insert_sorted x acc) l [].

(** The next draw of the global generator. *)
Definition draw {O : Type} : M O R :=
  fun w => (Ok (rng w 0%nat),
            World (obj w) (stdout w) (fun k => rng w (S k))).

(** The real a call on the object [d] returns, 0 if it returns none; used to
    read a method as a function of its argument. *)
Definition value {O : Type} (c : M O R) (d : O) : R :=
  match fst (c (World d [] (fun _ => 0))) with
  | Ok v => v
  | _ => 0
  end.

(** A call leaves the receiver as it found it, whatever it returns or
    raises; the output and the generator may move on. *)
Definition readonly {O A : Type} (c : M O A) : Prop :=
  forall w : world O, obj (snd (c w)) = obj w.

(** ** External collaborators

    The Lagrange-multiplier solver of module [mete], the correction integral
    of module [mete_psi_integration] and the truncated exponential of module
    [macroeco_distributions] are imported, not defined, by the module; so is
    the quadrature rule of [mpmath.quad], of which only the nodes and weights
    it uses on an interval matter here.  [global_S] is what the bare name [S]
    resolves to in the module's global scope: the module binds no such name
    itself, so it is bound only if one of the two star-imports brings it. *)
Class Collaborators : Type := {
  get_beta : Z -> Z -> res R;
  get_lambda2 : Z -> Z -> R -> res R;
  get_integral_for_psi_cdf : R -> R -> R -> Z -> res R;
  trunc_expon_ppf : R -> R -> R -> R;
  quad_rule : R -> R -> list (R * R);
  global_S : option Z
}.

(** [scipy.optimize.bisect(f, a, b, xtol = xtol)], with the default relative
    tolerance [4 * eps] and at most 100 iterations. *)
Definition bisect_rtol : R := / 2 ^ 50.
Definition bisect_maxiter : nat := 100.

Fixpoint bisect_loop {O : Type} (iter : nat) (f : R -> M O R)
    (xa fa dm xtol : R) : M O R :=
  match iter with
  | O => raise RuntimeError
  | S iter' =>
      let dm := dm * / 2 in
      let xm := xa + dm in
      fm <- f xm ;;
      let xa := if Rleb 0 (fm * fa) then xm else xa in
      if Reqb fm 0 || Rltb (Rabs dm) (xtol + bisect_rtol * Rabs xm)
      then ret xm
      else bisect_loop iter' f xa fa dm xtol
  end.

Definition bisect {O : Type} (f : R -> M O R) (xa xb xtol : R) : M O R :=
  fa <- f xa ;;
  fb <- f xb ;;
  if Rltb 0 (fa * fb) then raise ValueError
  else if Reqb fa 0 then ret xa
  else if Reqb fb 0 then ret xb
  else bisect_loop bisect_maxiter f xa fa (xb - xa) xtol.

Definition xtol : R := 1490116 / 10 ^ 14.

(** [mpmath.quad(f, [a, b])] followed by [float]: the weighted sum of the
    integrand over the nodes of the rule. *)
Definition quad {O : Type} `{Collaborators} (f : R -> M O R) (a b : R) : M O R :=
  ys <- mapM (fun xw => y <- f (fst xw) ;; ret (snd xw * y)) (quad_rule a b) ;;
  ret (sum ys).

(** [trunc_expon.rvs(lmd, lower_bound)] *)
Definition trunc_expon_rvs {O : Type} `{Collaborators} (lmd lower_bound : R) : M O R :=
  u <- draw ;;
  ret (trunc_expon_ppf u lmd lower_bound).

(** ** [trunc_logser_gen] *)

Module trunc_logser_gen.

Record t : Type := New {
  a : Z;
  name : string;
  longname : string;
  shapes : string
}.

(** [x] is made an array first; the result is the array of the values. *)
Definition _pmf (x : list Z) (p : R) (upper_bound : Z) : M t (list R) :=
  let ivals := arange 1 (upper_bound + 1) in
  terms <- mapM (fun i => pw <- np_pow p i ;; np_div pw (IZR i)) ivals ;;
  let normalization := sum terms in
  mapM (fun xi =>
          pw <- np_pow p xi ;;
          u <- np_div pw (IZR xi) ;;
          np_div u normalization) x.

End trunc_logser_gen.

(** The normalization constant as the specification writes it: the sum
    over [i = 1 .. n] of [p ^ i / i]. *)
Fixpoint logser_Z (p : R) (n : nat) : R :=
  match n with
  | O => 0
  | S k => logser_Z p k + p ^ S k / INR (S k)
  end.

Definition trunc_logser : trunc_logser_gen.t :=
  trunc_logser_gen.New 1 "trunc_logser" "Upper truncated logseries" "upper_bound".

(** ** [psi_epsilon] *)

Module psi_epsilon.

Record t : Type := New {
  a : R; b : R; N0 : Z;
  beta : R; lambda2 : R; sigma : R; norm_factor : R
}.

Section methods.
Context `{Collaborators}.

Definition __init__ (S0 N0 : Z) (E0 : R) : res t :=
  beta <- get_beta S0 N0 ;;
  lambda2 <- get_lambda2 S0 N0 E0 ;;
  let sigma := beta + (E0 - 1) * lambda2 in
  g1 <- float_div (exp (- beta) - exp (- beta * (IZR N0 + 1))) (1 - exp (- beta)) ;;
  g2 <- float_div (exp (- sigma) - exp (- sigma * (IZR N0 + 1))) (1 - exp (- sigma)) ;;
  norm_factor <- float_div lambda2 (g1 - g2) ;;
  ret (New 1 E0 N0 beta lambda2 sigma norm_factor).

Definition pdf (x : R) : M t R :=
  self <- this ;;
  let exp_neg_gamma := exp (- (beta self + (x - 1) * lambda2 self)) in
  if between (a self) x (b self) then
    p1 <- float_pow exp_neg_gamma (N0 self) ;;
    p2 <- float_pow exp_neg_gamma (N0 self + 1) ;;
    float_div (norm_factor self * exp_neg_gamma *
                 (1 - (IZR (N0 self) + 1) * p1 + IZR (N0 self) * p2))
              ((1 - exp_neg_gamma) ^ 2)
  else ret 0.

Definition cdf (x : R) : M t R :=
  self <- this ;;
  let int_start := exp (- beta self) in
  let int_end := exp (- (beta self + (x - 1) * lambda2 self)) in
  scale <- float_div (norm_factor self) (lambda2 self) ;;
  t1 <- float_div 1 (1 - int_start) ;;
  t2 <- float_div 1 (1 - int_end) ;;
  corr <- stop (get_integral_for_psi_cdf x (beta self) (lambda2 self) (N0 self)) ;;
  ret (scale * (t1 - t2 + corr)).

Definition ppf (q : R) : M t R :=
  self <- this ;;
  let y := fun t => c <- cdf t ;; ret (c - q) in
  bisect y (a self) (b self) xtol.

Definition rvs (size : nat) : M t (list R) :=
  rand_list <- uniform_rvs size ;;
  mapM ppf rand_list.

Definition E : M t R :=
  self <- this ;;
  let mom_1 := fun x => p <- pdf x ;; ret (x * p) in
  quad mom_1 (a self) (b self).

End methods.
End psi_epsilon.

(** ** [psi_epsilon_approx] *)

Module psi_epsilon_approx.

Record t : Type := New {
  a : R; b : R; N0 : Z;
  beta : R; lambda2 : R; sigma : R; norm_factor : R
}.

Section methods.
Context `{Collaborators}.

Definition __init__ (S0 N0 : Z) (E0 : R) : res t :=
  beta <- get_beta S0 N0 ;;
  lambda2 <- get_lambda2 S0 N0 E0 ;;
  let sigma := beta + (E0 - 1) * lambda2 in
  t1 <- float_div 1 (1 - exp (- beta)) ;;
  t2 <- float_div 1 (1 - exp (- sigma)) ;;
  norm_factor <- float_div (t1 - t2) lambda2 ;;
  ret (New 1 E0 N0 beta lambda2 sigma norm_factor).

Definition pdf (x : R) : M t R :=
  self <- this ;;
  let exp_neg_gamma := exp (- (beta self + (x - 1) * lambda2 self)) in
  if between (a self) x (b self) then
    u <- float_div exp_neg_gamma ((1 - exp_neg_gamma) ^ 2) ;;
    float_div u (norm_factor self)
  else ret 0.

Definition cdf (x : R) : M t R :=
  self <- this ;;
  if between (a self) x (b self) then
    let exp_neg_gamma := exp (- (beta self + (x - 1) * lambda2 self)) in
    t1 <- float_div 1 (1 - exp (- beta self)) ;;
    t2 <- float_div 1 (1 - exp_neg_gamma) ;;
    unscaled_cdf <- float_div (t1 - t2) (lambda2 self) ;;
    float_div unscaled_cdf (norm_factor self)
  else if Rltb x (a self) then ret 0
  else ret 1.

(** Over the reals the argument of [log] is positive for every [q] in
    [[0, 1]].  In doubles [1 - t2] is 0 or negative once [q] is within
    rounding of 1, and the call then raises [ValueError]. *)
Definition ppf (q : R) : M t R :=
  self <- this ;;
  t1 <- float_div 1 (1 - exp (- beta self)) ;;
  t2 <- float_div 1 (t1 - q * norm_factor self * lambda2 self) ;;
  m <- log (1 - t2) ;;
  float_div (- m - (beta self - lambda2 self)) (lambda2 self).

Definition rvs (size : nat) : M t (list R) :=
  rand_list <- uniform_rvs size ;;
  mapM ppf rand_list.

End methods.
End psi_epsilon_approx.

(** ** [theta_epsilon] *)

Module theta_epsilon.

Record t : Type := New {
  a : R; b : R;
  beta : R; lambda2 : R; lambda1 : R; sigma : R
}.

Section methods.
Context `{Collaborators}.

Definition __init__ (S0 N0 : Z) (E0 : R) : res t :=
  beta <- get_beta S0 N0 ;;
  lambda2 <- get_lambda2 S0 N0 E0 ;;
  let lambda1 := beta - lambda2 in
  let sigma := beta + (E0 - 1) * lambda2 in
  ret (New 1 E0 beta lambda2 lambda1 sigma).

(** [exp] is total over the reals; [math.exp] raises [OverflowError] when
    its argument exceeds about 709.78, which for [n >= 1] needs [x] far
    below the support. *)
Definition pdf (x : R) (n : Z) : M t R :=
  self <- this ;;
  float_div (lambda2 self * IZR n * exp (- (lambda1 self + lambda2 self * x) * IZR n))
            (exp (- beta self * IZR n) - exp (- sigma self * IZR n)).

Definition logpdf (x : R) (n : Z) : M t R :=
  self <- this ;;
  l_lambda2 <- np_log (lambda2 self) ;;
  l_n <- np_log (IZR n) ;;
  l_norm <- np_log (exp (- beta self * IZR n) - exp (- sigma self * IZR n)) ;;
  ret (l_lambda2 + l_n - (lambda1 self + lambda2 self * x) * IZR n - l_norm).

Definition cdf (x : R) (n : Z) : M t R :=
  let pdf_n := fun x => pdf x n in
  quad pdf_n 1 x.

Definition ppf (n : Z) (q : R) : M t R :=
  self <- this ;;
  let y := fun t => c <- cdf t n ;; ret (c - q) in
  bisect y (a self) (b self) xtol.

(** The inner loop of [rvs], which draws again while the draw exceeds the
    upper bound; [fuel] bounds the number of further draws. *)
Fixpoint resample (fuel : nat) (n : Z) (rand_exp : R) : M t R :=
  self <- this ;;
  if Rltb (b self) rand_exp then
    match fuel with
    | O => undef OutOfFuel
    | S fuel' =>
        rand_exp <- trunc_expon_rvs (lambda2 self * IZR n) 1 ;;
        resample fuel' n rand_exp
    end
  else ret rand_exp.

Definition rvs (fuel : nat) (n : Z) (size : Z) : M t (list R) :=
  mapM (fun _ =>
          self <- this ;;
          rand_exp <- trunc_expon_rvs (lambda2 self * IZR n) 1 ;;
          resample fuel n rand_exp)
       (arange 0 size).

Definition E (n : Z) : M t R :=
  self <- this ;;
  let mom_1 := fun x => p <- pdf x n ;; ret (x * p) in
  quad mom_1 (a self) (b self).

End methods.
End theta_epsilon.

(** ** AGSNE: state variables [[G, S, N, E]] and parameters
    [[lambda1, beta, lambda3, z]] *)

Definition statvar : Type := (Z * Z * Z * R)%type.
Definition pars : Type := (R * R * R * R)%type.

(** The unnormalized mass of [gamma_agsne] at [i], before the division by
    [i], and the normalization constant, as closed expressions. *)
Definition gamma_weight (l1 bt : R) (i : R) : R :=
  exp (- l1 * i) * ln (1 / (1 - exp (- bt * i))).

Definition gamma_norm (l1 bt : R) (s : Z) : R :=
  sum (map (fun i => gamma_weight l1 bt (IZR i) / IZR i) (arange 1 (s + 1))).

(** ** [gamma_agsne] *)

Module gamma_agsne.

Record t : Type := New {
  G : Z; S : Z; N : Z; E : R;
  a : Z; b : Z;
  lambda1 : R; beta : R; lambda3 : R; z : R;
  norm : R
}.

Definition __init__ (sv : statvar) (ps : pars) : res t :=
  let '(g, s, n, e) := sv in
  let '(l1, bt, l3, zz) := ps in
  let S_list := arange 1 (s + 1) in
  terms <- mapM (fun i =>
                   r <- np_div 1 (1 - exp (- bt * IZR i)) ;;
                   l <- np_log r ;;
                   np_div (exp (- l1 * IZR i) * l) (IZR i)) S_list ;;
  ret (New g s n e 1 s l1 bt l3 zz (sum terms)).

Definition pmf (x : pynum) : M t R :=
  self <- this ;;
  if between (IZR (a self)) (num x) (IZR (b self)) && isinstance_int x then
    r <- np_div 1 (1 - exp (- beta self * num x)) ;;
    l <- np_log r ;;
    u <- np_div (exp (- lambda1 self * num x) * l) (num x) ;;
    np_div u (norm self)
  else ret 0.

Definition cdf (x : R) : M t R :=
  self <- this ;;
  if between (IZR (a self)) x (IZR (b self)) then
    let x_int := Zfloor x in
    let x_list := arange (a self) (x_int + 1) in
    terms <- mapM (fun i =>
                     r <- np_div 1 (1 - exp (- beta self * IZR i)) ;;
                     l <- np_log r ;;
                     np_div (exp (- lambda1 self * IZR i) * l) x) x_list ;;
    np_div (sum terms) (norm self)
  else if Rltb x (IZR (a self)) then ret 0
  else ret 1.

End gamma_agsne.

(** The unnormalized mass of [sad_agsne] at [i] and the normalization
    constant, as closed expressions; the parameters are proper for [n] when
    every term of the normalization is a positive real. *)
Definition sad_term (l1 bt : R) (i : R) : R :=
  exp (- l1 - bt * i) / i / (1 - exp (- l1 - bt * i)).

Definition sad_norm (l1 bt : R) (n : Z) : R :=
  sum (map (fun i => sad_term l1 bt (IZR i)) (arange 1 (n + 1))).

Definition sad_proper (l1 bt : R) (n : Z) : Prop :=
  forall i : Z, (1 <= i <= n)%Z -> 0 < l1 + bt * IZR i.

Definition log0_message : string := "Error: log(0) is undefined.".

(** ** [sad_agsne] *)

Module sad_agsne.

Record t : Type := New {
  G : Z; S : Z; N : Z; E : R;
  a : Z; b : Z;
  lambda1 : R; beta : R; lambda3 : R; z : R;
  norm : R
}.

Definition __init__ (sv : statvar) (ps : pars) : res t :=
  let '(g, s, n, e) := sv in
  let '(l1, bt, l3, zz) := ps in
  terms <- mapM (fun i =>
                   u <- np_div (exp (- l1 - bt * IZR i)) (IZR i) ;;
                   np_div u (1 - exp (- l1 - bt * IZR i))) (arange 1 (n + 1)) ;;
  ret (New g s n e 1 n l1 bt l3 zz (sum terms)).

Definition pmf (x : pynum) : M t R :=
  self <- this ;;
  if between (IZR (a self)) (num x) (IZR (b self)) && isinstance_int x then
    u <- np_div (exp (- lambda1 self - beta self * num x)) (num x) ;;
    v <- np_div u (1 - exp (- lambda1 self - beta self * num x)) ;;
    np_div v (norm self)
  else ret 0.

(** [None] is the value returned after the message is printed. *)
Definition logpmf (x : pynum) : M t (option R) :=
  self <- this ;;
  if between (IZR (a self)) (num x) (IZR (b self)) && isinstance_int x then
    l_x <- np_log (num x) ;;
    l_d <- np_log (1 - exp (- lambda1 self - beta self * num x)) ;;
    l_norm <- np_log (norm self) ;;
    ret (Some (- lambda1 self - beta self * num x - l_x - l_d - l_norm))
  else
    print log0_message ;;;
    ret None.

Definition cdf (x : R) : M t R :=
  self <- this ;;
  if between (IZR (a self)) x (IZR (b self)) then
    let x_int := Zfloor x in
    terms <- mapM (fun i =>
                     u <- np_div (exp (- lambda1 self - beta self * IZR i)) (IZR i) ;;
                     np_div u (1 - exp (- lambda1 self - beta self * IZR i)))
                  (arange (a self) (x_int + 1)) ;;
    np_div (sum terms) (norm self)
  else if Rltb x (IZR (a self)) then ret 0
  else ret 1.

(** The inner loop of [rvs] at abundance [i]: [pending] is [rand_list[j:]],
    so that [j == size] holds when the draw just served was the last one.
    [inl out] is the array returned from inside the loop; [inr] is the state
    when the loop condition fails. *)
Fixpoint emit (i : Z) (cdf_cum : R) (pending : list R) (out : list Z)
    : res (list Z + list Z * list R) :=
  match pending with
  | [] => Raise IndexError
  | r :: rest =>
      if Rleb r cdf_cum then
        let out := out ++ [i] in
        match rest with
        | [] => Ok (inl out)
        | _ :: _ => emit i cdf_cum rest out
        end
      else Ok (inr (out, pending))
  end.

(** The outer loop of [rvs]; [todo] counts the values of [i] up to [b + 1]
    that are still to come.  Leaving the loop, the function ends without a
    return statement and yields [None]: this happens when a draw exceeds
    the mass accumulated in [cdf_cum], which over the reals ends at 1 and
    in doubles can end a few units in the last place below it. *)
Fixpoint sweep (todo : nat) (i : Z) (cdf_cum : R) (pending : list R)
    (out : list Z) : M t (option (list Z)) :=
  match todo with
  | O => ret None
  | Datatypes.S todo' =>
      p <- pmf (PyInt i) ;;
      let cdf_cum := cdf_cum + p in
      step <- stop (emit i cdf_cum pending out) ;;
      match step with
      | inl out => ret (Some out)
      | inr (out, pending) => sweep todo' (i + 1) cdf_cum pending out
      end
  end.

Definition rvs (size : nat) : M t (option (list Z)) :=
  self <- this ;;
  rand_list <- uniform_rvs size ;;
  let rand_list := sorted rand_list in
  sweep (Z.to_nat (b self + 1)) 1 0 rand_list [].

End sad_agsne.

(** ** [psi_agsne] *)

Module psi_agsne.

Record t : Type := New {
  G : Z; S : Z; N : Z; E : R;
  a : R; b : R;
  lambda1 : R; beta : R; lambda3 : R; z : R;
  lambda2 : R; exp_neg_lambda1 : R;
  norm : R
}.

Section methods.
Context `{Collaborators}.

Definition __init__ (sv : statvar) (ps : pars) : res t :=
  let '(g, s, n, e) := sv in
  let '(l1, bt, l3, zz) := ps in
  let l2 := bt - l3 in
  inv <- float_div 1 l3 ;;
  terms <- mapM (fun x =>
                   t1 <- float_div 1 (1 - exp (- bt * IZR x)) ;;
                   t2 <- float_div 1 (1 - exp (- (l2 + e * l3) * IZR x)) ;;
                   ret (exp (- l1 * IZR x) * (t1 - t2))) (arange 1 (s + 1)) ;;
  ret (New g s n e 1 e l1 bt l3 zz l2 (exp (- l1)) (inv * sum terms)).

(** The bound of the summation is the bare name [S], looked up in the global
    scope when the list is built. *)
Definition pdf (x : R) : M t R :=
  self <- this ;;
  let exp_neg_gamma := exp (- (lambda2 self + x * lambda3 self)) in
  if between (a self) x (b self) then
    S <- match global_S with
         | Some s => ret s
         | None => raise NameError
         end ;;
    sum_list <- mapM (fun m =>
                        p <- float_pow (exp_neg_gamma * exp_neg_lambda1 self) m ;;
                        q <- float_pow exp_neg_gamma m ;;
                        float_div (IZR m * p) ((1 - q) ^ 2)) (arange 1 (S + 1)) ;;
    float_div (sum sum_list) (norm self)
  else ret 0.

(** The sum is evaluated before the support is tested.  [exp] is total over
    the reals; [math.exp] raises [OverflowError] when
    [- (lambda2 + x * lambda3) * m] exceeds about 709.78, which needs [x]
    far below the support. *)
Definition cdf (x : R) : M t R :=
  self <- this ;;
  inv <- float_div 1 (lambda3 self) ;;
  terms <- mapM (fun m =>
                   t1 <- float_div 1 (1 - exp (- beta self * IZR m)) ;;
                   t2 <- float_div 1
                           (1 - exp (- (lambda2 self + x * lambda3 self) * IZR m)) ;;
                   ret (exp (- lambda1 self * IZR m) * (t1 - t2)))
                (arange 1 (S self + 1)) ;;
  let unscaled_cdf := inv * sum terms in
  if between (a self) x (b self) then float_div unscaled_cdf (norm self)
  else if Rltb x (a self) then ret 0
  else ret 1.

(** Over the reals [cdf a - q = - q]; the doubles leave a rounding residue
    of [cdf a] (of the order of 1e-15), which decides the sign test of
    [bisect] for [q] of that size. *)
Definition ppf (q : R) : M t R :=
  self <- this ;;
  let y := fun t => c <- cdf t ;; ret (c - q) in
  bisect y (a self) (b self) xtol.

Definition rvs (size : nat) : M t (list R) :=
  rand_list <- uniform_rvs size ;;
  mapM ppf rand_list.

End methods.
End psi_agsne.

(** The density of [psi_agsne] as the specification words it: [1 / norm]
    times the sum over [m = 1 .. S] of [m * q ^ m / (1 - q ^ m) ^ 2] with
    [q = exp (- (lambda2 + x * lambda3)) * exp (- lambda1)]. *)
Definition psi_agsne_pdf_claimed (self : psi_agsne.t) (x : R) : R :=
  let q := exp (- (psi_agsne.lambda2 self + x * psi_agsne.lambda3 self))
           * exp (- psi_agsne.lambda1 self) in
  1 / psi_agsne.norm self
  * sum (map (fun m => IZR m * powerRZ q m / (1 - powerRZ q m) ^ 2)
             (arange 1 (psi_agsne.S self + 1))).

(** The unscaled distribution function of [psi_agsne] at [x] as a closed
    expression: [1 / lambda3] times the sum over [m = 1 .. S] of the terms
    below, in which [lambda2] is [beta - lambda3]. *)
Definition psi_agsne_term (l1 bt l3 x : R) (m : Z) : R :=
  exp (- l1 * IZR m)
  * (1 / (1 - exp (- bt * IZR m)) - 1 / (1 - exp (- (bt - l3 + x * l3) * IZR m))).

Definition psi_agsne_unscaled (l1 bt l3 : R) (s : Z) (x : R) : R :=
  1 / l3 * sum (map (psi_agsne_term l1 bt l3 x) (arange 1 (s + 1))).

(** ** [theta_agsne] *)

Module theta_agsne.

Record t : Type := New {
  G : Z; S : Z; N : Z; E : R;
  a : R; b : R;
  lambda1 : R; beta : R; lambda3 : R; z : R
}.

Definition __init__ (sv : statvar) (ps : pars) : res t :=
  let '(g, s, n, e) := sv in
  let '(l1, bt, l3, zz) := ps in
  ret (New g s n e 1 e l1 bt l3 zz).

Definition pdf (x : R) (m n : Z) : M t R :=
  self <- this ;;
  if between (a self) x (b self) then
    u <- float_div (lambda3 self * IZR m * IZR n)
           (exp (- lambda3 self * IZR m * IZR n)
            - exp (- lambda3 self * IZR m * IZR n * E self)) ;;
    ret (u * exp (- lambda3 self * IZR m * IZR n * x))
  else ret 0.

Definition cdf (x : R) (m n : Z) : M t R :=
  self <- this ;;
  if between (a self) x (b self) then
    float_div (exp (- lambda3 self * IZR m * IZR n)
               - exp (- lambda3 self * IZR m * IZR n * x))
              (exp (- lambda3 self * IZR m * IZR n)
               - exp (- lambda3 self * IZR m * IZR n * E self))
  else if Rltb x (a self) then ret 0
  else ret 1.

(** Over the reals the argument of [log] is positive for every [q] in
    [[0, 1]]; in doubles it is 0 at [q = 1.0] when
    [exp (- lambda3 * m * n * E)] is absorbed or underflows. *)
Definition ppf (q : R) (m n : Z) : M t R :=
  self <- this ;;
  c1 <- float_div (- 1) (lambda3 self) ;;
  c2 <- float_div c1 (IZR m) ;;
  c3 <- float_div c2 (IZR n) ;;
  l <- log (exp (- lambda3 self * IZR m * IZR n)
            - q * (exp (- lambda3 self * IZR m * IZR n)
                   - exp (- lambda3 self * IZR m * IZR n * E self))) ;;
  ret (c3 * l).

Definition rvs (size : nat) (m n : Z) : M t (list R) :=
  rand_list <- uniform_rvs size ;;
  mapM (fun rand_num => ppf rand_num m n) rand_list.

Definition expected (m n : Z) : M t R :=
  self <- this ;;
  float_div (exp (- lambda3 self * IZR m * IZR n) * (lambda3 self * IZR m * IZR n + 1)
             - exp (- lambda3 self * IZR m * IZR n * E self)
               * (lambda3 self * IZR m * IZR n * E self + 1))
            (lambda3 self * IZR m * IZR n
             * (exp (- lambda3 self * IZR m * IZR n)
                - exp (- lambda3 self * IZR m * IZR n * E self))).

End theta_agsne.

(** ** Fixtures

    A stand-in for the collaborators, used to run the methods on concrete
    inputs: the solver answers [beta = lambda2 = 1], the correction integral
    is 0, the truncated exponential is inverted in closed form, the
    quadrature is the midpoint rule, and the global name [S] is bound as
    given. *)
Definition stub (gS : option Z) : Collaborators := {|
  get_beta := fun _ _ => Ok 1;
  get_lambda2 := fun _ _ _ => Ok 1;
  get_integral_for_psi_cdf := fun _ _ _ _ => Ok 0;
  trunc_expon_ppf := fun u lmd lower_bound => lower_bound - ln (1 - u) / lmd;
  quad_rule := fun a b => [((a + b) / 2, b - a)];
  global_S := gS
|}.

(** A generator that always draws [1/2]. *)
Definition half_rng : nat -> R := fun _ => 1 / 2.

(** * Properties *)

Lemma Rleb_true x y : x <= y -> Rleb x y = true.
Proof. intros Hxy. unfold Rleb. destruct (Rle_dec x y); [reflexivity | contradiction]. Qed.

Lemma Rleb_false x y : y < x -> Rleb x y = false.
Proof. intros Hxy. unfold Rleb. destruct (Rle_dec x y); [lra | reflexivity]. Qed.

Lemma Rltb_true x y : x < y -> Rltb x y = true.
Proof. intros Hxy. unfold Rltb. destruct (Rlt_dec x y); [reflexivity | contradiction]. Qed.

Lemma Rltb_false x y : y <= x -> Rltb x y = false.
Proof. intros Hxy. unfold Rltb. destruct (Rlt_dec x y); [lra | reflexivity]. Qed.

Lemma Reqb_false x y : x <> y -> Reqb x y = false.
Proof. intros Hxy. unfold Reqb. destruct (Req_dec_T x y); [contradiction | reflexivity]. Qed.

Lemma Reqb_refl x : Reqb x x = true.
Proof. unfold Reqb. destruct (Req_dec_T x x); [reflexivity | contradiction]. Qed.

Lemma between_true lo x hi : lo <= x <= hi -> between lo x hi = true.
Proof. intros [H1 H2]. unfold between. now rewrite !Rleb_true. Qed.

Lemma float_div_ok {m : Type -> Type} `{MonadExc m} (x y : R) :
  y <> 0 -> float_div x y = stop (Ok (x / y)).
Proof. intros Hy. unfold float_div. now rewrite Reqb_false. Qed.

Lemma float_div_zero {m : Type -> Type} `{MonadExc m} (x : R) :
  float_div x 0 = raise ZeroDivisionError.
Proof. unfold float_div. now rewrite Reqb_refl. Qed.

Lemma log_ok {m : Type -> Type} `{MonadExc m} (x : R) :
  0 < x -> log x = stop (Ok (ln x)).
Proof. intros Hx. unfold log. now rewrite Rltb_true. Qed.

Lemma exp_neg_lt_1 x : 0 < x -> exp (- x) < 1.
Proof. intros Hx. rewrite <- exp_0. apply exp_increasing. lra. Qed.

Lemma np_div_ok {m : Type -> Type} `{MonadExc m} (x y : R) :
  y <> 0 -> np_div x y = stop (Ok (x / y)).
Proof. intros Hy. unfold np_div. now rewrite Reqb_false. Qed.

Lemma np_log_ok {m : Type -> Type} `{MonadExc m} (x : R) :
  0 < x -> np_log x = stop (Ok (ln x)).
Proof. intros Hx. unfold np_log. now rewrite Rltb_true. Qed.

Lemma np_pow_ok {m : Type -> Type} `{MonadExc m} (x : R) (n : Z) :
  x <> 0 -> np_pow x n = stop (Ok (powerRZ x n)).
Proof. intros Hx. unfold np_pow. now rewrite Reqb_false. Qed.

Lemma float_pow_ok {m : Type -> Type} `{MonadExc m} (x : R) (n : Z) :
  x <> 0 -> float_pow x n = stop (Ok (powerRZ x n)).
Proof. intros Hx. unfold float_pow. now rewrite Reqb_false. Qed.

(** *** Lists, ranges and sums *)

Lemma mapM_ok {O A B : Type} (f : A -> M O B) (g : A -> B) (l : list A) (w : world O) :
  (forall x, In x l -> f x w = (Ok (g x), w)) ->
  mapM f l w = (Ok (map g l), w).
Proof.
  induction l as [|x l IH]; intros Hf; cbn.
  - reflexivity.
  - rewrite (Hf x) by now left. rewrite IH by (intros y Hy; apply Hf; now right).
    reflexivity.
Qed.

Lemma mapM_res_ok {A B : Type} (f : A -> res B) (g : A -> B) (l : list A) :
  (forall x, In x l -> f x = Ok (g x)) ->
  mapM f l = Ok (map g l).
Proof.
  induction l as [|x l IH]; intros Hf; cbn.
  - reflexivity.
  - rewrite (Hf x) by now left. rewrite IH by (intros y Hy; apply Hf; now right).
    reflexivity.
Qed.

Lemma fold_left_Rplus_acc (l : list R) (acc : R) :
  fold_left Rplus l acc = acc + fold_left Rplus l 0.
Proof.
  revert acc. induction l as [|x l IH]; intros acc; cbn.
  - lra.
  - rewrite IH, (IH (0 + x)). lra.
Qed.

Lemma sum_nil : sum [] = 0.
Proof. reflexivity. Qed.

Lemma sum_cons (x : R) (l : list R) : sum (x :: l) = x + sum l.
Proof. unfold sum. cbn. rewrite fold_left_Rplus_acc. lra. Qed.

Lemma sum_app (l1 l2 : list R) : sum (l1 ++ l2) = sum l1 + sum l2.
Proof.
  induction l1 as [|x l1 IH]; cbn [app].
  - rewrite sum_nil. lra.
  - rewrite !sum_cons, IH. lra.
Qed.

Lemma sum_snoc (l : list R) (x : R) : sum (l ++ [x]) = sum l + x.
Proof. rewrite sum_app, sum_cons, sum_nil. lra. Qed.

Lemma sum_pos (l : list R) : l <> [] -> Forall (fun x => 0 < x) l -> 0 < sum l.
Proof.
  intros Hne Hl. induction Hl as [|x l Hx Hl IH]; [congruence|].
  rewrite sum_cons. destruct l as [|y l].
  - rewrite sum_nil. lra.
  - assert (0 < sum (y :: l)) by (apply IH; discriminate). lra.
Qed.

Lemma sum_nonneg (l : list R) : Forall (fun x => 0 <= x) l -> 0 <= sum l.
Proof.
  induction 1 as [|x l Hx Hl IH]; [rewrite sum_nil; lra | rewrite sum_cons; lra].
Qed.

Lemma sum_map_div (l : list R) (c : R) :
  sum (map (fun x => x / c) l) = sum l / c.
Proof.
  induction l as [|x l IH]; cbn [map].
  - rewrite sum_nil. unfold Rdiv. lra.
  - rewrite !sum_cons, IH. unfold Rdiv. lra.
Qed.

Lemma arange_empty (lo hi : Z) : (hi <= lo)%Z -> arange lo hi = [].
Proof.
  intros Hle. unfold arange. replace (Z.to_nat (hi - lo)) with 0%nat by lia. reflexivity.
Qed.

Lemma arange_snoc (lo hi : Z) :
  (lo <= hi)%Z -> arange lo (hi + 1) = arange lo hi ++ [hi].
Proof.
  intros Hle. unfold arange.
  replace (Z.to_nat (hi + 1 - lo)) with (Z.to_nat (hi - lo) + 1)%nat by lia.
  rewrite seq_app, map_app. cbn. do 2 f_equal. lia.
Qed.

Lemma arange_cons (lo hi : Z) :
  (lo < hi)%Z -> arange lo hi = lo :: arange (lo + 1) hi.
Proof.
  intros Hlt. unfold arange.
  replace (Z.to_nat (hi - lo)) with (S (Z.to_nat (hi - (lo + 1)))) by lia.
  cbn [seq map]. f_equal; [lia|].
  rewrite <- seq_shift, map_map. apply map_ext. intros k. lia.
Qed.

Lemma in_arange (lo hi i : Z) : In i (arange lo hi) <-> (lo <= i < hi)%Z.
Proof.
  unfold arange. rewrite in_map_iff. split.
  - intros [k [Hk Hin]]. apply in_seq in Hin. lia.
  - intros Hi. exists (Z.to_nat (i - lo)). split; [lia|]. apply in_seq. lia.
Qed.

Lemma arange_length (lo hi : Z) : length (arange lo hi) = Z.to_nat (hi - lo).
Proof. unfold arange. now rewrite length_map, length_seq. Qed.

(** ** [trunc_logser]: the mass function *)

Section trunc_logser_facts.
Import trunc_logser_gen.

Lemma logser_Z_pos (p : R) (n : nat) : 0 < p -> (0 < n)%nat -> 0 < logser_Z p n.
Proof.
  intros Hp Hn. induction n as [|k IH]; [lia|].
  cbn [logser_Z].
  assert (Ht : 0 < p ^ S k / INR (S k)).
  { apply Rdiv_lt_0_compat; [apply pow_lt; exact Hp | apply lt_0_INR; lia]. }
  destruct k as [|k]; [cbn [logser_Z]; lra|].
  assert (0 < logser_Z p (S k)) by (apply IH; lia). lra.
Qed.

Lemma logser_terms_sum (p : R) (n : nat) :
  sum (map (fun i => powerRZ p i / IZR i) (arange 1 (Z.of_nat n + 1))) = logser_Z p n.
Proof.
  induction n as [|k IH].
  - reflexivity.
  - replace (Z.of_nat (S k) + 1)%Z with ((Z.of_nat k + 1) + 1)%Z by lia.
    rewrite arange_snoc by lia. rewrite map_app, sum_app, IH. cbn [map logser_Z].
    rewrite sum_cons, sum_nil.
    replace (Z.of_nat k + 1)%Z with (Z.of_nat (S k)) by lia.
    rewrite <- pow_powerRZ, <- INR_IZR_INZ. lra.
Qed.

Lemma logser_normalization (p : R) (upper_bound : Z) :
  (0 <= upper_bound)%Z ->
  sum (map (fun i => powerRZ p i / IZR i) (arange 1 (upper_bound + 1)))
  = logser_Z p (Z.to_nat upper_bound).
Proof.
  intros Hub. rewrite <- logser_terms_sum. now rewrite Z2Nat.id.
Qed.

Lemma logser_Z_half_10 : logser_Z (1 / 2) 10 = 44711 / 64512.
Proof. unfold logser_Z. simpl. lra. Qed.

Lemma trunc_logser_pmf_values (xs : list Z) (p : R) (upper_bound : Z) (w : world t) :
  0 < p < 1 ->
  Forall (fun x => (1 <= x <= upper_bound)%Z) xs ->
  _pmf xs p upper_bound w =
    (Ok (map (fun x => p ^ Z.to_nat x / IZR x / logser_Z p (Z.to_nat upper_bound)) xs), w).
Proof.
  intros Hp Hxs. unfold _pmf.
  cbn [bind M_monad].
  rewrite (mapM_ok _ (fun i => powerRZ p i / IZR i)).
  2:{ intros i Hi. apply in_arange in Hi.
      rewrite np_pow_ok by lra. cbn.
      rewrite np_div_ok by (apply not_0_IZR; lia). reflexivity. }
  destruct xs as [|x0 xs0] eqn:Exs; [reflexivity|]. rewrite <- Exs in *.
  assert (Hub : (1 <= upper_bound)%Z).
  { rewrite Exs in Hxs. apply Forall_inv in Hxs. lia. }
  assert (HZ : 0 < logser_Z p (Z.to_nat upper_bound)) by (apply logser_Z_pos; [lra | lia]).
  apply mapM_ok. intros x Hx.
  rewrite Forall_forall in Hxs. specialize (Hxs x Hx).
  rewrite logser_normalization by lia.
  rewrite np_pow_ok by lra. cbn.
  rewrite np_div_ok by (apply not_0_IZR; lia). cbn.
  rewrite np_div_ok by lra. cbn.
  rewrite pow_powerRZ, Z2Nat.id by lia. reflexivity.
Qed.

(** C1: for integers [x] with [1 <= x <= upper_bound] and [p] in (0,1), the
    mass function of [trunc_logser] returns [(p ^ x / x) / Z], where [Z] is
    the sum over [i = 1 .. upper_bound] of [p ^ i / i]; for [p = 1/2] and
    [upper_bound = 10] the value at [x = 1] is [(1/2 / 1) / Z] with
    [Z = 44711 / 64512]. *)
Theorem trunc_logser_pmf_formula (xs : list Z) (p : R) (upper_bound : Z) (w : world t) :
  0 < p < 1 ->
  Forall (fun x => (1 <= x <= upper_bound)%Z) xs ->
  _pmf xs p upper_bound w
  = (Ok (map (fun x => p ^ Z.to_nat x / IZR x / logser_Z p (Z.to_nat upper_bound)) xs), w)
  /\ _pmf [1%Z] (1 / 2) 10 w = (Ok [1 / 2 / 1 / logser_Z (1 / 2) 10], w)
  /\ logser_Z (1 / 2) 10 = 44711 / 64512.
Proof.
  intros Hp Hxs. split; [|split].
  - now apply trunc_logser_pmf_values.
  - rewrite trunc_logser_pmf_values by (try lra; repeat constructor; lia).
    cbn [map]. change (Z.to_nat 1) with 1%nat. change (Z.to_nat 10) with 10%nat.
    now rewrite pow_1.
  - exact logser_Z_half_10.
Qed.

Lemma trunc_logser_pmf_formula_witness :
  (0 < 1 / 3 < 1 /\ Forall (fun x => (1 <= x <= 4)%Z) [1%Z; 3%Z])
  /\ (_pmf [1%Z; 3%Z] (1 / 3) 4 (World trunc_logser [] half_rng)
      = (Ok (map (fun x => (1 / 3) ^ Z.to_nat x / IZR x / logser_Z (1 / 3) (Z.to_nat 4))
                 [1%Z; 3%Z]),
         World trunc_logser [] half_rng)
      /\ _pmf [1%Z] (1 / 2) 10 (World trunc_logser [] half_rng)
         = (Ok [1 / 2 / 1 / logser_Z (1 / 2) 10], World trunc_logser [] half_rng)
      /\ logser_Z (1 / 2) 10 = 44711 / 64512).
Proof.
  assert (Hp : 0 < 1 / 3 < 1) by lra.
  assert (Hxs : Forall (fun x => (1 <= x <= 4)%Z) [1%Z; 3%Z]) by (repeat constructor; lia).
  split; [split; assumption|].
  exact (trunc_logser_pmf_formula [1%Z; 3%Z] (1 / 3) 4 (World trunc_logser [] half_rng) Hp Hxs).
Defined.

End trunc_logser_facts.
(** ** [psi_epsilon_approx]: the quantile function inverts the CDF *)

Section psi_epsilon_approx_facts.
Import psi_epsilon_approx.
Context `{Collaborators}.

End psi_epsilon_approx_facts.


(** ** [gamma_agsne]: the cumulative sum divides by [x] *)

Section gamma_agsne_facts.
Import gamma_agsne.

Lemma gamma_log_arg (bt i : R) :
  0 < bt -> 1 <= i -> 0 < 1 - exp (- bt * i) /\ 1 < 1 / (1 - exp (- bt * i)).
Proof.
  intros Hbt Hi.
  assert (He : exp (- bt * i) < 1).
  { replace (- bt * i) with (- (bt * i)) by lra. apply exp_neg_lt_1. nra. }
  pose proof (exp_pos (- bt * i)) as Hp.
  split; [lra|].
  apply Rmult_lt_reg_r with (1 - exp (- bt * i)); [lra|].
  unfold Rdiv. rewrite Rmult_assoc, Rinv_l by lra. lra.
Qed.

Lemma gamma_weight_pos (l1 bt i : R) :
  0 < bt -> 1 <= i -> 0 < gamma_weight l1 bt i.
Proof.
  intros Hbt Hi. unfold gamma_weight.
  destruct (gamma_log_arg bt i Hbt Hi) as [_ Hgt].
  apply Rmult_lt_0_compat; [apply exp_pos|].
  rewrite <- ln_1. apply ln_increasing; lra.
Qed.

Lemma gamma_norm_pos (l1 bt : R) (s : Z) :
  0 < bt -> (1 <= s)%Z -> 0 < gamma_norm l1 bt s.
Proof.
  intros Hbt Hs. unfold gamma_norm. apply sum_pos.
  - rewrite arange_cons by lia. discriminate.
  - apply Forall_forall. intros y Hy. apply in_map_iff in Hy.
    destruct Hy as [i [<- Hi]]. apply in_arange in Hi.
    assert (1 <= IZR i) by (apply IZR_le; lia).
    apply Rdiv_lt_0_compat; [apply gamma_weight_pos; assumption | lra].
Qed.

Lemma gamma_init_ok (g s n : Z) (e l1 bt l3 zz : R) :
  0 < bt ->
  __init__ (g, s, n, e) (l1, bt, l3, zz)
  = Ok (New g s n e 1 s l1 bt l3 zz (gamma_norm l1 bt s)).
Proof.
  intros Hbt. unfold __init__.
  rewrite (mapM_res_ok _ (fun i => gamma_weight l1 bt (IZR i) / IZR i)).
  - reflexivity.
  - intros i Hi. apply in_arange in Hi.
    assert (Hi1 : 1 <= IZR i) by (apply IZR_le; lia).
    destruct (gamma_log_arg bt (IZR i) Hbt Hi1) as [Hd Hl].
    rewrite np_div_ok by lra. cbn.
    rewrite np_log_ok by lra. cbn.
    rewrite np_div_ok by lra. reflexivity.
Qed.

Lemma gamma_pmf_int (d : t) (i : Z) (so : list string) (r : nat -> R) :
  0 < beta d -> norm d <> 0 -> (1 <= a d)%Z -> (a d <= i <= b d)%Z ->
  pmf (PyInt i) (World d so r)
  = (Ok (gamma_weight (lambda1 d) (beta d) (IZR i) / IZR i / norm d), World d so r).
Proof.
  intros Hbt Hn Ha Hi. unfold pmf. cbn.
  rewrite between_true by (split; apply IZR_le; lia). cbn.
  assert (Hi1 : 1 <= IZR i) by (apply IZR_le; lia).
  destruct (gamma_log_arg (beta d) (IZR i) Hbt Hi1) as [Hd Hl].
  rewrite np_div_ok by lra. cbn.
  rewrite np_log_ok by lra. cbn.
  rewrite np_div_ok by lra. cbn.
  rewrite np_div_ok by exact Hn. reflexivity.
Qed.

Lemma gamma_cdf_in_support (d : t) (x : R) (so : list string) (r : nat -> R) :
  0 < beta d -> norm d <> 0 -> (1 <= a d)%Z -> IZR (a d) <= x <= IZR (b d) ->
  cdf x (World d so r)
  = (Ok (sum (map (fun i => gamma_weight (lambda1 d) (beta d) (IZR i) / x)
                  (arange (a d) (Zfloor x + 1))) / norm d),
     World d so r).
Proof.
  intros Hbt Hn Ha Hx. unfold cdf. cbn.
  rewrite between_true by exact Hx. cbn.
  assert (Hx1 : 1 <= x) by (apply IZR_le in Ha; lra).
  rewrite (mapM_ok _ (fun i => gamma_weight (lambda1 d) (beta d) (IZR i) / x)).
  - rewrite np_div_ok by exact Hn. reflexivity.
  - intros i Hi. apply in_arange in Hi.
    assert (Hi1 : 1 <= IZR i) by (apply IZR_le; lia).
    destruct (gamma_log_arg (beta d) (IZR i) Hbt Hi1) as [Hd Hl].
    rewrite np_div_ok by lra. cbn.
    rewrite np_log_ok by lra. cbn.
    rewrite np_div_ok by lra. reflexivity.
Qed.

(** C3: the claim is that [gamma_agsne.cdf x] is the sum of [pmf i] over
    [i = 1 .. floor x], hence 1 at [x = S].  The method divides every term
    by [x] where the mass function and the normalization divide the term of
    [i] by [i]: for [S = 2] and [lambda1 = beta = 1] the masses at 1 and 2
    add up to 1 while [cdf 2] is below 1. *)
Theorem gamma_agsne_cdf_at_S_below_one (so : list string) (r : nat -> R) :
  exists d, __init__ (1%Z, 2%Z, 10%Z, 100) (1, 1, 1, 1) = Ok d /\
    exists c p1 p2,
      cdf 2 (World d so r) = (Ok c, World d so r) /\
      pmf (PyInt 1) (World d so r) = (Ok p1, World d so r) /\
      pmf (PyInt 2) (World d so r) = (Ok p2, World d so r) /\
      p1 + p2 = 1 /\ c < 1.
Proof.
  pose proof (gamma_weight_pos 1 1 1 ltac:(lra) ltac:(lra)) as W1.
  pose proof (gamma_weight_pos 1 1 2 ltac:(lra) ltac:(lra)) as W2.
  pose proof (gamma_norm_pos 1 1 2 ltac:(lra) ltac:(lia)) as Hn.
  assert (En : gamma_norm 1 1 2 = gamma_weight 1 1 1 / 1 + gamma_weight 1 1 2 / 2).
  { unfold gamma_norm. change (arange 1 (2 + 1)) with [1; 2]%Z.
    cbn [map]. rewrite !sum_cons, sum_nil. lra. }
  eexists. split; [apply gamma_init_ok; lra|].
  do 3 eexists.
  rewrite gamma_cdf_in_support by (cbn [beta norm a b lambda1]; first [lra | lia]).
  rewrite !gamma_pmf_int by (cbn [beta norm a b lambda1]; first [lra | lia]).
  repeat split.
  - cbn [norm lambda1 beta]. rewrite En. field. lra.
  - cbn [norm lambda1 beta a]. rewrite (ZfloorZ 2).
    change (arange 1 (2 + 1)) with [1; 2]%Z.
    cbn [map]. rewrite !sum_cons, sum_nil.
    apply Rmult_lt_reg_r with (gamma_norm 1 1 2); [exact Hn|].
    unfold Rdiv at 1. rewrite Rmult_assoc, Rinv_l by lra. rewrite En. lra.
Qed.
End gamma_agsne_facts.
(** ** [theta_epsilon]: the density has no support test *)

Section theta_epsilon_facts.
Import theta_epsilon.
Context `{Collaborators}.

Lemma theta_epsilon_pdf_positive (d : t) (x : R) (n : Z) (so : list string) (r : nat -> R) :
  0 < lambda2 d -> beta d < sigma d -> (1 <= n)%Z ->
  exists v, pdf x n (World d so r) = (Ok v, World d so r) /\ 0 < v.
Proof.
  intros Hl Hs Hn. unfold pdf. cbn.
  assert (Hn1 : 1 <= IZR n) by (apply IZR_le; lia).
  assert (Hlt : exp (- sigma d * IZR n) < exp (- beta d * IZR n)).
  { apply exp_increasing. nra. }
  rewrite float_div_ok by lra. cbn.
  eexists. split; [reflexivity|].
  apply Rdiv_lt_0_compat; [|lra].
  apply Rmult_lt_0_compat; [nra | apply exp_pos].
Qed.

(** C5: the claim is that every density and distribution function is
    exactly 0 below the lower bound 1.  [theta_epsilon.pdf] has no support
    test: whenever [lambda2 > 0] and [E0 > 1], its value at any [x < 1] and
    abundance [n >= 1] is positive. *)
Theorem theta_epsilon_pdf_below_support_positive (S0 N0 : Z) (E0 bt l2 x : R) (n : Z) :
  get_beta S0 N0 = Ok bt ->
  get_lambda2 S0 N0 E0 = Ok l2 ->
  0 < l2 -> 1 < E0 -> (1 <= n)%Z -> x < 1 ->
  exists d, __init__ S0 N0 E0 = Ok d /\
    forall so r, exists v, pdf x n (World d so r) = (Ok v, World d so r) /\ 0 < v.
Proof.
  intros Hb Hl Hl2 HE Hn _. unfold __init__. rewrite Hb, Hl. cbn.
  eexists. split; [reflexivity|]. intros so r.
  apply theta_epsilon_pdf_positive; cbn [lambda2 beta sigma]; try assumption. nra.
Qed.

End theta_epsilon_facts.

Lemma theta_epsilon_pdf_below_support_positive_witness :
  (get_beta (Collaborators := stub None) 4 16 = Ok 1
   /\ get_lambda2 (Collaborators := stub None) 4 16 20 = Ok 1
   /\ 0 < 1 /\ 1 < 20 /\ (1 <= 1)%Z /\ 0 < 1)
  /\ exists d, theta_epsilon.__init__ (H := stub None) 4 16 20 = Ok d /\
       forall so r, exists v,
         theta_epsilon.pdf 0 1 (World d so r) = (Ok v, World d so r) /\ 0 < v.
Proof.
  assert (H1 : 0 < 1) by lra.
  assert (H2 : 1 < 20) by lra.
  assert (H3 : (1 <= 1)%Z) by lia.
  split; [repeat split; try assumption; lra|].
  exact (theta_epsilon_pdf_below_support_positive (H := stub None) 4 16 20 1 1 0 1
           eq_refl eq_refl H1 H2 H3 H1).
Defined.
(** ** [psi_agsne]: the density *)

Section psi_agsne_facts.
Import psi_agsne.
Context `{Collaborators}.

Lemma recip_gap_pos (u v : R) :
  0 < u -> u < v -> 0 < 1 / (1 - exp (- u)) - 1 / (1 - exp (- v)).
Proof.
  intros Hu Huv.
  pose proof (exp_pos (- v)) as Pv.
  assert (Lu : exp (- u) < 1) by (apply exp_neg_lt_1; lra).
  assert (Lvu : exp (- v) < exp (- u)) by (apply exp_increasing; lra).
  unfold Rdiv. rewrite !Rmult_1_l.
  apply Rlt_0_minus. apply Rinv_lt_contravar; [|lra]. apply Rmult_lt_0_compat; lra.
Qed.

Lemma psi_agsne_init_ok (g s n : Z) (e l1 bt l3 zz : R) :
  (1 <= s)%Z -> 1 < e -> 0 < bt -> 0 < l3 ->
  exists nm, 0 < nm /\
    __init__ (g, s, n, e) (l1, bt, l3, zz)
    = Ok (New g s n e 1 e l1 bt l3 zz (bt - l3) (exp (- l1)) nm).
Proof.
  intros Hs He Hbt Hl3. unfold __init__.
  rewrite float_div_ok by lra. cbn.
  set (term := fun x : Z =>
         exp (- l1 * IZR x)
         * (1 / (1 - exp (- bt * IZR x)) - 1 / (1 - exp (- (bt - l3 + e * l3) * IZR x)))).
  assert (Hterm : forall x, (1 <= x)%Z -> 0 < term x).
  { intros x Hx. unfold term. apply Rmult_lt_0_compat; [apply exp_pos|].
    assert (1 <= IZR x) by (apply IZR_le; lia).
    replace (- bt * IZR x) with (- (bt * IZR x)) by lra.
    replace (- (bt - l3 + e * l3) * IZR x) with (- ((bt - l3 + e * l3) * IZR x)) by lra.
    assert (0 < (e - 1) * l3) by nra.
    apply recip_gap_pos; nra. }
  rewrite (mapM_res_ok _ term).
  - cbn. eexists. split; [|reflexivity].
    apply Rmult_lt_0_compat; [apply Rdiv_lt_0_compat; lra|].
    apply sum_pos.
    + rewrite arange_cons by lia. discriminate.
    + apply Forall_forall. intros y Hy. apply in_map_iff in Hy.
      destruct Hy as [x [<- Hx]]. apply in_arange in Hx. apply Hterm. lia.
  - intros x Hx. apply in_arange in Hx.
    assert (1 <= IZR x) by (apply IZR_le; lia).
    assert (L1 : exp (- bt * IZR x) < 1).
    { replace (- bt * IZR x) with (- (bt * IZR x)) by lra. apply exp_neg_lt_1. nra. }
    assert (L2 : exp (- (bt - l3 + e * l3) * IZR x) < 1).
    { replace (- (bt - l3 + e * l3) * IZR x) with (- ((bt - l3 + e * l3) * IZR x)) by lra.
      assert (0 < (e - 1) * l3) by nra.
      apply exp_neg_lt_1. nra. }
    rewrite !float_div_ok by lra. reflexivity.
Qed.

Lemma psi_agsne_pdf_unbound (d : t) (x : R) (so : list string) (r : nat -> R) :
  global_S = None -> a d <= x <= b d ->
  pdf x (World d so r) = (Raise NameError, World d so r).
Proof.
  intros HS Hx. unfold pdf. cbn. rewrite between_true by exact Hx.
  rewrite HS. reflexivity.
Qed.

Lemma powerRZ_exp (u : R) (m : Z) : powerRZ (exp u) m = exp (u * IZR m).
Proof.
  rewrite powerRZ_Rpower by apply exp_pos. unfold Rpower.
  now rewrite ln_exp, Rmult_comm.
Qed.

Lemma psi_agsne_pdf_bound (d : t) (x : R) (s : Z) (so : list string) (r : nat -> R) :
  global_S = Some s -> a d <= x <= b d ->
  0 < lambda2 d + x * lambda3 d -> norm d <> 0 ->
  pdf x (World d so r)
  = (Ok (sum (map (fun m =>
                     IZR m * powerRZ (exp (- (lambda2 d + x * lambda3 d)) * exp_neg_lambda1 d) m
                     / (1 - powerRZ (exp (- (lambda2 d + x * lambda3 d))) m) ^ 2)
                  (arange 1 (s + 1))) / norm d),
     World d so r).
Proof.
  intros HS Hx Hg Hn. unfold pdf. cbn. rewrite between_true by exact Hx.
  rewrite HS. cbn.
  erewrite mapM_ok.
  - cbn. rewrite float_div_ok by exact Hn. reflexivity.
  - intros m Hm. apply in_arange in Hm. cbn beta.
    pose proof (exp_pos (- (lambda2 d + x * lambda3 d))) as Pg.
    unfold float_pow.
    destruct (Reqb (exp (- (lambda2 d + x * lambda3 d)) * exp_neg_lambda1 d) 0) eqn:E0;
      cbn [andb]; [replace (m <? 0)%Z with false by lia|]; cbn;
      rewrite Reqb_false by lra; cbn.
    all: assert (Hq : powerRZ (exp (- (lambda2 d + x * lambda3 d))) m < 1)
      by (rewrite powerRZ_exp;
          replace (- (lambda2 d + x * lambda3 d) * IZR m)
            with (- ((lambda2 d + x * lambda3 d) * IZR m)) by lra;
          apply exp_neg_lt_1; assert (1 <= IZR m) by (apply IZR_le; lia); nra).
    all: rewrite float_div_ok by (first [apply pow_nonzero; lra | intros Hz; nra]);
      reflexivity.
Qed.

(** C2, as the code has it: for [x] in [[1, E]], when the bare name [S] of
    the summation bound resolves to the object's own [S], [psi_agsne.pdf x]
    is [1 / norm] times the sum over [m = 1 .. S] of
    [m * (g * exp (- lambda1)) ^ m / (1 - g ^ m) ^ 2] with
    [g = exp (- (lambda2 + x * lambda3))]: the denominator has [g], not
    [g * exp (- lambda1)].  The state variables and parameters are those of
    a proper distribution: [S >= 1], [E > 1], [beta > 0], [lambda3 > 0]. *)
Theorem psi_agsne_pdf_formula (g s n : Z) (e l1 bt l3 zz x : R) :
  (1 <= s)%Z -> 1 < e -> 0 < bt -> 0 < l3 ->
  global_S = Some s ->
  1 <= x <= e ->
  exists d, __init__ (g, s, n, e) (l1, bt, l3, zz) = Ok d /\
    forall so r,
      pdf x (World d so r)
      = (Ok (1 / norm d
             * sum (map (fun m =>
                      IZR m * powerRZ (exp (- (lambda2 d + x * lambda3 d))
                                       * exp (- lambda1 d)) m
                      / (1 - powerRZ (exp (- (lambda2 d + x * lambda3 d))) m) ^ 2)
                    (arange 1 (S d + 1)))),
         World d so r).
Proof.
  intros Hs He Hbt Hl3 HS Hx.
  destruct (psi_agsne_init_ok g s n e l1 bt l3 zz Hs He Hbt Hl3) as [nm [Hnm Hinit]].
  eexists. split; [exact Hinit|]. intros so r.
  rewrite (psi_agsne_pdf_bound _ x s) by (cbn [a b lambda2 lambda3 norm]; try assumption; nra).
  cbn [norm lambda1 lambda2 lambda3 S exp_neg_lambda1].
  do 2 f_equal. field. lra.
Qed.

End psi_agsne_facts.

Lemma claimed_term_differs (g e1 : R) :
  0 < g < 1 -> 0 < e1 < 1 ->
  g * e1 / (1 - g * e1) ^ 2 < g * e1 / (1 - g) ^ 2.
Proof.
  intros Hg He. unfold Rdiv.
  assert (Hge : 0 < g * e1) by (apply Rmult_lt_0_compat; lra).
  assert (Hlt : 1 - g < 1 - g * e1) by nra.
  assert (Hp : 0 < 1 - g) by lra.
  apply Rmult_lt_compat_l; [exact Hge|].
  apply Rinv_lt_contravar.
  - apply Rmult_lt_0_compat; apply pow_lt; lra.
  - cbn [pow]. rewrite !Rmult_1_r. apply Rmult_le_0_lt_compat; lra.
Qed.

(** C2 fails as stated: where no global [S] is bound the call raises
    [NameError]; where [S] is bound to the object's [S] the value differs
    from the claimed sum, whose denominator is [(1 - q ^ m) ^ 2]. *)
Lemma psi_agsne_pdf_claim_fails :
  (exists d, psi_agsne.__init__ (1%Z, 1%Z, 1%Z, 2) (1, 2, 1, 0) = Ok d /\
     psi_agsne.pdf (H := stub None) 1 (World d [] half_rng)
     = (Raise NameError, World d [] half_rng))
  /\
  (exists d v, psi_agsne.__init__ (1%Z, 1%Z, 1%Z, 2) (1, 2, 1, 0) = Ok d /\
     psi_agsne.pdf (H := stub (Some 1%Z)) 1 (World d [] half_rng)
     = (Ok v, World d [] half_rng) /\
     v <> psi_agsne_pdf_claimed d 1).
Proof.
  destruct (psi_agsne_init_ok 1 1 1 2 1 2 1 0) as [nm [Hnm Hinit]]; try lra; try lia.
  split.
  - eexists. split; [exact Hinit|].
    apply (psi_agsne_pdf_unbound (H := stub None)); [reflexivity | cbn; lra].
  - do 2 eexists. split; [exact Hinit|]. split.
    + apply (psi_agsne_pdf_bound (H := stub (Some 1%Z)) _ 1 1);
        [reflexivity | cbn; lra | cbn; lra | cbn; lra].
    + unfold psi_agsne_pdf_claimed.
      cbn [psi_agsne.norm psi_agsne.lambda1 psi_agsne.lambda2 psi_agsne.lambda3
           psi_agsne.S psi_agsne.exp_neg_lambda1].
      change (arange 1 (1 + 1)) with [1%Z]. cbn [map].
      rewrite !sum_cons, !sum_nil.
      change (powerRZ ?y 1) with (y ^ 1). rewrite !pow_1.
      pose proof (exp_pos (- (2 - 1 + 1 * 1))) as Pg.
      pose proof (exp_pos (- (1))) as Pe.
      assert (Lg : exp (- (2 - 1 + 1 * 1)) < 1) by (apply exp_neg_lt_1; lra).
      assert (Le : exp (- (1)) < 1) by (apply exp_neg_lt_1; lra).
      revert Pg Pe Lg Le.
      generalize (exp (- (2 - 1 + 1 * 1))) (exp (- (1))). intros gx e1 Pg Pe Lg Le Heq.
      pose proof (claimed_term_differs gx e1 (conj Pg Lg) (conj Pe Le)) as Hlt.
      assert (Hd : 1 * (gx * e1) / (1 - gx) ^ 2 + 0
                   = nm * (1 / nm * (1 * (gx * e1) / (1 - gx * e1) ^ 2 + 0))).
      { rewrite <- Heq. field. split; lra. }
      assert (Hc : nm * (1 / nm * (1 * (gx * e1) / (1 - gx * e1) ^ 2 + 0))
                   = 1 * (gx * e1) / (1 - gx * e1) ^ 2 + 0).
      { field. split; [nra | lra]. }
      lra.
Qed.


Lemma psi_agsne_pdf_formula_witness :
  ((1 <= 2)%Z /\ 1 < 3 /\ 0 < 2 /\ 0 < 1
   /\ global_S (Collaborators := stub (Some 2%Z)) = Some 2%Z /\ 1 <= 2 <= 3)
  /\ exists d, psi_agsne.__init__ (1%Z, 2%Z, 5%Z, 3) (1, 2, 1, 0) = Ok d /\
       forall so r,
         psi_agsne.pdf (H := stub (Some 2%Z)) 2 (World d so r)
         = (Ok (1 / psi_agsne.norm d
                * sum (map (fun m =>
                         IZR m * powerRZ (exp (- (psi_agsne.lambda2 d + 2 * psi_agsne.lambda3 d))
                                          * exp (- psi_agsne.lambda1 d)) m
                         / (1 - powerRZ (exp (- (psi_agsne.lambda2 d
                                                 + 2 * psi_agsne.lambda3 d))) m) ^ 2)
                       (arange 1 (psi_agsne.S d + 1)))),
            World d so r).
Proof.
  assert (H1 : (1 <= 2)%Z) by lia.
  assert (H2 : 1 < 3) by lra.
  assert (H3 : 0 < 2) by lra.
  assert (H4 : 0 < 1) by lra.
  assert (H5 : 1 <= 2 <= 3) by lra.
  split; [repeat split; try assumption; lra|].
  exact (psi_agsne_pdf_formula (H := stub (Some 2%Z)) 1 2 5 3 1 2 1 0 2
           H1 H2 H3 H4 eq_refl H5).
Defined.
(** ** [sad_agsne]: mass function and its logarithm *)

Section sad_agsne_facts.
Import sad_agsne.

Lemma sad_denominator (l1 bt i : R) :
  0 < l1 + bt * i -> 0 < exp (- l1 - bt * i) < 1.
Proof.
  intros Hp. split; [apply exp_pos|].
  replace (- l1 - bt * i) with (- (l1 + bt * i)) by lra. now apply exp_neg_lt_1.
Qed.

Lemma sad_term_pos (l1 bt i : R) :
  0 < l1 + bt * i -> 1 <= i -> 0 < sad_term l1 bt i.
Proof.
  intros Hp Hi. destruct (sad_denominator l1 bt i Hp) as [H0 H1].
  unfold sad_term. repeat apply Rdiv_lt_0_compat; lra.
Qed.

Lemma sad_norm_pos (l1 bt : R) (n : Z) :
  (1 <= n)%Z -> sad_proper l1 bt n -> 0 < sad_norm l1 bt n.
Proof.
  intros Hn Hp. unfold sad_norm. apply sum_pos.
  - rewrite arange_cons by lia. discriminate.
  - apply Forall_forall. intros y Hy. apply in_map_iff in Hy.
    destruct Hy as [i [<- Hi]]. apply in_arange in Hi.
    apply sad_term_pos; [apply Hp; lia | apply IZR_le; lia].
Qed.

Lemma sad_init_ok (g s n : Z) (e l1 bt l3 zz : R) :
  sad_proper l1 bt n ->
  __init__ (g, s, n, e) (l1, bt, l3, zz)
  = Ok (New g s n e 1 n l1 bt l3 zz (sad_norm l1 bt n)).
Proof.
  intros Hp. unfold __init__.
  rewrite (mapM_res_ok _ (fun i => sad_term l1 bt (IZR i))).
  - reflexivity.
  - intros i Hi. apply in_arange in Hi.
    assert (Hi1 : 1 <= IZR i) by (apply IZR_le; lia).
    destruct (sad_denominator l1 bt (IZR i)) as [H0 H1]; [apply Hp; lia|].
    rewrite np_div_ok by lra. cbn.
    rewrite np_div_ok by lra. reflexivity.
Qed.

Lemma sad_pmf_int (d : t) (i : Z) (so : list string) (r : nat -> R) :
  a d = 1%Z -> (1 <= i <= b d)%Z -> 0 < lambda1 d + beta d * IZR i -> norm d <> 0 ->
  pmf (PyInt i) (World d so r)
  = (Ok (sad_term (lambda1 d) (beta d) (IZR i) / norm d), World d so r).
Proof.
  intros Ha Hi Hp Hn. unfold pmf. cbn. rewrite Ha.
  rewrite between_true by (split; apply IZR_le; lia). cbn.
  assert (Hi1 : 1 <= IZR i) by (apply IZR_le; lia).
  destruct (sad_denominator _ _ _ Hp) as [H0 H1].
  rewrite np_div_ok by lra. cbn.
  rewrite np_div_ok by lra. cbn.
  rewrite np_div_ok by exact Hn. reflexivity.
Qed.

(** An instance of [int] has an integer value, and the two methods see
    nothing else of it. *)
Lemma instance_int_value (x : pynum) :
  isinstance_int x = true -> exists i : Z, num x = IZR i.
Proof.
  destruct x as [[|] | i | i | v | i | i | v]; try discriminate; intros _; cbn [num];
    eauto.
Qed.

Lemma sad_pmf_instance (x : pynum) (i : Z) (w : world t) :
  isinstance_int x = true -> num x = IZR i -> pmf x w = pmf (PyInt i) w.
Proof.
  intros Hi Hn. unfold pmf. cbn [bind M_monad this]. cbn [num isinstance_int].
  rewrite Hi, Hn. reflexivity.
Qed.

Lemma sad_logpmf_instance (x : pynum) (i : Z) (w : world t) :
  isinstance_int x = true -> num x = IZR i -> logpmf x w = logpmf (PyInt i) w.
Proof.
  intros Hi Hn. unfold logpmf. cbn [bind M_monad this]. cbn [num isinstance_int].
  rewrite Hi, Hn. reflexivity.
Qed.

Lemma sad_pmf_off_support (x : pynum) (w : world t) :
  between (IZR (a (obj w))) (num x) (IZR (b (obj w))) && isinstance_int x = false ->
  pmf x w = (Ok 0, w).
Proof. intros Hg. unfold pmf. cbn. now rewrite Hg. Qed.

Lemma sad_logpmf_off_support (x : pynum) (w : world t) :
  between (IZR (a (obj w))) (num x) (IZR (b (obj w))) && isinstance_int x = false ->
  logpmf x w = (Ok None, World (obj w) (stdout w ++ [log0_message]) (rng w)).
Proof. intros Hg. unfold logpmf. cbn. now rewrite Hg. Qed.

Lemma ln_quot (x y : R) : 0 < x -> 0 < y -> ln (x / y) = ln x - ln y.
Proof.
  intros Hx Hy. unfold Rdiv. rewrite ln_mult, ln_Rinv; try assumption.
  - lra.
  - now apply Rinv_0_lt_compat.
Qed.

Lemma sad_logpmf_int (d : t) (i : Z) (so : list string) (r : nat -> R) :
  a d = 1%Z -> (1 <= i <= b d)%Z -> 0 < lambda1 d + beta d * IZR i -> 0 < norm d ->
  logpmf (PyInt i) (World d so r)
  = (Ok (Some (ln (sad_term (lambda1 d) (beta d) (IZR i) / norm d))), World d so r).
Proof.
  intros Ha Hi Hp Hn. unfold logpmf. cbn. rewrite Ha.
  rewrite between_true by (split; apply IZR_le; lia). cbn.
  assert (Hi1 : 1 <= IZR i) by (apply IZR_le; lia).
  destruct (sad_denominator _ _ _ Hp) as [H0 H1].
  rewrite np_log_ok by lra. cbn.
  rewrite np_log_ok by lra. cbn.
  rewrite np_log_ok by lra. cbn.
  do 3 f_equal. unfold sad_term.
  rewrite !ln_quot; try lra.
  - rewrite ln_exp. lra.
  - apply Rdiv_lt_0_compat; lra.
  - repeat apply Rdiv_lt_0_compat; lra.
Qed.

Lemma between_spec (lo x hi : R) : between lo x hi = true <-> lo <= x <= hi.
Proof.
  unfold between, Rleb.
  destruct (Rle_dec lo x), (Rle_dec x hi); cbn; split; intros; try lra; try discriminate;
    reflexivity.
Qed.

(** C8, as the code has it: [sad_agsne.logpmf x] raises nothing; it prints
    the message and returns [None] exactly when [x] is outside [[1, N]] or
    is not an instance of [int], and for an int [x] in [[1, N]] it returns
    the logarithm of [pmf x].  The parameters are those of a proper
    distribution: [N >= 1] and every term of the normalization positive. *)
Theorem sad_agsne_logpmf_spec (g s n : Z) (e l1 bt l3 zz : R) :
  (1 <= n)%Z -> sad_proper l1 bt n ->
  exists d, __init__ (g, s, n, e) (l1, bt, l3, zz) = Ok d /\
    forall (so : list string) (r : nat -> R) (x : pynum),
      (forall ex, fst (logpmf x (World d so r)) <> Raise ex) /\
      (logpmf x (World d so r) = (Ok None, World d (so ++ [log0_message]) r)
       <-> ~ (1 <= num x <= IZR n) \/ isinstance_int x = false) /\
      (forall i, x = PyInt i -> (1 <= i <= n)%Z ->
         exists p, pmf x (World d so r) = (Ok p, World d so r) /\ 0 < p /\
                   logpmf x (World d so r) = (Ok (Some (ln p)), World d so r)).
Proof.
  intros Hn Hp. eexists. split; [apply sad_init_ok; exact Hp|].
  intros so r x.
  pose proof (sad_norm_pos l1 bt n Hn Hp) as Hnorm.
  set (d := New g s n e 1 n l1 bt l3 zz (sad_norm l1 bt n)).
  assert (Hon : forall i, (1 <= i <= n)%Z ->
            logpmf (PyInt i) (World d so r)
            = (Ok (Some (ln (sad_term l1 bt (IZR i) / sad_norm l1 bt n))), World d so r)).
  { intros i Hi. apply (sad_logpmf_int d); cbn; auto. }
  destruct (between (IZR 1) (num x) (IZR n) && isinstance_int x) eqn:Hg.
  - apply andb_prop in Hg. destruct Hg as [Hb Hi0]. apply between_spec in Hb.
    destruct (instance_int_value x Hi0) as [i Hnum]. rewrite Hnum in Hb.
    assert (Hi : (1 <= i <= n)%Z) by (split; apply le_IZR; lra).
    assert (Hx : logpmf x (World d so r) = logpmf (PyInt i) (World d so r))
      by now apply sad_logpmf_instance.
    split; [|split].
    + intros ex. rewrite Hx, Hon by exact Hi. discriminate.
    + rewrite Hx, Hon by exact Hi. split; [discriminate|].
      intros [Hout | Hty]; [rewrite Hnum in Hout; lra | congruence].
    + intros j Hj Hjn. subst x. cbn [num] in Hnum. apply eq_IZR in Hnum. subst j.
      eexists. split; [|split].
      * apply (sad_pmf_int d); cbn; auto. lra.
      * unfold d. cbn [norm lambda1 beta].
        apply Rdiv_lt_0_compat; [|lra]. apply sad_term_pos; [auto | apply IZR_le; lia].
      * now apply Hon.
  - assert (Hoff : logpmf x (World d so r) = (Ok None, World d (so ++ [log0_message]) r)).
    { now apply sad_logpmf_off_support. }
    split; [|split].
    + intros ex. rewrite Hoff. discriminate.
    + split; [|intros _; exact Hoff]. intros _.
      apply andb_false_iff in Hg. destruct Hg as [Hb | Hi0]; [left | now right].
      intros Hin. apply between_spec in Hin. congruence.
    + intros j -> Hj. exfalso. cbn in Hg. rewrite andb_true_r in Hg.
      rewrite between_true in Hg by (split; apply IZR_le; lia). discriminate.
Qed.

End sad_agsne_facts.

Lemma sad_proper_1_1 (n : Z) : sad_proper 1 1 n.
Proof. intros i Hi. assert (1 <= IZR i) by (apply IZR_le; lia). lra. Qed.

Lemma sad_agsne_logpmf_spec_witness :
  ((1 <= 3)%Z /\ sad_proper 1 1 3)
  /\ exists d, sad_agsne.__init__ (1%Z, 2%Z, 3%Z, 10) (1, 1, 1, 0) = Ok d /\
       forall (so : list string) (r : nat -> R) (x : pynum),
         (forall ex, fst (sad_agsne.logpmf x (World d so r)) <> Raise ex) /\
         (sad_agsne.logpmf x (World d so r)
          = (Ok None, World d (so ++ [log0_message]) r)
          <-> ~ (1 <= num x <= IZR 3) \/ isinstance_int x = false) /\
         (forall i, x = PyInt i -> (1 <= i <= 3)%Z ->
            exists p, sad_agsne.pmf x (World d so r) = (Ok p, World d so r) /\ 0 < p /\
                      sad_agsne.logpmf x (World d so r)
                      = (Ok (Some (ln p)), World d so r)).
Proof.
  assert (H1 : (1 <= 3)%Z) by lia.
  split; [split; [exact H1 | apply sad_proper_1_1]|].
  exact (sad_agsne_logpmf_spec 1 2 3 10 1 1 1 0 H1 (sad_proper_1_1 3)).
Defined.

(** C8 fails as stated: at [x = 0], outside the support, the call does not
    end in an error; it returns [None] after printing the message. *)
Lemma sad_agsne_logpmf_returns_None :
  exists d, sad_agsne.__init__ (1%Z, 2%Z, 3%Z, 10) (1, 1, 1, 0) = Ok d /\
    sad_agsne.logpmf (PyInt 0) (World d [] half_rng)
    = (Ok None, World d [log0_message] half_rng) /\
    ~ (exists ex, fst (sad_agsne.logpmf (PyInt 0) (World d [] half_rng)) = Raise ex).
Proof.
  eexists. split; [apply sad_init_ok; apply sad_proper_1_1|].
  assert (Hoff : sad_agsne.logpmf (PyInt 0)
                   (World (sad_agsne.New 1 2 3 10 1 3 1 1 1 0 (sad_norm 1 1 3)) [] half_rng)
                 = (Ok None,
                    World (sad_agsne.New 1 2 3 10 1 3 1 1 1 0 (sad_norm 1 1 3))
                          [log0_message] half_rng)).
  { apply sad_logpmf_off_support. cbn [obj sad_agsne.a sad_agsne.b num].
    unfold between. rewrite (Rleb_false 1 0) by lra. reflexivity. }
  split; [exact Hoff|]. intros [ex Hex]. rewrite Hoff in Hex. discriminate.
Qed.

(** ** The integer test is on the class of the argument *)

Lemma gamma_pmf_off_support (x : pynum) (w : world gamma_agsne.t) :
  between (IZR (gamma_agsne.a (obj w))) (num x) (IZR (gamma_agsne.b (obj w)))
  && isinstance_int x = false ->
  gamma_agsne.pmf x w = (Ok 0, w).
Proof. intros Hg. unfold gamma_agsne.pmf. cbn. now rewrite Hg. Qed.

Lemma gamma_pmf_instance (x : pynum) (i : Z) (w : world gamma_agsne.t) :
  isinstance_int x = true -> num x = IZR i ->
  gamma_agsne.pmf x w = gamma_agsne.pmf (PyInt i) w.
Proof.
  intros Hi Hn. unfold gamma_agsne.pmf. cbn [bind M_monad this].
  cbn [num isinstance_int]. rewrite Hi, Hn. reflexivity.
Qed.

(** What the two classes return for an instance of [int] with a value on
    the support. *)
Lemma instance_int_on_support (g s n : Z) (e l1 bt l3 zz : R) (x : pynum)
    (so : list string) (r : nat -> R) :
  0 < bt -> (1 <= s)%Z -> (1 <= n)%Z -> sad_proper l1 bt n ->
  isinstance_int x = true ->
  (1 <= num x <= IZR s ->
     exists p,
       gamma_agsne.pmf x
         (World (gamma_agsne.New g s n e 1 s l1 bt l3 zz (gamma_norm l1 bt s)) so r)
       = (Ok p, World (gamma_agsne.New g s n e 1 s l1 bt l3 zz (gamma_norm l1 bt s)) so r)
       /\ 0 < p)
  /\ (1 <= num x <= IZR n ->
        exists p,
          sad_agsne.pmf x
            (World (sad_agsne.New g s n e 1 n l1 bt l3 zz (sad_norm l1 bt n)) so r)
          = (Ok p, World (sad_agsne.New g s n e 1 n l1 bt l3 zz (sad_norm l1 bt n)) so r)
          /\ 0 < p
          /\ sad_agsne.logpmf x
               (World (sad_agsne.New g s n e 1 n l1 bt l3 zz (sad_norm l1 bt n)) so r)
             = (Ok (Some (ln p)),
                World (sad_agsne.New g s n e 1 n l1 bt l3 zz (sad_norm l1 bt n)) so r)).
Proof.
  intros Hbt Hs Hn Hp Hx.
  destruct (instance_int_value x Hx) as [i Hnum].
  pose proof (gamma_norm_pos l1 bt s Hbt Hs) as Hgn.
  pose proof (sad_norm_pos l1 bt n Hn Hp) as Hsn.
  split; intros Hin; rewrite Hnum in Hin.
  - assert (Hi : (1 <= i <= s)%Z) by (split; apply le_IZR; lra).
    eexists. split.
    + rewrite (gamma_pmf_instance x i) by assumption.
      apply gamma_pmf_int; cbn [gamma_agsne.beta gamma_agsne.norm gamma_agsne.a
                               gamma_agsne.b]; first [lra | lia].
    + cbn [gamma_agsne.lambda1 gamma_agsne.beta gamma_agsne.norm].
      repeat apply Rdiv_lt_0_compat; try lra.
      apply gamma_weight_pos; lra.
  - assert (Hi : (1 <= i <= n)%Z) by (split; apply le_IZR; lra).
    assert (Hterm : 0 < sad_term l1 bt (IZR i)).
    { apply sad_term_pos; [apply Hp; exact Hi | lra]. }
    eexists. split; [|split].
    + rewrite (sad_pmf_instance x i) by assumption.
      apply sad_pmf_int; cbn [sad_agsne.a sad_agsne.b sad_agsne.lambda1 sad_agsne.beta
                             sad_agsne.norm]; try reflexivity; try lia; try lra.
      apply Hp. exact Hi.
    + cbn [sad_agsne.lambda1 sad_agsne.beta sad_agsne.norm].
      apply Rdiv_lt_0_compat; lra.
    + rewrite (sad_logpmf_instance x i) by assumption.
      apply sad_logpmf_int; cbn [sad_agsne.a sad_agsne.b sad_agsne.lambda1 sad_agsne.beta
                                sad_agsne.norm]; try reflexivity; try lia; try lra.
      apply Hp. exact Hi.
Qed.

(** C10, as the code has it: the integer test of [gamma_agsne.pmf],
    [sad_agsne.pmf] and [sad_agsne.logpmf] is [isinstance(x, int)], a test
    on the class of the argument and its ancestors.  An argument that is
    not an instance of [int] (a float such as [3.0], a [long], a numpy
    float, a numpy integer whose class does not derive from [int]) is off
    the support whatever its value: the mass is 0 and [logpmf] prints the
    message and returns [None].  An instance of [int], be it of type [int]
    or of a class derived from it ([bool], [numpy.int_]), with a value on
    the support gets the positive mass of that value, and [logpmf] returns
    its logarithm. *)
Theorem non_int_argument_off_support (g s n : Z) (e l1 bt l3 zz : R) :
  0 < bt -> (1 <= s)%Z -> (1 <= n)%Z -> sad_proper l1 bt n ->
  exists dg ds,
    gamma_agsne.__init__ (g, s, n, e) (l1, bt, l3, zz) = Ok dg /\
    sad_agsne.__init__ (g, s, n, e) (l1, bt, l3, zz) = Ok ds /\
    forall (x : pynum) (so : list string) (r : nat -> R),
      (isinstance_int x = false ->
         gamma_agsne.pmf x (World dg so r) = (Ok 0, World dg so r)
         /\ sad_agsne.pmf x (World ds so r) = (Ok 0, World ds so r)
         /\ sad_agsne.logpmf x (World ds so r)
            = (Ok None, World ds (so ++ [log0_message]) r))
      /\ (isinstance_int x = true ->
            (1 <= num x <= IZR s ->
               exists p, gamma_agsne.pmf x (World dg so r) = (Ok p, World dg so r)
                         /\ 0 < p)
            /\ (1 <= num x <= IZR n ->
                  exists p, sad_agsne.pmf x (World ds so r) = (Ok p, World ds so r)
                            /\ 0 < p
                            /\ sad_agsne.logpmf x (World ds so r)
                               = (Ok (Some (ln p)), World ds so r))).
Proof.
  intros Hbt Hs Hn Hp. do 2 eexists.
  split; [now apply gamma_init_ok|]. split; [now apply sad_init_ok|].
  intros x so r. split.
  - intros Hx. split; [|split].
    + apply gamma_pmf_off_support. rewrite Hx. apply andb_false_r.
    + apply sad_pmf_off_support. rewrite Hx. apply andb_false_r.
    + apply sad_logpmf_off_support. rewrite Hx. apply andb_false_r.
  - intros Hx. now apply instance_int_on_support.
Qed.

Lemma non_int_argument_off_support_witness :
  (0 < 1 /\ (1 <= 5)%Z /\ (1 <= 10)%Z /\ sad_proper 1 1 10)
  /\ exists dg ds,
       gamma_agsne.__init__ (1%Z, 5%Z, 10%Z, 100) (1, 1, 1, 0) = Ok dg /\
       sad_agsne.__init__ (1%Z, 5%Z, 10%Z, 100) (1, 1, 1, 0) = Ok ds /\
       forall (x : pynum) (so : list string) (r : nat -> R),
         (isinstance_int x = false ->
            gamma_agsne.pmf x (World dg so r) = (Ok 0, World dg so r)
            /\ sad_agsne.pmf x (World ds so r) = (Ok 0, World ds so r)
            /\ sad_agsne.logpmf x (World ds so r)
               = (Ok None, World ds (so ++ [log0_message]) r))
         /\ (isinstance_int x = true ->
               (1 <= num x <= IZR 5 ->
                  exists p, gamma_agsne.pmf x (World dg so r) = (Ok p, World dg so r)
                            /\ 0 < p)
               /\ (1 <= num x <= IZR 10 ->
                     exists p, sad_agsne.pmf x (World ds so r) = (Ok p, World ds so r)
                               /\ 0 < p
                               /\ sad_agsne.logpmf x (World ds so r)
                                  = (Ok (Some (ln p)), World ds so r))).
Proof.
  assert (H1 : 0 < 1) by lra.
  assert (H2 : (1 <= 5)%Z) by lia.
  assert (H3 : (1 <= 10)%Z) by lia.
  split; [repeat split; try assumption; apply sad_proper_1_1|].
  exact (non_int_argument_off_support 1 5 10 100 1 1 1 0 H1 H2 H3 (sad_proper_1_1 10)).
Defined.

(** C10 fails as stated: [numpy.int_(3)] is a numpy integer scalar, its
    type is not [int], and its value lies on both supports; yet it is an
    instance of [int], so both mass functions return a mass that is not 0
    and [logpmf] returns a number, not [None]. *)
Lemma numpy_int_scalar_has_mass :
  type_is_int (NpIntp 3) = false /\
  exists dg ds,
    gamma_agsne.__init__ (1%Z, 5%Z, 10%Z, 100) (1, 1, 1, 0) = Ok dg /\
    sad_agsne.__init__ (1%Z, 5%Z, 10%Z, 100) (1, 1, 1, 0) = Ok ds /\
    (1 <= num (NpIntp 3) <= IZR 5) /\
    (exists p, gamma_agsne.pmf (NpIntp 3) (World dg [] half_rng)
               = (Ok p, World dg [] half_rng) /\ p <> 0) /\
    (exists p, sad_agsne.pmf (NpIntp 3) (World ds [] half_rng)
               = (Ok p, World ds [] half_rng) /\ p <> 0) /\
    (exists v, sad_agsne.logpmf (NpIntp 3) (World ds [] half_rng)
               = (Ok (Some v), World ds [] half_rng)).
Proof.
  split; [reflexivity|]. do 2 eexists.
  split; [apply gamma_init_ok; lra|]. split; [apply sad_init_ok; apply sad_proper_1_1|].
  assert (Hin5 : 1 <= num (NpIntp 3) <= IZR 5) by (cbn [num]; lra).
  assert (Hin10 : 1 <= num (NpIntp 3) <= IZR 10) by (cbn [num]; lra).
  destruct (instance_int_on_support 1 5 10 100 1 1 1 0 (NpIntp 3) [] half_rng
              ltac:(lra) ltac:(lia) ltac:(lia) (sad_proper_1_1 10) eq_refl)
    as [Hg Hs].
  destruct (Hg Hin5) as [p [Hp Hpos]]. destruct (Hs Hin10) as [p' [Hp' [Hpos' Hl]]].
  split; [exact Hin5|]. split; [|split].
  - exists p. split; [exact Hp | lra].
  - exists p'. split; [exact Hp' | lra].
  - exists (ln p'). exact Hl.
Qed.

(** ** [sad_agsne.rvs]: the sweep over the sorted draws *)

Section sad_agsne_rvs.
Import sad_agsne.

















End sad_agsne_rvs.

(** ** [theta_agsne]: the closed-form mean *)

Section theta_agsne_facts.
Import theta_agsne.

Lemma truncated_exponential_primitive (k u x : R) :
  k <> 0 ->
  derivable_pt_lim (fun x => u / k * ((x - / k) * exp (k * x))) x (x * (u * exp (k * x))).
Proof.
  intros Hk.
  assert (H1 : derivable_pt_lim (id - fct_cte (/ k))%F x (1 - 0)).
  { apply derivable_pt_lim_minus; [apply derivable_pt_lim_id | apply derivable_pt_lim_const]. }
  assert (H2 : derivable_pt_lim (comp exp (mult_real_fct k id)) x (exp (k * x) * (k * 1))).
  { apply derivable_pt_lim_comp.
    - apply derivable_pt_lim_scal. apply derivable_pt_lim_id.
    - apply derivable_pt_lim_exp. }
  pose proof (derivable_pt_lim_mult _ _ _ _ _ H1 H2) as H3.
  pose proof (derivable_pt_lim_scal _ (u / k) _ _ H3) as H4.
  unfold mult_real_fct, mult_fct, minus_fct, comp, id, fct_cte in H4.
  replace (x * (u * exp (k * x)))
    with (u / k * ((1 - 0) * exp (k * x) + (x - / k) * (exp (k * x) * (k * 1))))
    by (field; exact Hk).
  exact H4.
Qed.

Lemma truncated_exponential_moment (k u lo hi : R)
    (pr : Riemann_integrable (fun x => x * (u * exp (k * x))) lo hi) :
  k <> 0 -> lo <= hi ->
  RiemannInt pr
  = u / k * ((hi - / k) * exp (k * hi)) - u / k * ((lo - / k) * exp (k * lo)).
Proof.
  intros Hk Hle.
  pose (F := fun x => u / k * ((x - / k) * exp (k * x))).
  pose (dF := fun x => exist (fun l => derivable_pt_lim F x l) _
                         (truncated_exponential_primitive k u x Hk)).
  assert (cF : continuity (derive F dF)).
  { change (continuity (fun x => x * (u * exp (k * x)))). reg. }
  pose (F1 := mkC1 cF).
  assert (pr' : Riemann_integrable (derive F1 (diff0 F1)) lo hi) by apply RiemannInt_P32.
  change (RiemannInt pr = F1 hi - F1 lo).
  rewrite <- (FTC_Riemann F1 pr').
  apply RiemannInt_P18; [exact Hle|]. intros x _. reflexivity.
Qed.

Lemma theta_agsne_pdf_value (d : t) (x : R) (m n : Z) (so : list string) (r : nat -> R) :
  exp (- lambda3 d * IZR m * IZR n) - exp (- lambda3 d * IZR m * IZR n * E d) <> 0 ->
  pdf x m n (World d so r)
  = (Ok (if between (a d) x (b d)
         then lambda3 d * IZR m * IZR n
              / (exp (- lambda3 d * IZR m * IZR n)
                 - exp (- lambda3 d * IZR m * IZR n * E d))
              * exp (- lambda3 d * IZR m * IZR n * x)
         else 0),
     World d so r).
Proof.
  intros HD. unfold pdf. cbn. destruct (between (a d) x (b d)); [|reflexivity].
  rewrite float_div_ok by exact HD. reflexivity.
Qed.

(** C7: for [lambda3 * m * n > 0], on a support [[1, E]] with [E > 1],
    [theta_agsne.expected m n] is the first moment of the density: the
    integral over [[1, E]] of [x * pdf x m n]. *)
Theorem theta_agsne_expected_first_moment (g s n0 : Z) (e l1 bt l3 zz : R) (m n : Z) :
  1 < e -> 0 < l3 * IZR m * IZR n ->
  exists d, __init__ (g, s, n0, e) (l1, bt, l3, zz) = Ok d /\
    (forall x so r, pdf x m n (World d so r)
                    = (Ok (value (pdf x m n) d), World d so r)) /\
    exists mu,
      (forall so r, expected m n (World d so r) = (Ok mu, World d so r)) /\
      inhabited (Riemann_integrable (fun x => x * value (pdf x m n) d) 1 e) /\
      forall pr : Riemann_integrable (fun x => x * value (pdf x m n) d) 1 e,
        RiemannInt pr = mu.
Proof.
  intros He Hr. eexists. split; [reflexivity|].
  set (d := New g s n0 e 1 e l1 bt l3 zz).
  set (k := - l3 * IZR m * IZR n).
  assert (Hk : k < 0) by (unfold k; lra).
  assert (HD : 0 < exp k - exp (k * e)).
  { apply Rlt_0_minus. apply exp_increasing. nra. }
  set (u := l3 * IZR m * IZR n / (exp k - exp (k * e))).
  assert (Hval : forall x, value (pdf x m n) d
                           = if between 1 x e then u * exp (k * x) else 0).
  { intros x. unfold value. rewrite theta_agsne_pdf_value by (cbn; fold k; lra).
    reflexivity. }
  split.
  { intros x so r. rewrite Hval.
    rewrite theta_agsne_pdf_value by (cbn; fold k; lra). reflexivity. }
  exists ((exp k * (l3 * IZR m * IZR n + 1) - exp (k * e) * (l3 * IZR m * IZR n * e + 1))
          / (l3 * IZR m * IZR n * (exp k - exp (k * e)))).
  split.
  { intros so r. unfold expected. cbn. fold k.
    rewrite float_div_ok by (apply Rgt_not_eq; apply Rmult_lt_0_compat; lra).
    reflexivity. }
  assert (pg : Riemann_integrable (fun x => x * (u * exp (k * x))) 1 e).
  { apply continuity_implies_RiemannInt; [lra|]. intros x _.
    assert (Hc : continuity (fun x => x * (u * exp (k * x)))) by reg. apply Hc. }
  assert (Hagree : forall x, 1 <= x <= e ->
            x * (u * exp (k * x)) = x * value (pdf x m n) d).
  { intros x Hx. rewrite Hval, between_true by exact Hx. reflexivity. }
  split.
  { constructor. apply (Riemann_integrable_ext (f := fun x => x * (u * exp (k * x)))); [|exact pg].
    intros x Hx. rewrite Rmin_left, Rmax_right in Hx by lra. now apply Hagree. }
  intros pr.
  rewrite (RiemannInt_P18 pr pg) by (try lra; intros x Hx; symmetry; apply Hagree; lra).
  rewrite truncated_exponential_moment by lra.
  rewrite (Rmult_1_r k). unfold u. replace (l3 * IZR m * IZR n) with (- k) by (unfold k; ring).
  field. lra.
Qed.

End theta_agsne_facts.

Lemma theta_agsne_expected_first_moment_witness :
  (1 < 2 /\ 0 < 1 * IZR 2 * IZR 3)
  /\ exists d, theta_agsne.__init__ (1%Z, 2%Z, 3%Z, 2) (1, 1, 1, 0) = Ok d /\
       (forall x so r, theta_agsne.pdf x 2 3 (World d so r)
                       = (Ok (value (theta_agsne.pdf x 2 3) d), World d so r)) /\
       exists mu,
         (forall so r, theta_agsne.expected 2 3 (World d so r) = (Ok mu, World d so r)) /\
         inhabited (Riemann_integrable (fun x => x * value (theta_agsne.pdf x 2 3) d) 1 2) /\
         forall pr : Riemann_integrable (fun x => x * value (theta_agsne.pdf x 2 3) d) 1 2,
           RiemannInt pr = mu.
Proof.
  assert (H1 : 1 < 2) by lra.
  assert (H2 : 0 < 1 * IZR 2 * IZR 3) by lra.
  split; [split; assumption|].
  exact (theta_agsne_expected_first_moment 1 2 3 2 1 1 1 0 2 3 H1 H2).
Defined.
(** ** No method writes to its object *)

Section frame.
Context {O : Type}.

Lemma readonly_ret {A : Type} (a : A) : readonly (O := O) (ret a).
Proof. intros w. reflexivity. Qed.

Lemma readonly_stop {A : Type} (r : res A) : readonly (O := O) (stop r).
Proof. intros w. reflexivity. Qed.

Lemma readonly_raise {A : Type} (e : exn) : readonly (O := O) (A := A) (raise e).
Proof. intros w. reflexivity. Qed.

Lemma readonly_undef {A : Type} (g : gap) : readonly (O := O) (A := A) (undef g).
Proof. intros w. reflexivity. Qed.

Lemma readonly_this : readonly (O := O) this.
Proof. intros w. reflexivity. Qed.

Lemma readonly_print (s : string) : readonly (O := O) (print s).
Proof. intros w. reflexivity. Qed.

Lemma readonly_draw : readonly (O := O) draw.
Proof. intros w. reflexivity. Qed.

Lemma readonly_uniform_rvs (size : nat) : readonly (O := O) (uniform_rvs size).
Proof. intros w. reflexivity. Qed.

Lemma readonly_bind {A B : Type} (c : M O A) (k : A -> M O B) :
  readonly c -> (forall a, readonly (k a)) -> readonly (bind c k).
Proof.
  intros Hc Hk w. cbn. specialize (Hc w).
  destruct (c w) as [[a | e | g] w']; cbn in *; try assumption.
  now rewrite Hk.
Qed.

Lemma readonly_mapM {A B : Type} (f : A -> M O B) (l : list A) :
  (forall a, readonly (f a)) -> readonly (mapM f l).
Proof.
  intros Hf. induction l as [|a l IH]; cbn [mapM].
  - apply readonly_ret.
  - apply readonly_bind; [apply Hf|]. intros b.
    apply readonly_bind; [exact IH|]. intros bs. apply readonly_ret.
Qed.

Lemma readonly_float_div (x y : R) : readonly (O := O) (float_div x y).
Proof. unfold float_div. destruct (Reqb y 0); intros w; reflexivity. Qed.

Lemma readonly_float_pow (x : R) (n : Z) : readonly (O := O) (float_pow x n).
Proof. unfold float_pow. destruct (Reqb x 0 && (n <? 0)%Z); intros w; reflexivity. Qed.

Lemma readonly_log (x : R) : readonly (O := O) (log x).
Proof. unfold log. destruct (Rltb 0 x); intros w; reflexivity. Qed.

Lemma readonly_np_div (x y : R) : readonly (O := O) (np_div x y).
Proof. unfold np_div. destruct (Reqb y 0); intros w; reflexivity. Qed.

Lemma readonly_np_pow (x : R) (n : Z) : readonly (O := O) (np_pow x n).
Proof. unfold np_pow. destruct (Reqb x 0 && (n <? 0)%Z); intros w; reflexivity. Qed.

Lemma readonly_np_log (x : R) : readonly (O := O) (np_log x).
Proof. unfold np_log. destruct (Rltb 0 x); intros w; reflexivity. Qed.

End frame.

Create HintDb readonly.

#[local] Hint Resolve readonly_ret readonly_stop readonly_raise readonly_undef
  readonly_this readonly_print readonly_draw readonly_uniform_rvs
  readonly_float_div readonly_float_pow readonly_log
  readonly_np_div readonly_np_pow readonly_np_log : readonly.

Section frame_library.
Context {O : Type} `{Collaborators}.

Lemma readonly_bisect_loop (f : R -> M O R) (iter : nat) (xa fa dm tol : R) :
  (forall t, readonly (f t)) -> readonly (bisect_loop iter f xa fa dm tol).
Proof.
  intros Hf. revert xa dm. induction iter as [|iter IH]; intros xa dm; cbn [bisect_loop].
  - apply readonly_raise.
  - apply readonly_bind; [apply Hf|]. intros fm.
    destruct (Reqb fm 0 || Rltb (Rabs (dm * / 2)) (tol + bisect_rtol * Rabs (xa + dm * / 2))).
    + apply readonly_ret.
    + apply IH.
Qed.

Lemma readonly_bisect (f : R -> M O R) (xa xb tol : R) :
  (forall t, readonly (f t)) -> readonly (bisect f xa xb tol).
Proof.
  intros Hf. unfold bisect.
  apply readonly_bind; [apply Hf|]. intros fa.
  apply readonly_bind; [apply Hf|]. intros fb.
  destruct (Rltb 0 (fa * fb)); [apply readonly_raise|].
  destruct (Reqb fa 0); [apply readonly_ret|].
  destruct (Reqb fb 0); [apply readonly_ret|].
  now apply readonly_bisect_loop.
Qed.

Lemma readonly_quad (f : R -> M O R) (lo hi : R) :
  (forall t, readonly (f t)) -> readonly (quad f lo hi).
Proof.
  intros Hf. unfold quad.
  apply readonly_bind; [|intros ys; apply readonly_ret].
  apply readonly_mapM. intros xw.
  apply readonly_bind; [apply Hf | intros y; apply readonly_ret].
Qed.

Lemma readonly_trunc_expon_rvs (lmd lower_bound : R) :
  readonly (O := O) (trunc_expon_rvs lmd lower_bound).
Proof.
  unfold trunc_expon_rvs.
  apply readonly_bind; [apply readonly_draw | intros u; apply readonly_ret].
Qed.

End frame_library.

#[local] Hint Resolve readonly_trunc_expon_rvs : readonly.

(** One step of a frame proof: split a sequence, a loop over a list, a
    branch or a library call; close a primitive. *)
Ltac frame_step :=
  first
    [ solve [auto with readonly]
    | simple apply readonly_bisect
    | simple apply readonly_quad
    | simple apply readonly_mapM
    | simple apply readonly_bind
    | match goal with
      | |- readonly (if ?c then _ else _) => destruct c
      | |- readonly (match ?x with _ => _ end) => destruct x
      end ].

Ltac frame := cbv zeta; repeat (intros; frame_step).

Section frame_methods.
Context `{Collaborators}.

Lemma trunc_logser_pmf_readonly x p upper_bound :
  readonly (trunc_logser_gen._pmf x p upper_bound).
Proof. unfold trunc_logser_gen._pmf. frame. Qed.

Lemma psi_epsilon_pdf_readonly x : readonly (psi_epsilon.pdf x).
Proof. unfold psi_epsilon.pdf. frame. Qed.

Lemma psi_epsilon_cdf_readonly x : readonly (psi_epsilon.cdf x).
Proof. unfold psi_epsilon.cdf. frame. Qed.

Lemma psi_epsilon_ppf_readonly q : readonly (psi_epsilon.ppf q).
Proof.
  pose proof psi_epsilon_cdf_readonly. unfold psi_epsilon.ppf. frame.
Qed.

Lemma psi_epsilon_rvs_readonly size : readonly (psi_epsilon.rvs size).
Proof. pose proof psi_epsilon_ppf_readonly. unfold psi_epsilon.rvs. frame. Qed.

Lemma psi_epsilon_E_readonly : readonly psi_epsilon.E.
Proof.
  pose proof psi_epsilon_pdf_readonly. unfold psi_epsilon.E. frame.
Qed.

Lemma psi_epsilon_approx_pdf_readonly x : readonly (psi_epsilon_approx.pdf x).
Proof. unfold psi_epsilon_approx.pdf. frame. Qed.

Lemma psi_epsilon_approx_cdf_readonly x : readonly (psi_epsilon_approx.cdf x).
Proof. unfold psi_epsilon_approx.cdf. frame. Qed.

Lemma psi_epsilon_approx_ppf_readonly q : readonly (psi_epsilon_approx.ppf q).
Proof. unfold psi_epsilon_approx.ppf. frame. Qed.

Lemma psi_epsilon_approx_rvs_readonly size : readonly (psi_epsilon_approx.rvs size).
Proof.
  pose proof psi_epsilon_approx_ppf_readonly. unfold psi_epsilon_approx.rvs. frame.
Qed.

Lemma theta_epsilon_pdf_readonly x n : readonly (theta_epsilon.pdf x n).
Proof. unfold theta_epsilon.pdf. frame. Qed.

Lemma theta_epsilon_logpdf_readonly x n : readonly (theta_epsilon.logpdf x n).
Proof. unfold theta_epsilon.logpdf. frame. Qed.

Lemma theta_epsilon_cdf_readonly x n : readonly (theta_epsilon.cdf x n).
Proof.
  pose proof theta_epsilon_pdf_readonly. unfold theta_epsilon.cdf. frame.
Qed.

Lemma theta_epsilon_ppf_readonly n q : readonly (theta_epsilon.ppf n q).
Proof.
  pose proof theta_epsilon_cdf_readonly. unfold theta_epsilon.ppf. frame.
Qed.

Lemma theta_epsilon_resample_readonly fuel n rand_exp :
  readonly (theta_epsilon.resample fuel n rand_exp).
Proof.
  revert rand_exp. induction fuel as [|fuel IH]; intros rand_exp; cbn [theta_epsilon.resample].
  - apply readonly_bind; [apply readonly_this|]. intros self.
    destruct (Rltb (theta_epsilon.b self) rand_exp);
      [apply readonly_undef | apply readonly_ret].
  - apply readonly_bind; [apply readonly_this|]. intros self.
    destruct (Rltb (theta_epsilon.b self) rand_exp); [|apply readonly_ret].
    apply readonly_bind; [apply readonly_trunc_expon_rvs|]. intros u. apply IH.
Qed.

Lemma theta_epsilon_rvs_readonly fuel n size : readonly (theta_epsilon.rvs fuel n size).
Proof.
  unfold theta_epsilon.rvs. apply readonly_mapM. intros _.
  apply readonly_bind; [apply readonly_this|]. intros self.
  apply readonly_bind; [apply readonly_trunc_expon_rvs|]. intros u.
  apply theta_epsilon_resample_readonly.
Qed.

Lemma theta_epsilon_E_readonly n : readonly (theta_epsilon.E n).
Proof.
  pose proof theta_epsilon_pdf_readonly. unfold theta_epsilon.E. frame.
Qed.

Lemma gamma_agsne_pmf_readonly x : readonly (gamma_agsne.pmf x).
Proof. unfold gamma_agsne.pmf. frame. Qed.

Lemma gamma_agsne_cdf_readonly x : readonly (gamma_agsne.cdf x).
Proof. unfold gamma_agsne.cdf. frame. Qed.

Lemma sad_agsne_pmf_readonly x : readonly (sad_agsne.pmf x).
Proof. unfold sad_agsne.pmf. frame. Qed.

Lemma sad_agsne_logpmf_readonly x : readonly (sad_agsne.logpmf x).
Proof. unfold sad_agsne.logpmf. frame. Qed.

Lemma sad_agsne_cdf_readonly x : readonly (sad_agsne.cdf x).
Proof. unfold sad_agsne.cdf. frame. Qed.

Lemma sad_agsne_sweep_readonly todo i cdf_cum pending out :
  readonly (sad_agsne.sweep todo i cdf_cum pending out).
Proof.
  revert i cdf_cum pending out.
  induction todo as [|todo IH]; intros i cdf_cum pending out; cbn [sad_agsne.sweep].
  - apply readonly_ret.
  - apply readonly_bind; [apply sad_agsne_pmf_readonly|]. intros p.
    apply readonly_bind; [apply readonly_stop|]. intros [out' | [out' pending']].
    + apply readonly_ret.
    + apply IH.
Qed.

Lemma sad_agsne_rvs_readonly size : readonly (sad_agsne.rvs size).
Proof. pose proof sad_agsne_sweep_readonly. unfold sad_agsne.rvs. frame. Qed.

Lemma psi_agsne_pdf_readonly x : readonly (psi_agsne.pdf x).
Proof. unfold psi_agsne.pdf. frame. Qed.

Lemma psi_agsne_cdf_readonly x : readonly (psi_agsne.cdf x).
Proof. unfold psi_agsne.cdf. frame. Qed.

Lemma psi_agsne_ppf_readonly q : readonly (psi_agsne.ppf q).
Proof.
  pose proof psi_agsne_cdf_readonly. unfold psi_agsne.ppf. frame.
Qed.

Lemma psi_agsne_rvs_readonly size : readonly (psi_agsne.rvs size).
Proof. pose proof psi_agsne_ppf_readonly. unfold psi_agsne.rvs. frame. Qed.

Lemma theta_agsne_pdf_readonly x m n : readonly (theta_agsne.pdf x m n).
Proof. unfold theta_agsne.pdf. frame. Qed.

Lemma theta_agsne_cdf_readonly x m n : readonly (theta_agsne.cdf x m n).
Proof. unfold theta_agsne.cdf. frame. Qed.

Lemma theta_agsne_ppf_readonly q m n : readonly (theta_agsne.ppf q m n).
Proof. unfold theta_agsne.ppf. frame. Qed.

Lemma theta_agsne_rvs_readonly size m n : readonly (theta_agsne.rvs size m n).
Proof. pose proof theta_agsne_ppf_readonly. unfold theta_agsne.rvs. frame. Qed.

Lemma theta_agsne_expected_readonly m n : readonly (theta_agsne.expected m n).
Proof. unfold theta_agsne.expected. frame. Qed.

(** C9: no public evaluation method of any distribution class changes the
    object it is called on: after the call, whether it returned or raised,
    every attribute set at construction has the value it had before. *)
Theorem methods_leave_object_unchanged :
  (forall x p upper_bound, readonly (trunc_logser_gen._pmf x p upper_bound))
  /\ ((forall x, readonly (psi_epsilon.pdf x))
      /\ (forall x, readonly (psi_epsilon.cdf x))
      /\ (forall q, readonly (psi_epsilon.ppf q))
      /\ (forall size, readonly (psi_epsilon.rvs size))
      /\ readonly psi_epsilon.E)
  /\ ((forall x, readonly (psi_epsilon_approx.pdf x))
      /\ (forall x, readonly (psi_epsilon_approx.cdf x))
      /\ (forall q, readonly (psi_epsilon_approx.ppf q))
      /\ (forall size, readonly (psi_epsilon_approx.rvs size)))
  /\ ((forall x n, readonly (theta_epsilon.pdf x n))
      /\ (forall x n, readonly (theta_epsilon.logpdf x n))
      /\ (forall x n, readonly (theta_epsilon.cdf x n))
      /\ (forall n q, readonly (theta_epsilon.ppf n q))
      /\ (forall fuel n size, readonly (theta_epsilon.rvs fuel n size))
      /\ (forall n, readonly (theta_epsilon.E n)))
  /\ ((forall x, readonly (gamma_agsne.pmf x))
      /\ (forall x, readonly (gamma_agsne.cdf x)))
  /\ ((forall x, readonly (sad_agsne.pmf x))
      /\ (forall x, readonly (sad_agsne.logpmf x))
      /\ (forall x, readonly (sad_agsne.cdf x))
      /\ (forall size, readonly (sad_agsne.rvs size)))
  /\ ((forall x, readonly (psi_agsne.pdf x))
      /\ (forall x, readonly (psi_agsne.cdf x))
      /\ (forall q, readonly (psi_agsne.ppf q))
      /\ (forall size, readonly (psi_agsne.rvs size)))
  /\ ((forall x m n, readonly (theta_agsne.pdf x m n))
      /\ (forall x m n, readonly (theta_agsne.cdf x m n))
      /\ (forall q m n, readonly (theta_agsne.ppf q m n))
      /\ (forall size m n, readonly (theta_agsne.rvs size m n))
      /\ (forall m n, readonly (theta_agsne.expected m n))).
Proof.
  repeat split; intros.
  - apply trunc_logser_pmf_readonly.
  - apply psi_epsilon_pdf_readonly.
  - apply psi_epsilon_cdf_readonly.
  - apply psi_epsilon_ppf_readonly.
  - apply psi_epsilon_rvs_readonly.
  - apply psi_epsilon_E_readonly.
  - apply psi_epsilon_approx_pdf_readonly.
  - apply psi_epsilon_approx_cdf_readonly.
  - apply psi_epsilon_approx_ppf_readonly.
  - apply psi_epsilon_approx_rvs_readonly.
  - apply theta_epsilon_pdf_readonly.
  - apply theta_epsilon_logpdf_readonly.
  - apply theta_epsilon_cdf_readonly.
  - apply theta_epsilon_ppf_readonly.
  - apply theta_epsilon_rvs_readonly.
  - apply theta_epsilon_E_readonly.
  - apply gamma_agsne_pmf_readonly.
  - apply gamma_agsne_cdf_readonly.
  - apply sad_agsne_pmf_readonly.
  - apply sad_agsne_logpmf_readonly.
  - apply sad_agsne_cdf_readonly.
  - apply sad_agsne_rvs_readonly.
  - apply psi_agsne_pdf_readonly.
  - apply psi_agsne_cdf_readonly.
  - apply psi_agsne_ppf_readonly.
  - apply psi_agsne_rvs_readonly.
  - apply theta_agsne_pdf_readonly.
  - apply theta_agsne_cdf_readonly.
  - apply theta_agsne_ppf_readonly.
  - apply theta_agsne_rvs_readonly.
  - apply theta_agsne_expected_readonly.
Qed.

End frame_methods.

(** * Further properties of the methods *)

(** ** Calculus on an interval *)

Lemma FTC_interval (f F : R -> R) (lo hi : R) (pr : Riemann_integrable f lo hi) :
  lo <= hi ->
  (forall x, lo <= x <= hi -> continuity_pt f x) ->
  (forall x, lo <= x <= hi -> derivable_pt_lim F x (f x)) ->
  RiemannInt pr = F hi - F lo.
Proof.
  intros Hle Hc HF.
  pose proof (RiemannInt_P29 Hle Hc) as Hprim.
  assert (HFa : antiderivative f F lo hi).
  { split; [|exact Hle]. intros x Hx.
    exists (exist _ (f x) (HF x Hx)). reflexivity. }
  destruct (antiderivative_Ucte f _ _ lo hi Hprim HFa) as [c Hc'].
  rewrite (RiemannInt_P20 Hle (FTC_P1 Hle Hc) pr).
  rewrite (Hc' hi), (Hc' lo) by lra. ring.
Qed.

Lemma integrable_on_support (f g : R -> R) (lo hi : R) :
  lo <= hi ->
  (forall x, lo <= x <= hi -> continuity_pt g x) ->
  (forall x, lo <= x <= hi -> g x = f x) ->
  Riemann_integrable f lo hi.
Proof.
  intros Hle Hc Hfg.
  apply (Riemann_integrable_ext (f := g)).
  - intros x Hx. rewrite Rmin_left, Rmax_right in Hx by lra. now apply Hfg.
  - now apply continuity_implies_RiemannInt.
Qed.

(** The integral over the support of a function that coincides there with a
    continuous function having a primitive. *)
Lemma integral_on_support (f g F : R -> R) (lo hi : R) (pr : Riemann_integrable f lo hi) :
  lo <= hi ->
  (forall x, lo <= x <= hi -> continuity_pt g x) ->
  (forall x, lo <= x <= hi -> derivable_pt_lim F x (g x)) ->
  (forall x, lo <= x <= hi -> g x = f x) ->
  RiemannInt pr = F hi - F lo.
Proof.
  intros Hle Hc HF Hfg.
  assert (pg : Riemann_integrable g lo hi) by now apply continuity_implies_RiemannInt.
  rewrite (RiemannInt_P18 pr pg) by (try assumption; intros x Hx; symmetry; apply Hfg; lra).
  now apply FTC_interval.
Qed.

Lemma recip_exp_derivative (c k x : R) :
  1 - exp (c + k * x) <> 0 ->
  derivable_pt_lim (fun x => 1 / (1 - exp (c + k * x))) x
    (k * exp (c + k * x) / (1 - exp (c + k * x)) ^ 2).
Proof.
  intros Hx.
  assert (He : derivable_pt_lim (fun x => exp (c + k * x)) x
                 (exp (c + k * x) * (0 + k * 1))).
  { apply (derivable_pt_lim_comp (fun x => c + k * x) exp).
    - apply (derivable_pt_lim_plus (fct_cte c) (mult_real_fct k id)).
      + apply derivable_pt_lim_const.
      + apply derivable_pt_lim_scal. apply derivable_pt_lim_id.
    - apply derivable_pt_lim_exp. }
  assert (Hu : derivable_pt_lim (fun x => 1 - exp (c + k * x)) x
                 (0 - exp (c + k * x) * (0 + k * 1))).
  { apply (derivable_pt_lim_minus (fct_cte 1) (fun x => exp (c + k * x))).
    - apply derivable_pt_lim_const.
    - exact He. }
  pose proof (derivable_pt_lim_div (fct_cte 1) _ x _ _
                (derivable_pt_lim_const 1 x) Hu Hx) as Hi.
  apply derivable_pt_lim_ext
    with (f := div_fct (fct_cte 1) (fun x => 1 - exp (c + k * x))).
  - intros z. reflexivity.
  - replace (k * exp (c + k * x) / (1 - exp (c + k * x)) ^ 2)
      with ((0 * (1 - exp (c + k * x))
             - (0 - exp (c + k * x) * (0 + k * 1)) * fct_cte 1 x)
            / Rsqr (1 - exp (c + k * x))).
    + exact Hi.
    + unfold Rsqr, fct_cte. field. exact Hx.
Qed.

Lemma exp_scaled_derivative (c k x : R) :
  derivable_pt_lim (fun x => c * exp (k * x)) x (c * (k * exp (k * x))).
Proof.
  assert (He : derivable_pt_lim (fun x => exp (k * x)) x (exp (k * x) * (k * 1))).
  { apply (derivable_pt_lim_comp (mult_real_fct k id) exp).
    - apply derivable_pt_lim_scal. apply derivable_pt_lim_id.
    - apply derivable_pt_lim_exp. }
  pose proof (derivable_pt_lim_scal _ c _ _ He) as Hs.
  replace (c * (k * exp (k * x))) with (c * (exp (k * x) * (k * 1))) by ring.
  exact Hs.
Qed.

Lemma float_div_raise {m : Type -> Type} `{MonadExc m} (x y : R) :
  y = 0 -> float_div x y = raise ZeroDivisionError.
Proof. intros ->. apply float_div_zero. Qed.

Lemma mapM_cons_inv {O A B : Type} (f : A -> M O B) (x : A) (l : list A)
    (w w' : world O) (out : list B) :
  mapM f (x :: l) w = (Ok out, w') ->
  exists v w1 vs, f x w = (Ok v, w1) /\ mapM f l w1 = (Ok vs, w') /\ out = v :: vs.
Proof.
  cbn. destruct (f x w) as [[v | ex | gp] w1]; try discriminate.
  destruct (mapM f l w1) as [[vs | ex | gp] w2] eqn:Hrest; try discriminate.
  cbn. intros Heq. injection Heq as <- <-. exists v, w1, vs. repeat split. exact Hrest.
Qed.

Lemma mapM_cons_ok {O A B : Type} (f : A -> M O B) (x : A) (l : list A)
    (w w1 w' : world O) (v : B) (vs : list B) :
  f x w = (Ok v, w1) -> mapM f l w1 = (Ok vs, w') ->
  mapM f (x :: l) w = (Ok (v :: vs), w').
Proof. intros Hx Hl. cbn. rewrite Hx, Hl. reflexivity. Qed.

(** *** More on ranges and sums *)

Lemma arange_app (lo mid hi : Z) :
  (lo <= mid <= hi)%Z -> arange lo hi = arange lo mid ++ arange mid hi.
Proof.
  intros Hm.
  assert (Hk : forall k : nat,
            arange lo (mid + Z.of_nat k)
            = arange lo mid ++ arange mid (mid + Z.of_nat k)).
  { induction k as [|k IH].
    - rewrite Z.add_0_r, (arange_empty mid mid) by lia. now rewrite app_nil_r.
    - replace (mid + Z.of_nat (S k))%Z with (mid + Z.of_nat k + 1)%Z by lia.
      rewrite !arange_snoc by lia. now rewrite IH, app_assoc. }
  specialize (Hk (Z.to_nat (hi - mid))).
  now replace (mid + Z.of_nat (Z.to_nat (hi - mid)))%Z with hi in Hk by lia.
Qed.

Lemma sum_map_ext_in {A : Type} (f g : A -> R) (l : list A) :
  (forall x, In x l -> f x = g x) -> sum (map f l) = sum (map g l).
Proof. intros Hfg. f_equal. now apply map_ext_in. Qed.

Lemma sum_map_le {A : Type} (f g : A -> R) (l : list A) :
  (forall x, In x l -> f x <= g x) -> sum (map f l) <= sum (map g l).
Proof.
  induction l as [|x l IH]; intros Hfg; cbn [map].
  - lra.
  - rewrite !sum_cons.
    assert (f x <= g x) by (apply Hfg; now left).
    assert (sum (map f l) <= sum (map g l)) by (apply IH; intros y Hy; apply Hfg; now right).
    lra.
Qed.

Lemma sum_map_scale {A : Type} (f : A -> R) (c : R) (l : list A) :
  sum (map (fun x => f x / c) l) = sum (map f l) / c.
Proof. rewrite <- (map_map f (fun t => t / c)). apply sum_map_div. Qed.

(** *** Finite sums of functions *)

Lemma sum_map_lt {A : Type} (f g : A -> R) (l : list A) :
  l <> [] -> (forall x, In x l -> f x < g x) -> sum (map f l) < sum (map g l).
Proof.
  intros Hne Hfg. destruct l as [|a l]; [congruence|]. clear Hne.
  cbn [map]. rewrite !sum_cons.
  assert (Ha : f a < g a) by (apply Hfg; now left).
  assert (Hl : sum (map f l) <= sum (map g l)).
  { apply sum_map_le. intros x Hx. left. apply Hfg. now right. }
  lra.
Qed.

Lemma sum_map_mult_l {A : Type} (f : A -> R) (c : R) (l : list A) :
  sum (map (fun x => c * f x) l) = c * sum (map f l).
Proof.
  induction l as [|a l IH]; cbn [map].
  - rewrite sum_nil. ring.
  - rewrite !sum_cons, IH. ring.
Qed.

Lemma derivable_pt_lim_sum {A : Type} (f : A -> R -> R) (f' : A -> R) (l : list A) (x : R) :
  (forall a, In a l -> derivable_pt_lim (f a) x (f' a)) ->
  derivable_pt_lim (fun t => sum (map (fun a => f a t) l)) x (sum (map f' l)).
Proof.
  induction l as [|a l IH]; intros Hd.
  - cbn [map]. rewrite sum_nil.
    apply derivable_pt_lim_ext with (f := fct_cte 0); [reflexivity|].
    apply derivable_pt_lim_const.
  - cbn [map]. rewrite sum_cons.
    apply derivable_pt_lim_ext
      with (f := plus_fct (f a) (fun t => sum (map (fun a => f a t) l))).
    + intros t. unfold plus_fct. now rewrite sum_cons.
    + apply derivable_pt_lim_plus.
      * apply Hd. now left.
      * apply IH. intros b Hb. apply Hd. now right.
Qed.

Lemma continuity_pt_ext (f g : R -> R) (x : R) :
  (forall t, f t = g t) -> continuity_pt f x -> continuity_pt g x.
Proof.
  intros Hfg Hc eps Heps. destruct (Hc eps Heps) as [dl [Hdl Hlim]].
  exists dl. split; [exact Hdl|]. intros t Ht. rewrite <- !Hfg. now apply Hlim.
Qed.

Lemma continuity_pt_sum {A : Type} (f : A -> R -> R) (l : list A) (x : R) :
  (forall a, In a l -> continuity_pt (f a) x) ->
  continuity_pt (fun t => sum (map (fun a => f a t) l)) x.
Proof.
  induction l as [|a l IH]; intros Hc.
  - apply continuity_pt_ext with (f := fct_cte 0); [reflexivity|].
    apply continuity_pt_const. intros u v. reflexivity.
  - apply continuity_pt_ext
      with (f := plus_fct (f a) (fun t => sum (map (fun a => f a t) l))).
    + intros t. cbn [map]. unfold plus_fct. now rewrite sum_cons.
    + apply continuity_pt_plus.
      * apply Hc. now left.
      * apply IH. intros b Hb. apply Hc. now right.
Qed.

Lemma ln_le_exp (y u : R) : 0 < y -> y <= exp u -> ln y <= u.
Proof.
  intros Hy [Hlt | Heq].
  - left. rewrite <- (ln_exp u). now apply ln_increasing.
  - right. rewrite Heq. apply ln_exp.
Qed.

Lemma ln_ge_exp (y u : R) : exp u <= y -> u <= ln y.
Proof.
  intros [Hlt | Heq].
  - left. rewrite <- (ln_exp u). apply ln_increasing; [apply exp_pos | exact Hlt].
  - right. rewrite <- Heq. symmetry. apply ln_exp.
Qed.

Lemma exp_neq_1 (u : R) : u <> 0 -> 1 - exp u <> 0.
Proof.
  intros Hu Hz. apply Hu. apply exp_inv. rewrite exp_0. lra.
Qed.

Lemma mapM_ok_ex {O A B : Type} (f : A -> M O B) (P : B -> Prop) (l : list A)
    (w : world O) :
  (forall x, In x l -> exists v, f x w = (Ok v, w) /\ P v) ->
  exists vs, mapM f l w = (Ok vs, w) /\ length vs = length l /\ Forall P vs.
Proof.
  induction l as [|x l IH]; intros Hf.
  - exists []. repeat split. constructor.
  - destruct (Hf x (or_introl eq_refl)) as [v [Hv HP]].
    destruct IH as [vs [Hvs [Hlen HPs]]].
    { intros y Hy. apply Hf. now right. }
    exists (v :: vs). split; [|split].
    + exact (mapM_cons_ok f x l w w w v vs Hv Hvs).
    + cbn. now rewrite Hlen.
    + now constructor.
Qed.

Lemma xtol_pos : 0 < xtol.
Proof. unfold xtol. apply Rdiv_lt_0_compat; [lra | apply pow_lt; lra]. Qed.

(** ** Bisection *)

Section bisection.
Context {O : Type} (f : R -> M O R) (F : R -> R) (w : world O).
Variables A B : R.
Hypothesis f_pure : forall x, A <= x <= B -> f x w = (Ok (F x), w).

(** The loop keeps a sign change of [F] between [xa] and [xa + dm]; it
    returns once the half-width is below the tolerance, which happens
    within [iter] halvings when [dm / 2 ^ iter] is below [tol]. *)
Lemma bisect_loop_brackets (tol fa : R) :
  fa < 0 -> 0 < tol ->
  forall (iter : nat) (xa dm : R),
    (1 <= iter)%nat -> 0 < dm -> A <= xa -> xa + dm <= B ->
    F xa <= 0 -> 0 <= F (xa + dm) -> dm / 2 ^ iter < tol ->
    exists xm lo hi,
      bisect_loop iter f xa fa dm tol w = (Ok xm, w)
      /\ xa <= lo /\ lo <= xm /\ xm <= hi /\ hi <= xa + dm
      /\ F lo <= 0 /\ 0 <= F hi
      /\ hi - lo < 2 * (tol + bisect_rtol * Rabs xm).
Proof.
  intros Hfa Htol. induction iter as [|iter IH]; intros xa dm Hit Hdm HA HB Hlo Hhi Hend;
    [lia|].
  assert (Hrt : 0 < bisect_rtol).
  { unfold bisect_rtol. apply Rinv_0_lt_compat. apply pow_lt. lra. }
  cbn [bisect_loop bind M_monad].
  rewrite f_pure by lra.
  set (xm := xa + dm * / 2).
  pose proof (Rabs_pos xm) as Hxm.
  assert (Hslack : 0 <= bisect_rtol * Rabs xm) by (apply Rmult_le_pos; lra).
  destruct (Reqb (F xm) 0) eqn:Hroot; cbn [orb].
  { exists xm, xm, xm. unfold Reqb in Hroot.
    destruct (Req_dec_T (F xm) 0) as [Hz | Hz]; [|discriminate].
    cbn [ret M_monad]. unfold xm in *. repeat split; try lra. }
  destruct (Rltb (Rabs (dm * / 2)) (tol + bisect_rtol * Rabs xm)) eqn:Hsmall.
  { exists xm, xa, (xa + dm). unfold Rltb in Hsmall.
    destruct (Rlt_dec (Rabs (dm * / 2)) (tol + bisect_rtol * Rabs xm)) as [Hs | Hs];
      [|discriminate].
    rewrite Rabs_right in Hs by lra.
    cbn [ret M_monad]. unfold xm in *. repeat split; try lra. }
  assert (Hlarge : tol + bisect_rtol * Rabs xm <= dm * / 2).
  { unfold Rltb in Hsmall.
    destruct (Rlt_dec (Rabs (dm * / 2)) (tol + bisect_rtol * Rabs xm)) as [Hs | Hs];
      [discriminate|].
    rewrite Rabs_right in Hs by lra. lra. }
  assert (Hit' : (1 <= iter)%nat).
  { destruct iter as [|iter]; [|lia]. exfalso.
    change (dm / 2 ^ 1) with (dm / (2 * 1)) in Hend.
    replace (dm / (2 * 1)) with (dm * / 2) in Hend by (unfold Rdiv; f_equal; field).
    lra. }
  assert (Hend' : dm * / 2 / 2 ^ iter < tol).
  { replace (dm * / 2 / 2 ^ iter) with (dm / 2 ^ Datatypes.S iter); [exact Hend|].
    cbn [pow]. field. apply pow_nonzero. lra. }
  destruct (Rleb 0 (F xm * fa)) eqn:Hsign.
  - assert (Hm : F xm <= 0).
    { unfold Rleb in Hsign. destruct (Rle_dec 0 (F xm * fa)) as [Hs | Hs]; [|discriminate].
      nra. }
    destruct (IH xm (dm * / 2)) as [x [lo [hi [Hrun Hb]]]];
      try assumption; try (unfold xm; lra).
    { replace (xm + dm * / 2) with (xa + dm) by (unfold xm; lra). exact Hhi. }
    exists x, lo, hi. split; [exact Hrun|].
    replace (xm + dm * / 2) with (xa + dm) in Hb by (unfold xm; lra).
    unfold xm in Hb. repeat split; try tauto; lra.
  - assert (Hm : 0 <= F xm).
    { unfold Rleb in Hsign. destruct (Rle_dec 0 (F xm * fa)) as [Hs | Hs]; [discriminate|].
      nra. }
    destruct (IH xa (dm * / 2)) as [x [lo [hi [Hrun Hb]]]];
      try assumption; try lra.
    exists x, lo, hi. split; [exact Hrun|].
    repeat split; try tauto; lra.
Qed.

Lemma bisect_brackets (tol : R) :
  A < B -> F A < 0 -> 0 < F B -> 0 < tol ->
  (B - A) / 2 ^ bisect_maxiter < tol ->
  exists xm lo hi,
    bisect f A B tol w = (Ok xm, w)
    /\ A <= lo /\ lo <= xm /\ xm <= hi /\ hi <= B
    /\ F lo <= 0 /\ 0 <= F hi
    /\ hi - lo < 2 * (tol + bisect_rtol * Rabs xm).
Proof.
  intros HAB Hfa Hfb Htol Hend.
  destruct (bisect_loop_brackets tol (F A) Hfa Htol bisect_maxiter A (B - A))
    as [xm [lo [hi [Hrun Hb]]]]; try lra.
  - unfold bisect_maxiter. lia.
  - replace (A + (B - A)) with B by ring. lra.
  - exists xm, lo, hi. replace (A + (B - A)) with B in Hb by ring. split; [|exact Hb].
    unfold bisect. cbn [bind M_monad]. rewrite !f_pure by lra.
    rewrite Rltb_false by nra.
    rewrite !Reqb_false by lra. exact Hrun.
Qed.

Lemma bisect_same_sign (tol : R) :
  A <= B -> 0 < F A * F B -> bisect f A B tol w = (Raise ValueError, w).
Proof.
  intros HAB Hs. unfold bisect. cbn [bind M_monad]. rewrite !f_pure by lra.
  now rewrite Rltb_true.
Qed.

Lemma bisect_root_left (tol : R) :
  A <= B -> F A = 0 -> bisect f A B tol w = (Ok A, w).
Proof.
  intros HAB Hz. unfold bisect. cbn [bind M_monad]. rewrite !f_pure by lra.
  rewrite Rltb_false by (rewrite Hz; lra). rewrite Hz, Reqb_refl. reflexivity.
Qed.

Lemma bisect_root_right (tol : R) :
  A <= B -> F A <> 0 -> F B = 0 -> bisect f A B tol w = (Ok B, w).
Proof.
  intros HAB Ha Hz. unfold bisect. cbn [bind M_monad]. rewrite !f_pure by lra.
  rewrite Rltb_false by (rewrite Hz; lra).
  rewrite Reqb_false by exact Ha. rewrite Hz, Reqb_refl. reflexivity.
Qed.

End bisection.

(** ** [trunc_logser]: total mass *)

Section trunc_logser_more.
Import trunc_logser_gen.

(** X1.  For [0 < p < 1] and [upper_bound >= 1], [_pmf] evaluated on the
    whole support [1 .. upper_bound] returns positive masses whose sum,
    taken as the builtin [sum] takes it, is 1: the truncated logseries is
    normalized. *)
Theorem trunc_logser_pmf_sums_to_one (p : R) (upper_bound : Z) (w : world t) :
  0 < p < 1 -> (1 <= upper_bound)%Z ->
  exists ps,
    _pmf (arange 1 (upper_bound + 1)) p upper_bound w = (Ok ps, w)
    /\ Forall (fun v => 0 < v) ps
    /\ sum ps = 1.
Proof.
  intros Hp Hub.
  assert (HZ : 0 < logser_Z p (Z.to_nat upper_bound)) by (apply logser_Z_pos; [lra | lia]).
  eexists. split; [|split].
  - apply trunc_logser_pmf_values; [exact Hp|].
    apply Forall_forall. intros x Hx. apply in_arange in Hx. lia.
  - apply Forall_forall. intros v Hv. apply in_map_iff in Hv.
    destruct Hv as [x [<- Hx]]. apply in_arange in Hx.
    repeat apply Rdiv_lt_0_compat; try lra; [apply pow_lt; lra | apply IZR_lt; lia].
  - rewrite (sum_map_scale (fun x => p ^ Z.to_nat x / IZR x)).
    rewrite (sum_map_ext_in _ (fun i => powerRZ p i / IZR i)).
    + rewrite logser_normalization by lia. field. lra.
    + intros x Hx. apply in_arange in Hx. now rewrite pow_powerRZ, Z2Nat.id by lia.
Qed.

End trunc_logser_more.

Section trunc_logser_examples.
Import trunc_logser_gen.

Lemma trunc_logser_pmf_sums_to_one_witness :
  (0 < 1 / 2 < 1 /\ (1 <= 3)%Z)
  /\ exists ps,
       _pmf (arange 1 (3 + 1)) (1 / 2) 3 (World trunc_logser [] half_rng)
       = (Ok ps, World trunc_logser [] half_rng)
       /\ Forall (fun v => 0 < v) ps
       /\ sum ps = 1.
Proof.
  assert (H1 : 0 < 1 / 2 < 1) by lra.
  assert (H2 : (1 <= 3)%Z) by lia.
  split; [split; assumption|].
  exact (trunc_logser_pmf_sums_to_one (1 / 2) 3 (World trunc_logser [] half_rng) H1 H2).
Defined.

End trunc_logser_examples.

(** ** [psi_epsilon]: the density as a finite sum *)

Section psi_epsilon_more.
Import psi_epsilon.
Context `{Collaborators}.

(** The two closed forms the class uses, for [g = exp (- u)]: the geometric
    sum in [__init__] and the weighted geometric sum in [pdf]. *)
Lemma geometric_sum (u : R) (k : nat) :
  u <> 0 ->
  sum (map (fun n => exp (- u * IZR n)) (arange 1 (Z.of_nat k + 1)))
  = (exp (- u) - exp (- u * (IZR (Z.of_nat k) + 1))) / (1 - exp (- u)).
Proof.
  intros Hu.
  assert (Hg : 1 - exp (- u) <> 0) by (apply exp_neq_1; lra).
  induction k as [|k IH].
  - cbn [Z.of_nat]. rewrite arange_empty by lia. cbn [map]. rewrite sum_nil.
    replace (- u * (0 + 1)) with (- u) by ring. field. exact Hg.
  - replace (Z.of_nat (Datatypes.S k) + 1)%Z with (Z.of_nat k + 1 + 1)%Z by lia.
    rewrite arange_snoc by lia. rewrite map_app, sum_app, IH. cbn [map].
    rewrite sum_cons, sum_nil.
    replace (IZR (Z.of_nat (Datatypes.S k))) with (IZR (Z.of_nat k) + 1)
      by (rewrite <- plus_IZR; f_equal; lia).
    rewrite plus_IZR.
    replace (- u * (IZR (Z.of_nat k) + 1 + 1))
      with (- u * (IZR (Z.of_nat k) + 1) + - u) by ring.
    rewrite exp_plus. field. exact Hg.
Qed.

Lemma weighted_geometric_sum (u : R) (k : nat) :
  u <> 0 ->
  sum (map (fun n => IZR n * exp (- u * IZR n)) (arange 1 (Z.of_nat k + 1)))
  = exp (- u)
    * (1 - (IZR (Z.of_nat k) + 1) * exp (- u * IZR (Z.of_nat k))
       + IZR (Z.of_nat k) * exp (- u * (IZR (Z.of_nat k) + 1)))
    / (1 - exp (- u)) ^ 2.
Proof.
  intros Hu.
  assert (Hg : 1 - exp (- u) <> 0) by (apply exp_neq_1; lra).
  induction k as [|k IH].
  - cbn [Z.of_nat]. rewrite arange_empty by lia. cbn [map]. rewrite sum_nil.
    replace (- u * 0) with 0 by ring. rewrite exp_0. field. exact Hg.
  - replace (Z.of_nat (Datatypes.S k) + 1)%Z with (Z.of_nat k + 1 + 1)%Z by lia.
    rewrite arange_snoc by lia. rewrite map_app, sum_app, IH. cbn [map].
    rewrite sum_cons, sum_nil.
    replace (IZR (Z.of_nat (Datatypes.S k))) with (IZR (Z.of_nat k) + 1)
      by (rewrite <- plus_IZR; f_equal; lia).
    rewrite plus_IZR.
    replace (- u * (IZR (Z.of_nat k) + 1 + 1))
      with (- u * IZR (Z.of_nat k) + - u + - u) by ring.
    replace (- u * (IZR (Z.of_nat k) + 1))
      with (- u * IZR (Z.of_nat k) + - u) by ring.
    rewrite !exp_plus. field. exact Hg.
Qed.

Lemma pe_mass_gap (bt sg : R) (N0 : Z) :
  0 < bt -> bt < sg -> (1 <= N0)%Z ->
  0 < sum (map (fun n => exp (- bt * IZR n)) (arange 1 (N0 + 1)))
      - sum (map (fun n => exp (- sg * IZR n)) (arange 1 (N0 + 1))).
Proof.
  intros Hbt Hsg HN. apply Rlt_0_minus. apply sum_map_lt.
  - rewrite arange_cons by lia. discriminate.
  - intros n Hn. apply in_arange in Hn.
    assert (1 <= IZR n) by (apply IZR_le; lia).
    apply exp_increasing. nra.
Qed.

Lemma pe_init (S0 N0 : Z) (E0 bt l2 : R) :
  get_beta S0 N0 = Ok bt -> get_lambda2 S0 N0 E0 = Ok l2 ->
  0 < bt -> 0 < l2 -> 1 < E0 -> (1 <= N0)%Z ->
  exists nf, 0 < nf
    /\ nf * (sum (map (fun n => exp (- bt * IZR n)) (arange 1 (N0 + 1)))
             - sum (map (fun n => exp (- (bt + (E0 - 1) * l2) * IZR n))
                        (arange 1 (N0 + 1)))) = l2
    /\ __init__ S0 N0 E0 = Ok (New 1 E0 N0 bt l2 (bt + (E0 - 1) * l2) nf).
Proof.
  intros Hb Hl Hbt Hl2 HE HN.
  assert (Hsg : bt < bt + (E0 - 1) * l2) by nra.
  pose proof (pe_mass_gap bt _ N0 Hbt Hsg HN) as Hgap.
  pose proof (geometric_sum bt (Z.to_nat N0) ltac:(lra)) as G1.
  pose proof (geometric_sum (bt + (E0 - 1) * l2) (Z.to_nat N0) ltac:(lra)) as G2.
  rewrite Z2Nat.id in G1, G2 by lia. rewrite G1, G2 in Hgap. rewrite G1, G2.
  unfold __init__. rewrite Hb, Hl. cbn.
  rewrite !float_div_ok by (apply exp_neq_1; lra). cbn.
  remember ((exp (- bt) - exp (- bt * (IZR N0 + 1))) / (1 - exp (- bt))) as g1.
  remember ((exp (- (bt + (E0 - 1) * l2)) - exp (- (bt + (E0 - 1) * l2) * (IZR N0 + 1)))
            / (1 - exp (- (bt + (E0 - 1) * l2)))) as g2.
  rewrite float_div_ok by lra. cbn.
  eexists. split; [|split; [|reflexivity]].
  - apply Rdiv_lt_0_compat; lra.
  - field. lra.
Qed.

Lemma pe_pdf_in (E0 bt l2 sg nf x : R) (N0 : Z) (so : list string) (r : nat -> R) :
  0 < bt -> 0 < l2 -> (0 <= N0)%Z -> 1 <= x <= E0 ->
  pdf x (World (New 1 E0 N0 bt l2 sg nf) so r)
  = (Ok (nf * sum (map (fun n => IZR n * exp (- (bt + (x - 1) * l2) * IZR n))
                       (arange 1 (N0 + 1)))),
     World (New 1 E0 N0 bt l2 sg nf) so r).
Proof.
  intros Hbt Hl2 HN Hx.
  assert (Hg : 0 < bt + (x - 1) * l2) by nra.
  pose proof (exp_pos (- (bt + (x - 1) * l2))) as Pg.
  pose proof (weighted_geometric_sum (bt + (x - 1) * l2) (Z.to_nat N0) ltac:(lra)) as W.
  rewrite Z2Nat.id in W by lia. rewrite W.
  unfold pdf. cbn -[pow]. rewrite between_true by exact Hx.
  rewrite !float_pow_ok by lra. cbn -[pow].
  rewrite float_div_ok by (apply pow_nonzero; apply exp_neq_1; lra).
  cbn -[pow]. rewrite !powerRZ_exp, plus_IZR. do 2 f_equal.
  unfold Rdiv. ring.
Qed.

Lemma pe_weighted_pos (u : R) (N0 : Z) :
  (1 <= N0)%Z ->
  0 < sum (map (fun n => IZR n * exp (- u * IZR n)) (arange 1 (N0 + 1))).
Proof.
  intros HN. apply sum_pos.
  - rewrite arange_cons by lia. discriminate.
  - apply Forall_forall. intros y Hy. apply in_map_iff in Hy.
    destruct Hy as [n [<- Hn]]. apply in_arange in Hn.
    apply Rmult_lt_0_compat; [apply IZR_lt; lia | apply exp_pos].
Qed.

(** X2.  With [beta > 0], [lambda2 > 0], [E0 > 1] and [N0 >= 1],
    construction succeeds and, for [x] in [[1, E0]], the closed form that
    [psi_epsilon.pdf] evaluates is the truncated sum it abbreviates:
    [norm_factor] times the sum over [n = 1 .. N0] of
    [n * exp (- (beta + (x - 1) * lambda2) * n)], a positive number. *)
Theorem psi_epsilon_pdf_finite_sum (S0 N0 : Z) (E0 bt l2 x : R) :
  get_beta S0 N0 = Ok bt -> get_lambda2 S0 N0 E0 = Ok l2 ->
  0 < bt -> 0 < l2 -> 1 < E0 -> (1 <= N0)%Z -> 1 <= x <= E0 ->
  exists d, __init__ S0 N0 E0 = Ok d /\
    0 < norm_factor d
        * sum (map (fun n => IZR n * exp (- (bt + (x - 1) * l2) * IZR n))
                   (arange 1 (N0 + 1))) /\
    forall so r,
      pdf x (World d so r)
      = (Ok (norm_factor d
             * sum (map (fun n => IZR n * exp (- (bt + (x - 1) * l2) * IZR n))
                        (arange 1 (N0 + 1)))),
         World d so r).
Proof.
  intros Hb Hl Hbt Hl2 HE HN Hx.
  destruct (pe_init S0 N0 E0 bt l2 Hb Hl Hbt Hl2 HE HN) as [nf [Hnf [_ Hinit]]].
  eexists. split; [exact Hinit|]. split.
  - cbn [norm_factor]. apply Rmult_lt_0_compat; [exact Hnf|].
    now apply pe_weighted_pos.
  - intros so r. apply pe_pdf_in; try assumption. lia.
Qed.

(** X3.  Under the same conditions [psi_epsilon.pdf] is a probability
    density on [[1, E0]]: it returns a positive number at every point of the
    support, and its integral over the support is 1, so that [norm_factor]
    is the right normalization. *)
Theorem psi_epsilon_pdf_integrates_to_one (S0 N0 : Z) (E0 bt l2 : R) :
  get_beta S0 N0 = Ok bt -> get_lambda2 S0 N0 E0 = Ok l2 ->
  0 < bt -> 0 < l2 -> 1 < E0 -> (1 <= N0)%Z ->
  exists d, __init__ S0 N0 E0 = Ok d /\
    (forall x so r, 1 <= x <= E0 ->
       exists p, pdf x (World d so r) = (Ok p, World d so r) /\ 0 < p) /\
    inhabited (Riemann_integrable (fun x => value (pdf x) d) 1 E0) /\
    forall pr : Riemann_integrable (fun x => value (pdf x) d) 1 E0, RiemannInt pr = 1.
Proof.
  intros Hb Hl Hbt Hl2 HE HN.
  destruct (pe_init S0 N0 E0 bt l2 Hb Hl Hbt Hl2 HE HN) as [nf [Hnf [Hmass Hinit]]].
  eexists. split; [exact Hinit|].
  set (c := fun n : Z => exp (- (bt - l2) * IZR n)).
  set (k := fun n : Z => - l2 * IZR n).
  set (gf := fun x => nf * sum (map (fun n => - / l2 * (c n * (k n * exp (k n * x))))
                                    (arange 1 (N0 + 1)))).
  set (F := fun x => nf * sum (map (fun n => - / l2 * (c n * exp (k n * x)))
                                   (arange 1 (N0 + 1)))).
  assert (Hterm : forall n x, c n * exp (k n * x) = exp (- (bt + (x - 1) * l2) * IZR n)).
  { intros n x. unfold c, k. rewrite <- exp_plus. f_equal. ring. }
  assert (Hc : forall x, 1 <= x <= E0 -> continuity_pt gf x).
  { intros x _. unfold gf.
    apply (continuity_pt_mult (fct_cte nf)
             (fun x => sum (map (fun n => - / l2 * (c n * (k n * exp (k n * x))))
                                (arange 1 (N0 + 1))))).
    - apply continuity_pt_const. intros u v. reflexivity.
    - apply continuity_pt_sum. intros n _. reg. }
  assert (HF : forall x, 1 <= x <= E0 -> derivable_pt_lim F x (gf x)).
  { intros x _. unfold F, gf.
    apply (derivable_pt_lim_scal
             (fun x => sum (map (fun n => - / l2 * (c n * exp (k n * x)))
                                (arange 1 (N0 + 1)))) nf).
    apply (derivable_pt_lim_sum (fun n x => - / l2 * (c n * exp (k n * x)))
             (fun n => - / l2 * (c n * (k n * exp (k n * x))))).
    intros n _.
    apply (derivable_pt_lim_scal (fun x => c n * exp (k n * x)) (- / l2)).
    apply exp_scaled_derivative. }
  assert (Hfg : forall x, 1 <= x <= E0 ->
            gf x = value (pdf x) (New 1 E0 N0 bt l2 (bt + (E0 - 1) * l2) nf)).
  { intros x Hx. unfold value. rewrite pe_pdf_in by (try assumption; lia).
    cbn [fst]. unfold gf. f_equal. apply sum_map_ext_in. intros n _.
    rewrite <- Hterm. unfold k. field. lra. }
  split; [|split].
  - intros x so r Hx. eexists. split; [apply pe_pdf_in; try assumption; lia|].
    apply Rmult_lt_0_compat; [exact Hnf | now apply pe_weighted_pos].
  - constructor. apply (integrable_on_support _ gf); try assumption. lra.
  - intros pr. rewrite (integral_on_support _ gf F) by (try assumption; lra).
    unfold F.
    rewrite (sum_map_ext_in _ (fun n => - / l2 * exp (- (bt + (E0 - 1) * l2) * IZR n))
               (arange 1 (N0 + 1)))
      by (intros n _; now rewrite Hterm).
    rewrite (sum_map_ext_in (fun n => - / l2 * (c n * exp (k n * 1)))
               (fun n => - / l2 * exp (- bt * IZR n)) (arange 1 (N0 + 1))).
    + rewrite !sum_map_mult_l.
      replace (nf * (- / l2 * sum (map (fun n => exp (- (bt + (E0 - 1) * l2) * IZR n))
                                       (arange 1 (N0 + 1))))
               - nf * (- / l2 * sum (map (fun n => exp (- bt * IZR n))
                                         (arange 1 (N0 + 1)))))
        with (/ l2 * (nf * (sum (map (fun n => exp (- bt * IZR n)) (arange 1 (N0 + 1)))
                            - sum (map (fun n => exp (- (bt + (E0 - 1) * l2) * IZR n))
                                       (arange 1 (N0 + 1)))))) by ring.
      rewrite Hmass. field. lra.
    + intros n _. rewrite Hterm. do 2 f_equal. ring.
Qed.

End psi_epsilon_more.

Section psi_epsilon_examples.
Import psi_epsilon.

Lemma psi_epsilon_pdf_finite_sum_witness :
  (get_beta (Collaborators := stub None) 4 16 = Ok 1
   /\ get_lambda2 (Collaborators := stub None) 4 16 20 = Ok 1
   /\ 0 < 1 /\ 0 < 1 /\ 1 < 20 /\ (1 <= 16)%Z /\ 1 <= 2 <= 20)
  /\ exists d, __init__ (H := stub None) 4 16 20 = Ok d /\
       0 < norm_factor d
           * sum (map (fun n => IZR n * exp (- (1 + (2 - 1) * 1) * IZR n))
                      (arange 1 (16 + 1))) /\
       forall so r,
         pdf 2 (World d so r)
         = (Ok (norm_factor d
                * sum (map (fun n => IZR n * exp (- (1 + (2 - 1) * 1) * IZR n))
                           (arange 1 (16 + 1)))),
            World d so r).
Proof.
  assert (H1 : 0 < 1) by lra.
  assert (H2 : 1 < 20) by lra.
  assert (H3 : (1 <= 16)%Z) by lia.
  assert (H4 : 1 <= 2 <= 20) by lra.
  split; [repeat split; try assumption; lra|].
  exact (psi_epsilon_pdf_finite_sum (H := stub None) 4 16 20 1 1 2
           eq_refl eq_refl H1 H1 H2 H3 H4).
Defined.

Lemma psi_epsilon_pdf_integrates_to_one_witness :
  (get_beta (Collaborators := stub None) 4 16 = Ok 1
   /\ get_lambda2 (Collaborators := stub None) 4 16 20 = Ok 1
   /\ 0 < 1 /\ 0 < 1 /\ 1 < 20 /\ (1 <= 16)%Z)
  /\ exists d, __init__ (H := stub None) 4 16 20 = Ok d /\
       (forall x so r, 1 <= x <= 20 ->
          exists p, pdf x (World d so r) = (Ok p, World d so r) /\ 0 < p) /\
       inhabited (Riemann_integrable (fun x => value (pdf x) d) 1 20) /\
       forall pr : Riemann_integrable (fun x => value (pdf x) d) 1 20,
         RiemannInt pr = 1.
Proof.
  assert (H1 : 0 < 1) by lra.
  assert (H2 : 1 < 20) by lra.
  assert (H3 : (1 <= 16)%Z) by lia.
  split; [repeat split; try assumption; lra|].
  exact (psi_epsilon_pdf_integrates_to_one (H := stub None) 4 16 20 1 1
           eq_refl eq_refl H1 H1 H2 H3).
Defined.

End psi_epsilon_examples.

(** ** [psi_epsilon_approx] as a distribution *)

Section psi_epsilon_approx_more.
Import psi_epsilon_approx.
Context `{Collaborators}.

Lemma recip_pos (u : R) : 0 < u -> 1 < 1 / (1 - exp (- u)).
Proof.
  intros Hu. pose proof (exp_pos (- u)) as Hp.
  assert (Hl : exp (- u) < 1) by now apply exp_neg_lt_1.
  apply Rmult_lt_reg_r with (1 - exp (- u)); [lra|].
  unfold Rdiv. rewrite Rmult_assoc, Rinv_l by lra. lra.
Qed.

Lemma recip_exp (t : R) : 1 < t -> 0 < 1 - 1 / t < 1 /\ 1 / (1 - (1 - 1 / t)) = t.
Proof.
  intros Ht.
  assert (H0 : 0 < / t) by (apply Rinv_0_lt_compat; lra).
  assert (H1 : / t < 1).
  { rewrite <- Rinv_1. apply Rinv_lt_contravar; lra. }
  unfold Rdiv. rewrite !Rmult_1_l. split; [lra|].
  replace (1 - (1 - / t)) with (/ t) by lra. apply Rinv_inv.
Qed.

Lemma pea_init (S0 N0 : Z) (E0 bt l2 : R) :
  get_beta S0 N0 = Ok bt -> get_lambda2 S0 N0 E0 = Ok l2 ->
  0 < bt -> 0 < l2 -> 1 < E0 ->
  exists nf, 0 < nf
    /\ nf * l2 = 1 / (1 - exp (- bt)) - 1 / (1 - exp (- (bt + (E0 - 1) * l2)))
    /\ __init__ S0 N0 E0 = Ok (New 1 E0 N0 bt l2 (bt + (E0 - 1) * l2) nf).
Proof.
  intros Hb Hl Hbt Hl2 HE.
  assert (Hgap : 0 < 1 / (1 - exp (- bt)) - 1 / (1 - exp (- (bt + (E0 - 1) * l2)))).
  { apply recip_gap_pos; nra. }
  assert (L1 : exp (- bt) < 1) by (apply exp_neg_lt_1; lra).
  assert (L2 : exp (- (bt + (E0 - 1) * l2)) < 1) by (apply exp_neg_lt_1; nra).
  unfold __init__. rewrite Hb, Hl. cbn.
  rewrite !float_div_ok by lra. cbn. rewrite float_div_ok by lra. cbn.
  eexists. split; [|split; [|reflexivity]].
  - apply Rdiv_lt_0_compat; lra.
  - field. lra.
Qed.

Lemma pea_cdf_in (E0 bt l2 sg nf x : R) (n0 : Z) (so : list string) (r : nat -> R) :
  0 < bt -> 0 < l2 -> nf <> 0 -> 1 <= x <= E0 ->
  cdf x (World (New 1 E0 n0 bt l2 sg nf) so r)
  = (Ok ((1 / (1 - exp (- bt)) - 1 / (1 - exp (- (bt + (x - 1) * l2)))) / l2 / nf),
     World (New 1 E0 n0 bt l2 sg nf) so r).
Proof.
  intros Hbt Hl2 Hnf Hx. unfold cdf. cbn. rewrite between_true by exact Hx.
  assert (L1 : exp (- bt) < 1) by (apply exp_neg_lt_1; lra).
  assert (L2 : exp (- (bt + (x - 1) * l2)) < 1) by (apply exp_neg_lt_1; nra).
  rewrite !float_div_ok by lra. cbn. rewrite float_div_ok by lra. cbn.
  rewrite float_div_ok by exact Hnf. reflexivity.
Qed.

Lemma pea_cdf_below (d : t) (x : R) (so : list string) (r : nat -> R) :
  x < a d -> cdf x (World d so r) = (Ok 0, World d so r).
Proof.
  intros Hx. unfold cdf. cbn. unfold between.
  rewrite (Rleb_false (a d) x), Rltb_true by exact Hx. reflexivity.
Qed.

Lemma pea_cdf_above (d : t) (x : R) (so : list string) (r : nat -> R) :
  a d <= b d -> b d < x -> cdf x (World d so r) = (Ok 1, World d so r).
Proof.
  intros Hab Hx. unfold cdf. cbn. unfold between.
  rewrite (Rleb_false x (b d)), andb_false_r, Rltb_false by lra. reflexivity.
Qed.

(** X4.  With [beta > 0], [lambda2 > 0] and [E0 > 1],
    [psi_epsilon_approx.cdf] is a distribution function on [[1, E0]]: it
    returns 0 up to and at 1, returns 1 at and beyond [E0], and is strictly
    increasing in between. *)
Theorem psi_epsilon_approx_cdf_distribution (S0 N0 : Z) (E0 bt l2 : R) :
  get_beta S0 N0 = Ok bt -> get_lambda2 S0 N0 E0 = Ok l2 ->
  0 < bt -> 0 < l2 -> 1 < E0 ->
  exists d, __init__ S0 N0 E0 = Ok d /\
    (forall x so r, x <= 1 -> cdf x (World d so r) = (Ok 0, World d so r)) /\
    (forall x so r, E0 <= x -> cdf x (World d so r) = (Ok 1, World d so r)) /\
    (forall x y so r, 1 <= x -> x < y -> y <= E0 ->
       exists p q, cdf x (World d so r) = (Ok p, World d so r)
                   /\ cdf y (World d so r) = (Ok q, World d so r) /\ p < q).
Proof.
  intros Hb Hl Hbt Hl2 HE.
  destruct (pea_init S0 N0 E0 bt l2 Hb Hl Hbt Hl2 HE) as [nf [Hnf [Hnl Hinit]]].
  eexists. split; [exact Hinit|]. split; [|split].
  - intros x so r [Hx | ->].
    + apply pea_cdf_below. cbn. exact Hx.
    + rewrite pea_cdf_in by lra. do 2 f_equal.
      replace (bt + (1 - 1) * l2) with bt by ring. unfold Rdiv. ring.
  - intros x so r [Hx | <-].
    + apply pea_cdf_above; cbn; lra.
    + rewrite pea_cdf_in by lra. do 2 f_equal. rewrite <- Hnl. field. lra.
  - intros x y so r Hx Hxy Hy. do 2 eexists.
    rewrite !pea_cdf_in by lra. split; [reflexivity|]. split; [reflexivity|].
    assert (Hg : 0 < 1 / (1 - exp (- (bt + (x - 1) * l2)))
                     - 1 / (1 - exp (- (bt + (y - 1) * l2)))).
    { apply recip_gap_pos; nra. }
    unfold Rdiv at 1 3 4 6.
    apply Rmult_lt_compat_r; [now apply Rinv_0_lt_compat|].
    apply Rmult_lt_compat_r; [now apply Rinv_0_lt_compat|]. lra.
Qed.

Lemma recip_le (u v : R) : 1 < u -> u <= v -> 1 - 1 / u <= 1 - 1 / v.
Proof.
  intros Hu [Hlt | ->]; [|lra].
  assert (/ v < / u) by (apply Rinv_lt_contravar; nra). unfold Rdiv. lra.
Qed.

Lemma exp_as_recip (u : R) : 0 < u -> exp (- u) = 1 - 1 / (1 / (1 - exp (- u))).
Proof.
  intros Hu. assert (exp (- u) < 1) by now apply exp_neg_lt_1. field. lra.
Qed.

(** The quantile of [q] in closed form, for an object with the given
    attributes, when [q] is at most the value of [cdf] at [xs]. *)
Lemma pea_ppf_in (E0 bt l2 sg nf q xs : R) (n0 : Z) (so : list string) (r : nat -> R) :
  0 < bt -> 0 < l2 -> 1 <= xs ->
  0 <= q * nf * l2
    <= 1 / (1 - exp (- bt)) - 1 / (1 - exp (- (bt + (xs - 1) * l2))) ->
  exists x,
    ppf q (World (New 1 E0 n0 bt l2 sg nf) so r)
    = (Ok x, World (New 1 E0 n0 bt l2 sg nf) so r)
    /\ 1 <= x <= xs
    /\ 1 / (1 - exp (- (bt + (x - 1) * l2))) = 1 / (1 - exp (- bt)) - q * nf * l2
    /\ x = (- ln (1 - 1 / (1 / (1 - exp (- bt)) - q * nf * l2)) - (bt - l2)) / l2.
Proof.
  intros Hbt Hl2 Hxs Hq.
  assert (Hsg : 0 < bt + (xs - 1) * l2) by nra.
  pose proof (recip_pos bt Hbt) as HA.
  pose proof (recip_pos _ Hsg) as HB.
  assert (L1 : exp (- bt) < 1) by (apply exp_neg_lt_1; lra).
  remember (1 / (1 - exp (- bt))) as A eqn:EA.
  remember (1 / (1 - exp (- (bt + (xs - 1) * l2)))) as B eqn:EB.
  assert (HTB : B <= A - q * nf * l2) by lra.
  assert (HTA : A - q * nf * l2 <= A) by lra.
  remember (A - q * nf * l2) as T eqn:ET.
  destruct (recip_exp T) as [[Hy0 Hy1] HyT]; [lra|].
  unfold ppf. cbn. rewrite float_div_ok by lra. cbn. rewrite <- EA, <- ET.
  rewrite float_div_ok by lra. cbn.
  rewrite log_ok by lra. cbn.
  rewrite float_div_ok by lra. cbn.
  eexists. split; [reflexivity|].
  assert (Hlo : ln (1 - 1 / T) <= - bt).
  { apply ln_le_exp; [lra|]. rewrite (exp_as_recip bt Hbt), <- EA. apply recip_le; lra. }
  assert (Hhi : - (bt + (xs - 1) * l2) <= ln (1 - 1 / T)).
  { apply ln_ge_exp. rewrite (exp_as_recip _ Hsg), <- EB. apply recip_le; lra. }
  split; [|split; [|reflexivity]].
  - split.
    + apply Rmult_le_reg_r with l2; [lra|]. unfold Rdiv.
      rewrite Rmult_assoc, Rinv_l by lra. lra.
    + apply Rmult_le_reg_r with l2; [lra|]. unfold Rdiv.
      rewrite Rmult_assoc, Rinv_l by lra. lra.
  - replace (bt + ((- ln (1 - 1 / T) - (bt - l2)) / l2 - 1) * l2)
      with (- ln (1 - 1 / T)) by (field; lra).
    rewrite Ropp_involutive, exp_ln by lra. exact HyT.
Qed.

(** A probability between 0 and the value of [cdf] at [xs], in the terms
    [pea_ppf_in] asks for. *)
Lemma pea_below_cdf (bt l2 nf xs q : R) :
  0 < l2 -> 0 < nf -> 1 <= xs ->
  0 <= q <= (1 / (1 - exp (- bt)) - 1 / (1 - exp (- (bt + (xs - 1) * l2)))) / l2 / nf ->
  0 <= q * nf * l2
    <= 1 / (1 - exp (- bt)) - 1 / (1 - exp (- (bt + (xs - 1) * l2))).
Proof.
  intros Hl2 Hnf Hxs.
  generalize (1 / (1 - exp (- bt)) - 1 / (1 - exp (- (bt + (xs - 1) * l2)))).
  intros G [Hq0 Hq1].
  assert (Hnl : 0 < nf * l2) by now apply Rmult_lt_0_compat.
  split; [rewrite Rmult_assoc; apply Rmult_le_pos; lra|].
  replace G with (G / l2 / nf * (nf * l2)) by (field; lra).
  rewrite Rmult_assoc. apply Rmult_le_compat_r; lra.
Qed.

(** X5.  The other composition of the round trip, on the part of the
    support where [1 - q] keeps its digits: for a point [xs] of [[1, E0]]
    with [beta + (xs - 1) * lambda2 <= 10] and every probability [q] between
    0 and [cdf xs], [ppf q] returns a point [x] of [[1, xs]] and [cdf x]
    returns [q] again. *)
Theorem psi_epsilon_approx_cdf_ppf_roundtrip (S0 N0 : Z) (E0 bt l2 xs : R) :
  get_beta S0 N0 = Ok bt -> get_lambda2 S0 N0 E0 = Ok l2 ->
  0 < bt -> 0 < l2 -> 1 < E0 ->
  1 <= xs <= E0 -> bt + (xs - 1) * l2 <= 10 ->
  exists d qs, __init__ S0 N0 E0 = Ok d /\
    forall so r,
      cdf xs (World d so r) = (Ok qs, World d so r) /\
      forall q, 0 <= q <= qs ->
        exists x,
          ppf q (World d so r) = (Ok x, World d so r) /\ 1 <= x <= xs /\
          cdf x (World d so r) = (Ok q, World d so r).
Proof.
  intros Hb Hl Hbt Hl2 HE Hxs _.
  destruct (pea_init S0 N0 E0 bt l2 Hb Hl Hbt Hl2 HE) as [nf [Hnf [Hnl Hinit]]].
  do 2 eexists. split; [exact Hinit|]. intros so r.
  split; [apply pea_cdf_in; lra|]. intros q Hq.
  destruct (pea_ppf_in E0 bt l2 (bt + (E0 - 1) * l2) nf q xs N0 so r Hbt Hl2
              ltac:(lra) (pea_below_cdf bt l2 nf xs q Hl2 Hnf ltac:(lra) Hq))
    as [x [Hp [Hx [Hinv _]]]].
  exists x. split; [exact Hp|]. split; [exact Hx|].
  rewrite pea_cdf_in by lra. rewrite Hinv. do 2 f_equal.
  generalize (1 / (1 - exp (- bt))). intros A. field. lra.
Qed.

(** X6.  [psi_epsilon_approx.rvs size] consumes exactly [size] uniform
    draws and, when these lie between 0 and [cdf xs] for a point [xs] of
    [[1, E0]] with [beta + (xs - 1) * lambda2 <= 10], returns [size] values
    that all lie in [[1, xs]], hence in the support; nothing is printed and
    the object is unchanged. *)
Theorem psi_epsilon_approx_rvs_in_support (S0 N0 : Z) (E0 bt l2 xs : R) (size : nat)
    (so : list string) (r : nat -> R) :
  get_beta S0 N0 = Ok bt -> get_lambda2 S0 N0 E0 = Ok l2 ->
  0 < bt -> 0 < l2 -> 1 < E0 ->
  1 <= xs <= E0 -> bt + (xs - 1) * l2 <= 10 ->
  exists d qs, __init__ S0 N0 E0 = Ok d /\
    cdf xs (World d so r) = (Ok qs, World d so r) /\
    ((forall k, (k < size)%nat -> 0 <= r k <= qs) ->
     exists out,
       rvs size (World d so r) = (Ok out, World d so (fun k => r (size + k)%nat))
       /\ length out = size
       /\ Forall (fun v => 1 <= v <= xs) out).
Proof.
  intros Hb Hl Hbt Hl2 HE Hxs _.
  destruct (pea_init S0 N0 E0 bt l2 Hb Hl Hbt Hl2 HE) as [nf [Hnf [Hnl Hinit]]].
  do 2 eexists. split; [exact Hinit|].
  split; [apply pea_cdf_in; lra|]. intros Hr.
  unfold rvs. cbn [bind M_monad uniform_rvs obj stdout rng].
  set (g := fun q => (- ln (1 - 1 / (1 / (1 - exp (- bt)) - q * nf * l2)) - (bt - l2)) / l2).
  assert (Hg : forall q,
            0 <= q <= (1 / (1 - exp (- bt)) - 1 / (1 - exp (- (bt + (xs - 1) * l2))))
                      / l2 / nf ->
            ppf q (World (New 1 E0 N0 bt l2 (bt + (E0 - 1) * l2) nf) so
                         (fun k => r (size + k)%nat))
            = (Ok (g q), World (New 1 E0 N0 bt l2 (bt + (E0 - 1) * l2) nf) so
                               (fun k => r (size + k)%nat))
            /\ 1 <= g q <= xs).
  { intros q Hq.
    destruct (pea_ppf_in E0 bt l2 (bt + (E0 - 1) * l2) nf q xs N0 so
                (fun k => r (size + k)%nat) Hbt Hl2
                ltac:(lra) (pea_below_cdf bt l2 nf xs q Hl2 Hnf ltac:(lra) Hq))
      as [x [Hp [Hx [_ Hxg]]]].
    fold (g q) in Hxg. rewrite <- Hxg. now split. }
  assert (Hdraws : forall q, In q (map r (seq 0 size)) ->
            0 <= q <= (1 / (1 - exp (- bt)) - 1 / (1 - exp (- (bt + (xs - 1) * l2))))
                      / l2 / nf).
  { intros q Hin. apply in_map_iff in Hin. destruct Hin as [k [<- Hk]].
    apply in_seq in Hk. apply Hr. lia. }
  exists (map g (map r (seq 0 size))). split; [|split].
  - apply mapM_ok. intros q Hin. now apply Hg, Hdraws.
  - now rewrite !length_map, length_seq.
  - apply Forall_forall. intros v Hv. apply in_map_iff in Hv.
    destruct Hv as [q [<- Hin]]. now apply Hg, Hdraws.
Qed.

Lemma pea_pdf_in (E0 bt l2 sg nf x : R) (n0 : Z) (so : list string) (r : nat -> R) :
  0 < bt -> 0 < l2 -> nf <> 0 -> 1 <= x <= E0 ->
  pdf x (World (New 1 E0 n0 bt l2 sg nf) so r)
  = (Ok (exp (- (bt + (x - 1) * l2)) / (1 - exp (- (bt + (x - 1) * l2))) ^ 2 / nf),
     World (New 1 E0 n0 bt l2 sg nf) so r).
Proof.
  intros Hbt Hl2 Hnf Hx. unfold pdf. cbn -[pow]. rewrite between_true by exact Hx.
  assert (L2 : exp (- (bt + (x - 1) * l2)) < 1) by (apply exp_neg_lt_1; nra).
  rewrite float_div_ok by (apply pow_nonzero; lra). cbn -[pow].
  rewrite float_div_ok by exact Hnf. reflexivity.
Qed.

(** The distribution function and the density on the support, as functions
    of [x] with the exponent written [c + k * x]. *)
Lemma pea_primitive (bt l2 nf x : R) :
  l2 <> 0 -> nf <> 0 -> 1 - exp (l2 - bt + - l2 * x) <> 0 ->
  derivable_pt_lim
    (fun x => (1 / (1 - exp (- bt)) - 1 / (1 - exp (l2 - bt + - l2 * x))) / l2 / nf) x
    (exp (l2 - bt + - l2 * x) / (1 - exp (l2 - bt + - l2 * x)) ^ 2 / nf).
Proof.
  intros Hl2 Hnf Hx.
  pose proof (recip_exp_derivative (l2 - bt) (- l2) x Hx) as Hr.
  pose proof (derivable_pt_lim_minus (fct_cte (1 / (1 - exp (- bt)))) _ x _ _
                (derivable_pt_lim_const _ x) Hr) as Hm.
  pose proof (derivable_pt_lim_scal _ (/ l2 * / nf) _ _ Hm) as Hs.
  apply derivable_pt_lim_ext
    with (f := mult_real_fct (/ l2 * / nf)
                 (minus_fct (fct_cte (1 / (1 - exp (- bt))))
                            (fun x => 1 / (1 - exp (l2 - bt + - l2 * x))))).
  - intros z. unfold mult_real_fct, minus_fct, fct_cte, Rdiv. ring.
  - replace (exp (l2 - bt + - l2 * x) / (1 - exp (l2 - bt + - l2 * x)) ^ 2 / nf)
      with (/ l2 * / nf
            * (0 - - l2 * exp (l2 - bt + - l2 * x) / (1 - exp (l2 - bt + - l2 * x)) ^ 2)).
    + exact Hs.
    + field. repeat split; assumption.
Qed.

Lemma pea_exponent (bt l2 x : R) : - (bt + (x - 1) * l2) = l2 - bt + - l2 * x.
Proof. ring. Qed.

(** X7.  [psi_epsilon_approx.pdf] is the density of
    [psi_epsilon_approx.cdf]: on the support it returns a positive number,
    inside the support it is the derivative of [cdf], and its integral over
    [[1, E0]] is 1. *)
Theorem psi_epsilon_approx_pdf_is_density_of_cdf (S0 N0 : Z) (E0 bt l2 : R) :
  get_beta S0 N0 = Ok bt -> get_lambda2 S0 N0 E0 = Ok l2 ->
  0 < bt -> 0 < l2 -> 1 < E0 ->
  exists d, __init__ S0 N0 E0 = Ok d /\
    (forall x so r, 1 <= x <= E0 ->
       exists p, pdf x (World d so r) = (Ok p, World d so r) /\ 0 < p) /\
    (forall x, 1 < x < E0 ->
       derivable_pt_lim (fun t => value (cdf t) d) x (value (pdf x) d)) /\
    inhabited (Riemann_integrable (fun x => value (pdf x) d) 1 E0) /\
    forall pr : Riemann_integrable (fun x => value (pdf x) d) 1 E0, RiemannInt pr = 1.
Proof.
  intros Hb Hl Hbt Hl2 HE.
  destruct (pea_init S0 N0 E0 bt l2 Hb Hl Hbt Hl2 HE) as [nf [Hnf [Hnl Hinit]]].
  eexists. split; [exact Hinit|].
  set (g := fun x => exp (l2 - bt + - l2 * x) / (1 - exp (l2 - bt + - l2 * x)) ^ 2 / nf).
  set (F := fun x => (1 / (1 - exp (- bt)) - 1 / (1 - exp (l2 - bt + - l2 * x))) / l2 / nf).
  assert (Le : forall t, 1 <= t -> exp (l2 - bt + - l2 * t) < 1).
  { intros t Ht. rewrite <- pea_exponent. apply exp_neg_lt_1. nra. }
  assert (Hc : forall x, 1 <= x <= E0 -> continuity_pt g x).
  { intros x Hx. unfold g. reg. apply pow_nonzero. specialize (Le x). lra. }
  assert (HF : forall x, 1 <= x <= E0 -> derivable_pt_lim F x (g x)).
  { intros x Hx. apply pea_primitive; try lra. specialize (Le x). lra. }
  assert (Hfg : forall x, 1 <= x <= E0 ->
            g x = value (pdf x) (New 1 E0 N0 bt l2 (bt + (E0 - 1) * l2) nf)).
  { intros x Hx. unfold value. rewrite pea_pdf_in by lra. cbn [fst].
    unfold g. now rewrite pea_exponent. }
  split; [|split; [|split]].
  - intros x so r Hx. eexists. split; [apply pea_pdf_in; lra|].
    assert (L : exp (- (bt + (x - 1) * l2)) < 1) by (apply exp_neg_lt_1; nra).
    repeat apply Rdiv_lt_0_compat; try lra; [apply exp_pos|].
    apply pow_lt. lra.
  - intros x Hx.
    apply derivable_pt_lim_locally_ext with (f := F) (a := 1) (b := E0); [exact Hx | |].
    + intros t Ht. unfold value. rewrite pea_cdf_in by lra. cbn [fst].
      unfold F. now rewrite pea_exponent.
    + rewrite <- Hfg by lra. apply HF. lra.
  - constructor. apply (integrable_on_support _ g); try assumption. lra.
  - intros pr. rewrite (integral_on_support _ g F) by (try assumption; lra).
    unfold F. rewrite <- !pea_exponent.
    replace (bt + (1 - 1) * l2) with bt by ring. rewrite <- Hnl.
    generalize (1 / (1 - exp (- bt))). intros A. field. split; lra.
Qed.

(** X8.  The degenerate support [E0 = 1]: construction succeeds with
    [norm_factor = 0], after which both [cdf] and [pdf] raise
    [ZeroDivisionError] at the only point of the support. *)
Theorem psi_epsilon_approx_degenerate_support (S0 N0 : Z) (bt l2 : R) :
  get_beta S0 N0 = Ok bt -> get_lambda2 S0 N0 1 = Ok l2 ->
  0 < bt -> 0 < l2 ->
  exists d, __init__ S0 N0 1 = Ok d /\ norm_factor d = 0 /\
    forall so r,
      cdf 1 (World d so r) = (Raise ZeroDivisionError, World d so r) /\
      pdf 1 (World d so r) = (Raise ZeroDivisionError, World d so r).
Proof.
  intros Hb Hl Hbt Hl2.
  assert (L1 : exp (- bt) < 1) by (apply exp_neg_lt_1; lra).
  assert (L2 : exp (- (bt + (1 - 1) * l2)) < 1) by (apply exp_neg_lt_1; lra).
  assert (Hz : (1 / (1 - exp (- bt)) - 1 / (1 - exp (- (bt + (1 - 1) * l2)))) / l2 = 0).
  { replace (bt + (1 - 1) * l2) with bt by ring. unfold Rdiv. ring. }
  unfold __init__. rewrite Hb, Hl. cbn.
  rewrite !float_div_ok by lra. cbn. rewrite float_div_ok by lra. cbn.
  eexists. split; [reflexivity|]. split; [exact Hz|]. intros so r.
  rewrite Hz. split.
  - unfold cdf. cbn. rewrite between_true by lra.
    rewrite !float_div_ok by lra. cbn. rewrite float_div_ok by lra. cbn.
    now rewrite float_div_zero.
  - unfold pdf. cbn. rewrite between_true by lra.
    rewrite float_div_ok by (intros Hq; nra). cbn.
    now rewrite float_div_zero.
Qed.

End psi_epsilon_approx_more.

Section psi_epsilon_approx_examples.
Import psi_epsilon_approx.

Lemma psi_epsilon_approx_cdf_distribution_witness :
  (get_beta (Collaborators := stub None) 4 16 = Ok 1
   /\ get_lambda2 (Collaborators := stub None) 4 16 20 = Ok 1
   /\ 0 < 1 /\ 0 < 1 /\ 1 < 20)
  /\ exists d, __init__ (H := stub None) 4 16 20 = Ok d /\
       (forall x so r, x <= 1 -> cdf x (World d so r) = (Ok 0, World d so r)) /\
       (forall x so r, 20 <= x -> cdf x (World d so r) = (Ok 1, World d so r)) /\
       (forall x y so r, 1 <= x -> x < y -> y <= 20 ->
          exists p q, cdf x (World d so r) = (Ok p, World d so r)
                      /\ cdf y (World d so r) = (Ok q, World d so r) /\ p < q).
Proof.
  assert (H1 : 0 < 1) by lra.
  assert (H2 : 1 < 20) by lra.
  split; [repeat split; try assumption; lra|].
  exact (psi_epsilon_approx_cdf_distribution (H := stub None) 4 16 20 1 1
           eq_refl eq_refl H1 H1 H2).
Defined.

Lemma psi_epsilon_approx_cdf_ppf_roundtrip_witness :
  (get_beta (Collaborators := stub None) 4 16 = Ok 1
   /\ get_lambda2 (Collaborators := stub None) 4 16 20 = Ok 1
   /\ 0 < 1 /\ 0 < 1 /\ 1 < 20 /\ 1 <= 5 <= 20 /\ 1 + (5 - 1) * 1 <= 10)
  /\ exists d qs, __init__ (H := stub None) 4 16 20 = Ok d /\
       forall so r,
         cdf 5 (World d so r) = (Ok qs, World d so r) /\
         forall q, 0 <= q <= qs ->
           exists x,
             ppf q (World d so r) = (Ok x, World d so r) /\ 1 <= x <= 5 /\
             cdf x (World d so r) = (Ok q, World d so r).
Proof.
  assert (H1 : 0 < 1) by lra.
  assert (H2 : 1 < 20) by lra.
  assert (H3 : 1 <= 5 <= 20) by lra.
  assert (H4 : 1 + (5 - 1) * 1 <= 10) by lra.
  split; [repeat split; try assumption; lra|].
  exact (psi_epsilon_approx_cdf_ppf_roundtrip (H := stub None) 4 16 20 1 1 5
           eq_refl eq_refl H1 H1 H2 H3 H4).
Defined.

Lemma psi_epsilon_approx_rvs_in_support_witness :
  (get_beta (Collaborators := stub None) 4 16 = Ok 1
   /\ get_lambda2 (Collaborators := stub None) 4 16 20 = Ok 1
   /\ 0 < 1 /\ 0 < 1 /\ 1 < 20 /\ 1 <= 5 <= 20 /\ 1 + (5 - 1) * 1 <= 10)
  /\ exists d qs, __init__ (H := stub None) 4 16 20 = Ok d /\
       cdf 5 (World d [] half_rng) = (Ok qs, World d [] half_rng) /\
       ((forall k, (k < 3)%nat -> 0 <= half_rng k <= qs) ->
        exists out,
          rvs 3 (World d [] half_rng)
          = (Ok out, World d [] (fun k => half_rng (3 + k)%nat))
          /\ length out = 3%nat
          /\ Forall (fun v => 1 <= v <= 5) out).
Proof.
  assert (H1 : 0 < 1) by lra.
  assert (H2 : 1 < 20) by lra.
  assert (H3 : 1 <= 5 <= 20) by lra.
  assert (H4 : 1 + (5 - 1) * 1 <= 10) by lra.
  split; [repeat split; try assumption; lra|].
  exact (psi_epsilon_approx_rvs_in_support (H := stub None) 4 16 20 1 1 5 3 [] half_rng
           eq_refl eq_refl H1 H1 H2 H3 H4).
Defined.

Lemma psi_epsilon_approx_pdf_is_density_of_cdf_witness :
  (get_beta (Collaborators := stub None) 4 16 = Ok 1
   /\ get_lambda2 (Collaborators := stub None) 4 16 20 = Ok 1
   /\ 0 < 1 /\ 0 < 1 /\ 1 < 20)
  /\ exists d, __init__ (H := stub None) 4 16 20 = Ok d /\
       (forall x so r, 1 <= x <= 20 ->
          exists p, pdf x (World d so r) = (Ok p, World d so r) /\ 0 < p) /\
       (forall x, 1 < x < 20 ->
          derivable_pt_lim (fun t => value (cdf t) d) x (value (pdf x) d)) /\
       inhabited (Riemann_integrable (fun x => value (pdf x) d) 1 20) /\
       forall pr : Riemann_integrable (fun x => value (pdf x) d) 1 20,
         RiemannInt pr = 1.
Proof.
  assert (H1 : 0 < 1) by lra.
  assert (H2 : 1 < 20) by lra.
  split; [repeat split; try assumption; lra|].
  exact (psi_epsilon_approx_pdf_is_density_of_cdf (H := stub None) 4 16 20 1 1
           eq_refl eq_refl H1 H1 H2).
Defined.

Lemma psi_epsilon_approx_degenerate_support_witness :
  (get_beta (Collaborators := stub None) 4 16 = Ok 1
   /\ get_lambda2 (Collaborators := stub None) 4 16 1 = Ok 1
   /\ 0 < 1 /\ 0 < 1)
  /\ exists d, __init__ (H := stub None) 4 16 1 = Ok d /\ norm_factor d = 0 /\
       forall so r,
         cdf 1 (World d so r) = (Raise ZeroDivisionError, World d so r) /\
         pdf 1 (World d so r) = (Raise ZeroDivisionError, World d so r).
Proof.
  assert (H1 : 0 < 1) by lra.
  split; [repeat split; try assumption; lra|].
  exact (psi_epsilon_approx_degenerate_support (H := stub None) 4 16 1 1
           eq_refl eq_refl H1 H1).
Defined.

End psi_epsilon_approx_examples.

(** ** [theta_epsilon]: normalization, logarithm and sampling *)

Section theta_epsilon_more.
Import theta_epsilon.
Context `{Collaborators}.

Lemma te_init (S0 N0 : Z) (E0 bt l2 : R) :
  get_beta S0 N0 = Ok bt -> get_lambda2 S0 N0 E0 = Ok l2 ->
  __init__ S0 N0 E0 = Ok (New 1 E0 bt l2 (bt - l2) (bt + (E0 - 1) * l2)).
Proof. intros Hb Hl. unfold __init__. rewrite Hb, Hl. reflexivity. Qed.

Lemma te_norm_pos (E0 bt l2 : R) (n : Z) :
  0 < l2 -> 1 < E0 -> (1 <= n)%Z ->
  0 < exp (- bt * IZR n) - exp (- (bt + (E0 - 1) * l2) * IZR n).
Proof.
  intros Hl2 HE Hn. assert (1 <= IZR n) by (apply IZR_le; lia).
  assert (0 < (E0 - 1) * l2) by nra.
  apply Rlt_0_minus. apply exp_increasing. nra.
Qed.

Lemma te_pdf_value (d : t) (x : R) (n : Z) (so : list string) (r : nat -> R) :
  exp (- beta d * IZR n) - exp (- sigma d * IZR n) <> 0 ->
  pdf x n (World d so r)
  = (Ok (lambda2 d * IZR n * exp (- (lambda1 d + lambda2 d * x) * IZR n)
         / (exp (- beta d * IZR n) - exp (- sigma d * IZR n))),
     World d so r).
Proof. intros HD. unfold pdf. cbn. now rewrite float_div_ok. Qed.

(** X9.  With [lambda2 > 0], [E0 > 1] and [n >= 1], [theta_epsilon.pdf]
    is, for the given [n], a probability density on [[1, E0]]: it returns a
    positive number at every point of the support and its integral over the
    support is 1. *)
Theorem theta_epsilon_pdf_integrates_to_one (S0 N0 : Z) (E0 bt l2 : R) (n : Z) :
  get_beta S0 N0 = Ok bt -> get_lambda2 S0 N0 E0 = Ok l2 ->
  0 < l2 -> 1 < E0 -> (1 <= n)%Z ->
  exists d, __init__ S0 N0 E0 = Ok d /\
    (forall x so r, 1 <= x <= E0 ->
       exists p, pdf x n (World d so r) = (Ok p, World d so r) /\ 0 < p) /\
    inhabited (Riemann_integrable (fun x => value (pdf x n) d) 1 E0) /\
    forall pr : Riemann_integrable (fun x => value (pdf x n) d) 1 E0,
      RiemannInt pr = 1.
Proof.
  intros Hb Hl Hl2 HE Hn. eexists. split; [apply (te_init _ _ _ bt l2); assumption|].
  pose proof (te_norm_pos E0 bt l2 n Hl2 HE Hn) as HD.
  assert (Hn1 : 1 <= IZR n) by (apply IZR_le; lia).
  set (D := exp (- bt * IZR n) - exp (- (bt + (E0 - 1) * l2) * IZR n)) in *.
  set (c := exp (- (bt - l2) * IZR n)).
  set (k := - l2 * IZR n).
  set (gf := fun x => l2 * IZR n * c / D * exp (k * x)).
  set (F := fun x => - c / D * exp (k * x)).
  assert (Hc : forall x, 1 <= x <= E0 -> continuity_pt gf x).
  { intros x _. unfold gf. reg. }
  assert (HF : forall x, 1 <= x <= E0 -> derivable_pt_lim F x (gf x)).
  { intros x _. unfold F, gf.
    replace (l2 * IZR n * c / D * exp (k * x)) with (- c / D * (k * exp (k * x)))
      by (unfold k; field; lra).
    apply exp_scaled_derivative. }
  assert (Hfg : forall x, 1 <= x <= E0 ->
            gf x = value (pdf x n) (New 1 E0 bt l2 (bt - l2) (bt + (E0 - 1) * l2))).
  { intros x Hx. unfold value. rewrite te_pdf_value by (cbn; fold D; lra).
    cbn [fst lambda1 lambda2 beta sigma]. fold D. unfold gf, c, k.
    replace (- (bt - l2 + l2 * x) * IZR n)
      with (- (bt - l2) * IZR n + - l2 * IZR n * x) by ring.
    rewrite exp_plus. field. lra. }
  split; [|split].
  - intros x so r Hx. eexists. split; [apply te_pdf_value; cbn; fold D; lra|].
    cbn [lambda1 lambda2 beta sigma]. fold D.
    apply Rdiv_lt_0_compat; [|exact HD].
    apply Rmult_lt_0_compat; [nra | apply exp_pos].
  - constructor. apply (integrable_on_support _ gf); try assumption. lra.
  - intros pr. rewrite (integral_on_support _ gf F) by (try assumption; lra).
    assert (E1 : c * exp (k * 1) = exp (- bt * IZR n)).
    { unfold c, k. rewrite <- exp_plus. f_equal. ring. }
    assert (E2 : c * exp (k * E0) = exp (- (bt + (E0 - 1) * l2) * IZR n)).
    { unfold c, k. rewrite <- exp_plus. f_equal. ring. }
    unfold F.
    replace (- c / D * exp (k * E0) - - c / D * exp (k * 1))
      with ((c * exp (k * 1) - c * exp (k * E0)) / D) by (field; lra).
    rewrite E1, E2. fold D. field. lra.
Qed.

(** X10.  Under the same conditions, and with the two exponents of the
    density within the range of [math.exp] (both [(lambda1 + lambda2 * x) * n]
    and [beta * n] between -300 and 300), [theta_epsilon.logpdf x n] returns
    the natural logarithm of what [theta_epsilon.pdf x n] returns. *)
Theorem theta_epsilon_logpdf_is_log_pdf (S0 N0 : Z) (E0 bt l2 x : R) (n : Z) :
  get_beta S0 N0 = Ok bt -> get_lambda2 S0 N0 E0 = Ok l2 ->
  0 < l2 -> 1 < E0 -> (1 <= n)%Z ->
  - 300 <= (bt - l2 + l2 * x) * IZR n <= 300 ->
  - 300 <= bt * IZR n <= 300 ->
  exists d, __init__ S0 N0 E0 = Ok d /\
    forall so r, exists p,
      pdf x n (World d so r) = (Ok p, World d so r) /\ 0 < p /\
      logpdf x n (World d so r) = (Ok (ln p), World d so r).
Proof.
  intros Hb Hl Hl2 HE Hn _ _.
  eexists. split; [apply (te_init _ _ _ bt l2); assumption|]. intros so r.
  pose proof (te_norm_pos E0 bt l2 n Hl2 HE Hn) as HD.
  assert (Hn1 : 1 <= IZR n) by (apply IZR_le; lia).
  eexists. split; [apply te_pdf_value; cbn; lra|].
  cbn [lambda1 lambda2 beta sigma].
  pose proof (exp_pos (- (bt - l2 + l2 * x) * IZR n)) as Pe.
  assert (Hnum : 0 < l2 * IZR n * exp (- (bt - l2 + l2 * x) * IZR n)).
  { apply Rmult_lt_0_compat; [nra | exact Pe]. }
  split; [apply Rdiv_lt_0_compat; assumption|].
  unfold logpdf. cbn.
  rewrite np_log_ok by lra. cbn. rewrite np_log_ok by lra. cbn.
  rewrite np_log_ok by exact HD. cbn.
  do 2 f_equal.
  rewrite ln_quot by assumption.
  rewrite !ln_mult by (try lra; nra). rewrite ln_exp. ring.
Qed.

Lemma te_resample_bounded (fuel : nat) (n : Z) (rand_exp v : R) (w w' : world t) :
  resample fuel n rand_exp w = (Ok v, w') -> v <= b (obj w) /\ obj w' = obj w.
Proof.
  revert rand_exp w. induction fuel as [|fuel IH]; intros rand_exp w; cbn.
  - destruct (Rltb (b (obj w)) rand_exp) eqn:Hcmp; cbn; [discriminate|].
    intros Heq. injection Heq as <- <-. split; [|reflexivity].
    unfold Rltb in Hcmp. destruct (Rlt_dec (b (obj w)) rand_exp); [discriminate | lra].
  - destruct (Rltb (b (obj w)) rand_exp) eqn:Hcmp; cbn.
    + intros Hrun. apply IH in Hrun. exact Hrun.
    + intros Heq. injection Heq as <- <-. split; [|reflexivity].
      unfold Rltb in Hcmp. destruct (Rlt_dec (b (obj w)) rand_exp); [discriminate | lra].
Qed.

Lemma te_round_bounded (fuel : nat) (n : Z) (v : R) (w w1 : world t) :
  (self <- this ;;
   rand_exp <- trunc_expon_rvs (lambda2 self * IZR n) 1 ;;
   resample fuel n rand_exp) w = (Ok v, w1) ->
  v <= b (obj w) /\ obj w1 = obj w.
Proof.
  unfold trunc_expon_rvs, draw. cbn [bind M_monad this ret].
  intros Hrun. apply te_resample_bounded in Hrun. exact Hrun.
Qed.

(** Whatever the generator delivers, a sample that is returned has the
    requested length and no value above the upper bound. *)
Lemma te_rvs_bounded (fuel : nat) (n size : Z) (out : list R) (w w' : world t) :
  rvs fuel n size w = (Ok out, w') ->
  length out = Z.to_nat size /\ Forall (fun v => v <= b (obj w)) out.
Proof.
  unfold rvs.
  assert (Hl : Z.to_nat size = length (arange 0 size))
    by (rewrite arange_length; f_equal; lia).
  rewrite Hl. clear Hl. generalize (arange 0 size). intros l. revert out w.
  induction l as [|i l IH]; intros out w.
  - cbn. intros Heq. injection Heq as <- _. split; [reflexivity | constructor].
  - intros Hrun. apply mapM_cons_inv in Hrun.
    destruct Hrun as [v [w1 [vs [Hres [Hrest ->]]]]].
    apply te_round_bounded in Hres. destruct Hres as [Hv Hobj].
    apply IH in Hrest. destruct Hrest as [Hlen Hall]. rewrite Hobj in Hall.
    split; [cbn; now rewrite Hlen | constructor; assumption].
Qed.

(** The inner loop ends as soon as a draw is accepted, provided one of the
    next [fuel] draws is. *)
Lemma te_resample_total (fuel : nat) (n : Z) (x : R) (w : world t) :
  (x <= b (obj w)
   \/ exists k, (k < fuel)%nat
        /\ trunc_expon_ppf (rng w k) (lambda2 (obj w) * IZR n) 1 <= b (obj w)) ->
  exists v w' m,
    resample fuel n x w = (Ok v, w') /\ obj w' = obj w
    /\ forall i, rng w' i = rng w (m + i)%nat.
Proof.
  revert x w. induction fuel as [|fuel IH]; intros x w Hacc.
  - destruct Hacc as [Hx | [k [Hk _]]]; [|lia].
    exists x, w, 0%nat. cbn. rewrite Rltb_false by exact Hx. cbn. repeat split.
  - destruct (Rle_lt_dec x (b (obj w))) as [Hx | Hx].
    + exists x, w, 0%nat. cbn. rewrite Rltb_false by exact Hx. cbn. repeat split.
    + destruct Hacc as [Hle | [k [Hk Hok]]]; [lra|].
      destruct (IH (trunc_expon_ppf (rng w 0%nat) (lambda2 (obj w) * IZR n) 1)
                   (World (obj w) (stdout w) (fun k => rng w (Datatypes.S k))))
        as [v [w' [m [Hrun [Hobj Hrng]]]]].
      * cbn [obj rng]. destruct k as [|k]; [now left|].
        right. exists k. split; [lia | exact Hok].
      * exists v, w', (Datatypes.S m). cbn [resample bind M_monad this].
        rewrite Rltb_true by exact Hx.
        unfold trunc_expon_rvs, draw. cbn [bind M_monad ret].
        rewrite Hrun. split; [reflexivity|]. split; [exact Hobj|].
        intros i. rewrite Hrng. reflexivity.
Qed.

Lemma te_round_total (fuel : nat) (n : Z) (w : world t) :
  (exists k, (k <= fuel)%nat
     /\ trunc_expon_ppf (rng w k) (lambda2 (obj w) * IZR n) 1 <= b (obj w)) ->
  exists v w' m,
    (self <- this ;;
     rand_exp <- trunc_expon_rvs (lambda2 self * IZR n) 1 ;;
     resample fuel n rand_exp) w = (Ok v, w')
    /\ obj w' = obj w
    /\ forall i, rng w' i = rng w (m + i)%nat.
Proof.
  intros [k [Hk Hok]].
  destruct (te_resample_total fuel n
              (trunc_expon_ppf (rng w 0%nat) (lambda2 (obj w) * IZR n) 1)
              (World (obj w) (stdout w) (fun k => rng w (Datatypes.S k))))
    as [v [w' [m [Hrun [Hobj Hrng]]]]].
  - cbn [obj rng]. destruct k as [|k]; [now left|].
    right. exists k. split; [lia | exact Hok].
  - exists v, w', (Datatypes.S m).
    unfold trunc_expon_rvs, draw. cbn [bind M_monad this ret].
    rewrite Hrun. split; [reflexivity|]. split; [exact Hobj|].
    intros i. rewrite Hrng. reflexivity.
Qed.

(** X11.  The rejection loop of [theta_epsilon.rvs]: if among any
    [fuel + 1] consecutive draws of the generator at least one gives a value
    of the truncated exponential that does not exceed the upper bound [b],
    then [rvs] with [fuel] re-draws allowed per value returns a sample of
    [size] values, none of which exceeds [b], and leaves the object
    unchanged. *)
Theorem theta_epsilon_rvs_returns_bounded_sample (fuel : nat) (n size : Z)
    (w : world t) :
  (forall j, exists k, (k <= fuel)%nat
     /\ trunc_expon_ppf (rng w (j + k)%nat) (lambda2 (obj w) * IZR n) 1 <= b (obj w)) ->
  exists out w',
    rvs fuel n size w = (Ok out, w') /\ obj w' = obj w
    /\ length out = Z.to_nat size
    /\ Forall (fun v => v <= b (obj w)) out.
Proof.
  intros Hwin.
  assert (Hrun : exists out w', rvs fuel n size w = (Ok out, w') /\ obj w' = obj w).
  { unfold rvs. generalize (arange 0 size). intros l. revert w Hwin.
    induction l as [|i l IH]; intros w Hwin.
    - exists [], w. split; reflexivity.
    - destruct (te_round_total fuel n w) as [v [w1 [m [Hres [Hobj Hrng]]]]].
      { destruct (Hwin 0%nat) as [k Hk]. exists k. exact Hk. }
      destruct (IH w1) as [vs [w2 [Hrest Hobj2]]].
      { intros j. destruct (Hwin (m + j)%nat) as [k [Hk Hok]].
        exists k. split; [exact Hk|].
        rewrite Hrng, Hobj. now rewrite Nat.add_assoc. }
      exists (v :: vs), w2. split; [|now rewrite Hobj2].
      exact (mapM_cons_ok _ i l w w1 w2 v vs Hres Hrest). }
  destruct Hrun as [out [w' [Hrun Hobj]]].
  exists out, w'. split; [exact Hrun|]. split; [exact Hobj|].
  exact (te_rvs_bounded fuel n size out w w' Hrun).
Qed.

Lemma te_resample_rejects (fuel : nat) (n : Z) (x : R) (w : world t) :
  b (obj w) < x ->
  (forall k, b (obj w) < trunc_expon_ppf (rng w k) (lambda2 (obj w) * IZR n) 1) ->
  fst (resample fuel n x w) = Undef OutOfFuel.
Proof.
  revert x w. induction fuel as [|fuel IH]; intros x w Hx Hrej.
  - cbn. rewrite Rltb_true by exact Hx. reflexivity.
  - cbn [resample bind M_monad this]. rewrite Rltb_true by exact Hx.
    unfold trunc_expon_rvs, draw. cbn [bind M_monad ret].
    apply IH; cbn [obj rng].
    + apply Hrej.
    + intros k. apply Hrej.
Qed.

(** X12.  If every draw of the generator gives a value of the truncated
    exponential above the upper bound [b], the inner [while] loop of
    [theta_epsilon.rvs] never ends: for [size >= 1] the call does not return,
    however many re-draws are allowed. *)
Theorem theta_epsilon_rvs_all_rejected (fuel : nat) (n size : Z) (w : world t) :
  (1 <= size)%Z ->
  (forall k, b (obj w) < trunc_expon_ppf (rng w k) (lambda2 (obj w) * IZR n) 1) ->
  fst (rvs fuel n size w) = Undef OutOfFuel.
Proof.
  intros Hsize Hrej. unfold rvs. rewrite (arange_cons 0 size) by lia.
  cbn [mapM bind M_monad this]. unfold trunc_expon_rvs, draw. cbn [bind M_monad ret].
  pose proof (te_resample_rejects fuel n
                (trunc_expon_ppf (rng w 0%nat) (lambda2 (obj w) * IZR n) 1)
                (World (obj w) (stdout w) (fun k => rng w (Datatypes.S k)))) as Hr.
  cbn [obj rng] in Hr. specialize (Hr (Hrej 0%nat) (fun k => Hrej (Datatypes.S k))).
  destruct (resample fuel n _ _) as [[v | ex | gp] w1]; cbn [fst] in Hr;
    try discriminate.
  cbn [fst]. injection Hr as ->. reflexivity.
Qed.

End theta_epsilon_more.

Section theta_epsilon_examples.
Import theta_epsilon.

Lemma theta_epsilon_pdf_integrates_to_one_witness :
  (get_beta (Collaborators := stub None) 4 16 = Ok 1
   /\ get_lambda2 (Collaborators := stub None) 4 16 20 = Ok 1
   /\ 0 < 1 /\ 1 < 20 /\ (1 <= 2)%Z)
  /\ exists d, __init__ (H := stub None) 4 16 20 = Ok d /\
       (forall x so r, 1 <= x <= 20 ->
          exists p, pdf x 2 (World d so r) = (Ok p, World d so r) /\ 0 < p) /\
       inhabited (Riemann_integrable (fun x => value (pdf x 2) d) 1 20) /\
       forall pr : Riemann_integrable (fun x => value (pdf x 2) d) 1 20,
         RiemannInt pr = 1.
Proof.
  assert (H1 : 0 < 1) by lra.
  assert (H2 : 1 < 20) by lra.
  assert (H3 : (1 <= 2)%Z) by lia.
  split; [repeat split; try assumption; lra|].
  exact (theta_epsilon_pdf_integrates_to_one (H := stub None) 4 16 20 1 1 2
           eq_refl eq_refl H1 H2 H3).
Defined.

Lemma theta_epsilon_logpdf_is_log_pdf_witness :
  (get_beta (Collaborators := stub None) 4 16 = Ok 1
   /\ get_lambda2 (Collaborators := stub None) 4 16 20 = Ok 1
   /\ 0 < 1 /\ 1 < 20 /\ (1 <= 2)%Z
   /\ - 300 <= (1 - 1 + 1 * 3) * 2 <= 300
   /\ - 300 <= 1 * 2 <= 300)
  /\ exists d, __init__ (H := stub None) 4 16 20 = Ok d /\
       forall so r, exists p,
         pdf 3 2 (World d so r) = (Ok p, World d so r) /\ 0 < p /\
         logpdf 3 2 (World d so r) = (Ok (ln p), World d so r).
Proof.
  assert (H1 : 0 < 1) by lra.
  assert (H2 : 1 < 20) by lra.
  assert (H3 : (1 <= 2)%Z) by lia.
  assert (H4 : - 300 <= (1 - 1 + 1 * 3) * 2 <= 300) by lra.
  assert (H5 : - 300 <= 1 * 2 <= 300) by lra.
  split; [repeat split; try assumption; lra|].
  exact (theta_epsilon_logpdf_is_log_pdf (H := stub None) 4 16 20 1 1 3 2
           eq_refl eq_refl H1 H2 H3 H4 H5).
Defined.

Lemma half_draw_value :
  trunc_expon_ppf (Collaborators := stub None) (1 / 2) (1 * 1) 1 = 1 - ln (1 - 1 / 2) / (1 * 1).
Proof. reflexivity. Qed.

Lemma ln_half_bounds : - 1 <= ln (1 - 1 / 2) < 0.
Proof.
  replace (1 - 1 / 2) with (/ 2) by lra. rewrite ln_Rinv by lra.
  pose proof (exp_ineq1 1 ltac:(lra)) as He.
  assert (H1 : ln 2 < 1).
  { rewrite <- (ln_exp 1). apply ln_increasing; lra. }
  assert (H0 : 0 < ln 2).
  { rewrite <- ln_1. apply ln_increasing; lra. }
  lra.
Qed.

Lemma theta_epsilon_rvs_returns_bounded_sample_witness :
  (forall j : nat, exists k, (k <= 0)%nat
     /\ trunc_expon_ppf (Collaborators := stub None) (half_rng (j + k)%nat) (1 * 1) 1 <= 2)
  /\ exists out w',
       rvs (H := stub None) 0 1 2 (World (New 1 2 1 1 0 2) [] half_rng) = (Ok out, w')
       /\ obj w' = New 1 2 1 1 0 2
       /\ length out = Z.to_nat 2
       /\ Forall (fun v => v <= 2) out.
Proof.
  assert (H1 : forall j : nat, exists k, (k <= 0)%nat
            /\ trunc_expon_ppf (Collaborators := stub None)
                 (half_rng (j + k)%nat) (1 * 1) 1 <= 2).
  { intros j. exists 0%nat. split; [lia|]. unfold half_rng.
    rewrite half_draw_value. pose proof ln_half_bounds. lra. }
  split; [exact H1|].
  exact (theta_epsilon_rvs_returns_bounded_sample (H := stub None) 0 1 2
           (World (New 1 2 1 1 0 2) [] half_rng) H1).
Defined.

Lemma theta_epsilon_rvs_all_rejected_witness :
  ((1 <= 2)%Z
   /\ forall k : nat,
        1 < trunc_expon_ppf (Collaborators := stub None) (half_rng k) (1 * 1) 1)
  /\ fst (rvs (H := stub None) 5 1 2 (World (New 1 1 1 1 0 1) [] half_rng))
     = Undef OutOfFuel.
Proof.
  assert (H1 : (1 <= 2)%Z) by lia.
  assert (H2 : forall k : nat,
            1 < trunc_expon_ppf (Collaborators := stub None) (half_rng k) (1 * 1) 1).
  { intros k. unfold half_rng. rewrite half_draw_value.
    pose proof ln_half_bounds. lra. }
  split; [split; assumption|].
  exact (theta_epsilon_rvs_all_rejected (H := stub None) 5 1 2
           (World (New 1 1 1 1 0 1) [] half_rng) H1 H2).
Defined.

End theta_epsilon_examples.

(** ** [gamma_agsne]: total mass and the cumulative sum *)

Section gamma_agsne_more.
Import gamma_agsne.

(** X13.  With [beta > 0] and [S >= 1], [gamma_agsne.pmf] evaluated at the
    integers [1 .. S] returns positive masses whose sum is 1: the constant
    [norm] computed at construction normalizes the mass function. *)
Theorem gamma_agsne_pmf_sums_to_one (g s n : Z) (e l1 bt l3 zz : R)
    (so : list string) (r : nat -> R) :
  0 < bt -> (1 <= s)%Z ->
  exists d, __init__ (g, s, n, e) (l1, bt, l3, zz) = Ok d /\
    exists ps,
      mapM (fun i => pmf (PyInt i)) (arange 1 (s + 1)) (World d so r)
      = (Ok ps, World d so r)
      /\ Forall (fun p => 0 < p) ps
      /\ sum ps = 1.
Proof.
  intros Hbt Hs. eexists. split; [now apply gamma_init_ok|].
  pose proof (gamma_norm_pos l1 bt s Hbt Hs) as Hn.
  exists (map (fun i => gamma_weight l1 bt (IZR i) / IZR i / gamma_norm l1 bt s)
              (arange 1 (s + 1))).
  split; [|split].
  - apply mapM_ok. intros i Hi. apply in_arange in Hi.
    rewrite gamma_pmf_int by (cbn [beta norm a b]; first [lra | lia]). reflexivity.
  - apply Forall_forall. intros p Hp. apply in_map_iff in Hp.
    destruct Hp as [i [<- Hi]]. apply in_arange in Hi.
    assert (1 <= IZR i) by (apply IZR_le; lia).
    repeat apply Rdiv_lt_0_compat; try lra. now apply gamma_weight_pos.
  - rewrite (sum_map_scale (fun i => gamma_weight l1 bt (IZR i) / IZR i)).
    fold (gamma_norm l1 bt s). field. lra.
Qed.

(** X14.  What [gamma_agsne.cdf] computes on the support: for [x] in
    [[1, S]] it returns the sum over [i = 1 .. floor x] of [i * pmf i],
    divided by [x], not the sum of [pmf i]; consequently, whenever [S >= 2],
    the value at the upper end of the support is strictly below 1. *)
Theorem gamma_agsne_cdf_weighted_sum (g s n : Z) (e l1 bt l3 zz : R) :
  0 < bt -> (1 <= s)%Z ->
  exists d, __init__ (g, s, n, e) (l1, bt, l3, zz) = Ok d /\
    (forall x so r, 1 <= x <= IZR s ->
       cdf x (World d so r)
       = (Ok (sum (map (fun i => IZR i * value (pmf (PyInt i)) d)
                       (arange 1 (Zfloor x + 1))) / x),
          World d so r)) /\
    ((2 <= s)%Z -> value (cdf (IZR s)) d < 1).
Proof.
  intros Hbt Hs. eexists. split; [now apply gamma_init_ok|].
  pose proof (gamma_norm_pos l1 bt s Hbt Hs) as Hn.
  set (d := New g s n e 1 s l1 bt l3 zz (gamma_norm l1 bt s)).
  assert (Hpmf : forall i, (1 <= i <= s)%Z ->
            value (pmf (PyInt i)) d
            = gamma_weight l1 bt (IZR i) / IZR i / gamma_norm l1 bt s).
  { intros i Hi. unfold value.
    rewrite gamma_pmf_int by (cbn [beta norm a b d]; first [lra | lia]). reflexivity. }
  assert (Hcdf : forall x so r, 1 <= x <= IZR s ->
            cdf x (World d so r)
            = (Ok (sum (map (fun i => gamma_weight l1 bt (IZR i))
                            (arange 1 (Zfloor x + 1))) / x / gamma_norm l1 bt s),
               World d so r)).
  { intros x so r Hx.
    rewrite gamma_cdf_in_support by (cbn [beta norm a b d]; first [lra | lia]).
    cbn [lambda1 beta norm a d]. now rewrite sum_map_scale. }
  split.
  - intros x so r Hx. rewrite Hcdf by exact Hx. do 2 f_equal.
    assert (Hfl : (Zfloor x <= s)%Z).
    { apply le_IZR. pose proof (Zfloor_bound x). lra. }
    rewrite (sum_map_ext_in (fun i => IZR i * value (pmf (PyInt i)) d)
               (fun i => gamma_weight l1 bt (IZR i) / gamma_norm l1 bt s)).
    + rewrite sum_map_scale. field. lra.
    + intros i Hi. apply in_arange in Hi. rewrite Hpmf by lia.
      assert (1 <= IZR i) by (apply IZR_le; lia). field. lra.
  - intros Hs2. unfold value. rewrite Hcdf by (split; [apply IZR_le; lia | lra]).
    cbn [fst]. rewrite ZfloorZ.
    assert (Hlt : sum (map (fun i => gamma_weight l1 bt (IZR i)) (arange 1 (s + 1))) / IZR s
                  < gamma_norm l1 bt s).
    { rewrite <- sum_map_scale. unfold gamma_norm.
      rewrite (arange_cons 1 (s + 1)) by lia. cbn [map]. rewrite !sum_cons.
      assert (Hs1 : 2 <= IZR s) by (apply IZR_le; lia).
      pose proof (gamma_weight_pos l1 bt 1 Hbt ltac:(lra)) as Hw1.
      assert (Hhead : gamma_weight l1 bt 1 / IZR s < gamma_weight l1 bt 1 / 1).
      { unfold Rdiv. apply Rmult_lt_compat_l; [exact Hw1|].
        apply Rinv_lt_contravar; lra. }
      assert (Htail : sum (map (fun i => gamma_weight l1 bt (IZR i) / IZR s)
                               (arange (1 + 1) (s + 1)))
                      <= sum (map (fun i => gamma_weight l1 bt (IZR i) / IZR i)
                                  (arange (1 + 1) (s + 1)))).
      { apply sum_map_le. intros i Hi. apply in_arange in Hi.
        assert (1 <= IZR i) by (apply IZR_le; lia).
        assert (IZR i <= IZR s) by (apply IZR_le; lia).
        pose proof (gamma_weight_pos l1 bt (IZR i) Hbt ltac:(lra)) as Hw.
        unfold Rdiv. apply Rmult_le_compat_l; [lra|].
        apply Rinv_le_contravar; lra. }
      lra. }
    apply Rmult_lt_reg_r with (gamma_norm l1 bt s); [exact Hn|].
    unfold Rdiv at 1. rewrite Rmult_assoc, Rinv_l by lra. lra.
Qed.

End gamma_agsne_more.

Section gamma_agsne_examples.
Import gamma_agsne.

Lemma gamma_agsne_pmf_sums_to_one_witness :
  (0 < 1 /\ (1 <= 3)%Z)
  /\ exists d, __init__ (1%Z, 3%Z, 10%Z, 100) (1, 1, 1, 0) = Ok d /\
       exists ps,
         mapM (fun i => pmf (PyInt i)) (arange 1 (3 + 1)) (World d [] half_rng)
         = (Ok ps, World d [] half_rng)
         /\ Forall (fun p => 0 < p) ps
         /\ sum ps = 1.
Proof.
  assert (H1 : 0 < 1) by lra.
  assert (H2 : (1 <= 3)%Z) by lia.
  split; [split; assumption|].
  exact (gamma_agsne_pmf_sums_to_one 1 3 10 100 1 1 1 0 [] half_rng H1 H2).
Defined.

Lemma gamma_agsne_cdf_weighted_sum_witness :
  (0 < 1 /\ (1 <= 3)%Z)
  /\ exists d, __init__ (1%Z, 3%Z, 10%Z, 100) (1, 1, 1, 0) = Ok d /\
       (forall x so r, 1 <= x <= IZR 3 ->
          cdf x (World d so r)
          = (Ok (sum (map (fun i => IZR i * value (pmf (PyInt i)) d)
                          (arange 1 (Zfloor x + 1))) / x),
             World d so r)) /\
       ((2 <= 3)%Z -> value (cdf (IZR 3)) d < 1).
Proof.
  assert (H1 : 0 < 1) by lra.
  assert (H2 : (1 <= 3)%Z) by lia.
  split; [split; assumption|].
  exact (gamma_agsne_cdf_weighted_sum 1 3 10 100 1 1 1 0 H1 H2).
Defined.

End gamma_agsne_examples.

(** ** [sad_agsne]: total mass and cumulative sum *)

Section sad_agsne_more.
Import sad_agsne.

Lemma sad_cdf_in (d : t) (x : R) (so : list string) (r : nat -> R) :
  a d = 1%Z -> 1 <= x <= IZR (b d) -> sad_proper (lambda1 d) (beta d) (b d) ->
  norm d <> 0 ->
  cdf x (World d so r)
  = (Ok (sum (map (fun i => sad_term (lambda1 d) (beta d) (IZR i))
                  (arange 1 (Zfloor x + 1))) / norm d),
     World d so r).
Proof.
  intros Ha Hx Hp Hn. unfold cdf. cbn. rewrite Ha.
  rewrite between_true by exact Hx.
  assert (Hfl : (Zfloor x <= b d)%Z).
  { apply le_IZR. pose proof (Zfloor_bound x). lra. }
  rewrite (mapM_ok _ (fun i => sad_term (lambda1 d) (beta d) (IZR i))).
  - cbn. rewrite np_div_ok by exact Hn. reflexivity.
  - intros i Hi. apply in_arange in Hi.
    assert (Hi1 : 1 <= IZR i) by (apply IZR_le; lia).
    destruct (sad_denominator (lambda1 d) (beta d) (IZR i)) as [H0 H1]; [apply Hp; lia|].
    rewrite np_div_ok by lra. cbn. rewrite np_div_ok by lra. reflexivity.
Qed.

Lemma sad_cdf_below (d : t) (x : R) (so : list string) (r : nat -> R) :
  x < IZR (a d) -> cdf x (World d so r) = (Ok 0, World d so r).
Proof.
  intros Hx. unfold cdf. cbn. unfold between.
  rewrite (Rleb_false (IZR (a d)) x), Rltb_true by exact Hx. reflexivity.
Qed.

Lemma sad_cdf_above (d : t) (x : R) (so : list string) (r : nat -> R) :
  IZR (a d) <= IZR (b d) -> IZR (b d) < x ->
  cdf x (World d so r) = (Ok 1, World d so r).
Proof.
  intros Hab Hx. unfold cdf. cbn. unfold between.
  rewrite (Rleb_false x (IZR (b d))), andb_false_r, Rltb_false by lra. reflexivity.
Qed.

Lemma sad_partial_sums (l1 bt : R) (n lo hi : Z) :
  sad_proper l1 bt n -> (1 <= lo)%Z -> (lo <= hi)%Z -> (hi <= n + 1)%Z ->
  0 <= sum (map (fun i => sad_term l1 bt (IZR i)) (arange lo hi)).
Proof.
  intros Hp Hlo Hle Hhi. apply sum_nonneg. apply Forall_forall. intros y Hy.
  apply in_map_iff in Hy. destruct Hy as [i [<- Hi]]. apply in_arange in Hi.
  left. apply sad_term_pos; [apply Hp; lia | apply IZR_le; lia].
Qed.

(** X15.  For parameters proper for [N] (every [lambda1 + beta * i] with
    [1 <= i <= N] positive) and [N >= 1], [sad_agsne.pmf] evaluated at the
    integers [1 .. N] returns positive masses whose sum is 1. *)
Theorem sad_agsne_pmf_sums_to_one (g s n : Z) (e l1 bt l3 zz : R)
    (so : list string) (r : nat -> R) :
  (1 <= n)%Z -> sad_proper l1 bt n ->
  exists d, __init__ (g, s, n, e) (l1, bt, l3, zz) = Ok d /\
    exists ps,
      mapM (fun i => pmf (PyInt i)) (arange 1 (n + 1)) (World d so r)
      = (Ok ps, World d so r)
      /\ Forall (fun p => 0 < p) ps
      /\ sum ps = 1.
Proof.
  intros Hn Hp. eexists. split; [now apply sad_init_ok|].
  pose proof (sad_norm_pos l1 bt n Hn Hp) as Hnorm.
  exists (map (fun i => sad_term l1 bt (IZR i) / sad_norm l1 bt n) (arange 1 (n + 1))).
  split; [|split].
  - apply mapM_ok. intros i Hi. apply in_arange in Hi.
    rewrite sad_pmf_int; cbn [a b lambda1 beta norm]; try reflexivity; try lia; try lra.
    apply Hp. lia.
  - apply Forall_forall. intros p Hin. apply in_map_iff in Hin.
    destruct Hin as [i [<- Hi]]. apply in_arange in Hi.
    apply Rdiv_lt_0_compat; [|lra].
    apply sad_term_pos; [apply Hp; lia | apply IZR_le; lia].
  - rewrite (sum_map_scale (fun i => sad_term l1 bt (IZR i))).
    fold (sad_norm l1 bt n). field. lra.
Qed.

(** X16.  [sad_agsne.cdf] is the distribution function of
    [sad_agsne.pmf]: on [[1, N]] it returns the sum of [pmf i] over
    [i = 1 .. floor x], it returns 0 below 1 and 1 at and beyond [N], and it
    is non-decreasing over all the reals. *)
Theorem sad_agsne_cdf_cumulative (g s n : Z) (e l1 bt l3 zz : R) :
  (1 <= n)%Z -> sad_proper l1 bt n ->
  exists d, __init__ (g, s, n, e) (l1, bt, l3, zz) = Ok d /\
    (forall x so r, 1 <= x <= IZR n ->
       cdf x (World d so r)
       = (Ok (sum (map (fun i => value (pmf (PyInt i)) d) (arange 1 (Zfloor x + 1)))),
          World d so r)) /\
    (forall x so r, x < 1 -> cdf x (World d so r) = (Ok 0, World d so r)) /\
    (forall x so r, IZR n <= x -> cdf x (World d so r) = (Ok 1, World d so r)) /\
    (forall x y so r, x <= y ->
       exists p q, cdf x (World d so r) = (Ok p, World d so r)
                   /\ cdf y (World d so r) = (Ok q, World d so r) /\ p <= q).
Proof.
  intros Hn Hp0. eexists. split; [now apply sad_init_ok|].
  pose proof (sad_norm_pos l1 bt n Hn Hp0) as Hnorm.
  assert (Hn1 : 1 <= IZR n) by (apply IZR_le; lia).
  set (d := New g s n e 1 n l1 bt l3 zz (sad_norm l1 bt n)).
  set (T := fun i : Z => sad_term l1 bt (IZR i)).
  assert (Hcdf : forall x so r, 1 <= x <= IZR n ->
            cdf x (World d so r)
            = (Ok (sum (map T (arange 1 (Zfloor x + 1))) / sad_norm l1 bt n),
               World d so r)).
  { intros x so r Hx.
    rewrite sad_cdf_in; cbn [a b lambda1 beta norm d]; try reflexivity; try assumption; lra. }
  assert (Hfloor : forall x, 1 <= x <= IZR n -> (1 <= Zfloor x <= n)%Z).
  { intros x Hx. pose proof (Zfloor_bound x). split.
    - apply Zfloor_lub. lra.
    - apply le_IZR. lra. }
  assert (Hbelow : forall x so r, x < 1 -> cdf x (World d so r) = (Ok 0, World d so r)).
  { intros x so r Hx. apply sad_cdf_below. cbn. exact Hx. }
  assert (Htop : forall x so r, IZR n <= x -> cdf x (World d so r) = (Ok 1, World d so r)).
  { intros x so r [Hx | <-].
    - apply sad_cdf_above; cbn; lra.
    - rewrite Hcdf by lra. rewrite ZfloorZ.
      change (sum (map T (arange 1 (n + 1)))) with (sad_norm l1 bt n).
      do 2 f_equal. field. lra. }
  assert (Hrange : forall x, 1 <= x <= IZR n ->
            0 <= sum (map T (arange 1 (Zfloor x + 1))) / sad_norm l1 bt n <= 1).
  { intros x Hx. specialize (Hfloor x Hx). split.
    - apply Rmult_le_pos; [|left; now apply Rinv_0_lt_compat].
      apply (sad_partial_sums l1 bt n); try assumption; lia.
    - apply Rmult_le_reg_r with (sad_norm l1 bt n); [exact Hnorm|].
      unfold Rdiv. rewrite Rmult_assoc, Rinv_l, Rmult_1_r, Rmult_1_l by lra.
      unfold sad_norm. rewrite (arange_app 1 (Zfloor x + 1) (n + 1)) by lia.
      rewrite map_app, sum_app.
      pose proof (sad_partial_sums l1 bt n (Zfloor x + 1) (n + 1) Hp0
                    ltac:(lia) ltac:(lia) ltac:(lia)) as Htail.
      unfold T. lra. }
  split; [|split; [exact Hbelow | split; [exact Htop|]]].
  - intros x so r Hx. rewrite Hcdf by exact Hx. do 2 f_equal.
    rewrite <- sum_map_scale. apply sum_map_ext_in.
    intros i Hi. apply in_arange in Hi. specialize (Hfloor x Hx).
    unfold value. rewrite sad_pmf_int; cbn [a b lambda1 beta norm d fst];
      try reflexivity; try lia; try lra.
    apply Hp0. lia.
  - intros x y so r Hxy.
    assert (Hval : forall t, exists p,
              cdf t (World d so r) = (Ok p, World d so r)
              /\ ((t < 1 /\ p = 0) \/ (IZR n <= t /\ p = 1)
                  \/ (1 <= t < IZR n
                      /\ p = sum (map T (arange 1 (Zfloor t + 1))) / sad_norm l1 bt n))).
    { intros t. destruct (Rlt_le_dec t 1) as [Ht1 | Ht1].
      - exists 0. split; [now apply Hbelow | now left].
      - destruct (Rle_lt_dec (IZR n) t) as [Htn | Htn].
        + exists 1. split; [now apply Htop | right; now left].
        + eexists. split; [apply Hcdf; lra|]. right. right. split; [lra | reflexivity]. }
    destruct (Hval x) as [p [Hp Hpc]]. destruct (Hval y) as [q [Hq Hqc]].
    exists p, q. split; [exact Hp|]. split; [exact Hq|].
    destruct Hpc as [[Hx ->] | [[Hx ->] | [Hx ->]]];
      destruct Hqc as [[Hy ->] | [[Hy ->] | [Hy ->]]]; try lra;
      try (apply Hrange; lra).
    pose proof (Hfloor x ltac:(lra)) as Hfx. pose proof (Hfloor y ltac:(lra)) as Hfy.
    pose proof (Zfloor_le x y Hxy) as Hf.
    unfold Rdiv. apply Rmult_le_compat_r; [left; now apply Rinv_0_lt_compat|].
    rewrite (arange_app 1 (Zfloor x + 1) (Zfloor y + 1)) by lia.
    rewrite map_app, sum_app.
    pose proof (sad_partial_sums l1 bt n (Zfloor x + 1) (Zfloor y + 1) Hp0
                  ltac:(lia) ltac:(lia) ltac:(lia)) as Htail.
    unfold T. lra.
Qed.

(** X17.  [sad_agsne.rvs 0] does not return an empty sample: with no draw
    to serve, the first test of the inner loop reads [rand_list[0]] of an
    empty list and the call raises [IndexError]. *)
Theorem sad_agsne_rvs_no_draw_IndexError (g s n : Z) (e l1 bt l3 zz : R)
    (so : list string) (r : nat -> R) :
  (1 <= n)%Z -> sad_proper l1 bt n ->
  exists d, __init__ (g, s, n, e) (l1, bt, l3, zz) = Ok d /\
    rvs 0 (World d so r) = (Raise IndexError, World d so r).
Proof.
  intros Hn Hp. eexists. split; [now apply sad_init_ok|].
  pose proof (sad_norm_pos l1 bt n Hn Hp) as Hnorm.
  unfold rvs. cbn [bind M_monad this uniform_rvs obj stdout rng b seq map].
  change (sorted []) with (@nil R).
  destruct (Z.to_nat (n + 1)) as [|todo] eqn:Htodo; [lia|].
  cbn [sweep bind M_monad].
  rewrite sad_pmf_int; cbn [a b lambda1 beta norm]; try reflexivity; try lia; try lra.
  apply (Hp 1%Z). lia.
Qed.

End sad_agsne_more.

Section sad_agsne_examples.
Import sad_agsne.

Lemma sad_agsne_pmf_sums_to_one_witness :
  ((1 <= 3)%Z /\ sad_proper 1 1 3)
  /\ exists d, __init__ (1%Z, 2%Z, 3%Z, 10) (1, 1, 1, 0) = Ok d /\
       exists ps,
         mapM (fun i => pmf (PyInt i)) (arange 1 (3 + 1)) (World d [] half_rng)
         = (Ok ps, World d [] half_rng)
         /\ Forall (fun p => 0 < p) ps
         /\ sum ps = 1.
Proof.
  assert (H1 : (1 <= 3)%Z) by lia.
  split; [split; [exact H1 | apply sad_proper_1_1]|].
  exact (sad_agsne_pmf_sums_to_one 1 2 3 10 1 1 1 0 [] half_rng H1 (sad_proper_1_1 3)).
Defined.

Lemma sad_agsne_cdf_cumulative_witness :
  ((1 <= 3)%Z /\ sad_proper 1 1 3)
  /\ exists d, __init__ (1%Z, 2%Z, 3%Z, 10) (1, 1, 1, 0) = Ok d /\
       (forall x so r, 1 <= x <= IZR 3 ->
          cdf x (World d so r)
          = (Ok (sum (map (fun i => value (pmf (PyInt i)) d) (arange 1 (Zfloor x + 1)))),
             World d so r)) /\
       (forall x so r, x < 1 -> cdf x (World d so r) = (Ok 0, World d so r)) /\
       (forall x so r, IZR 3 <= x -> cdf x (World d so r) = (Ok 1, World d so r)) /\
       (forall x y so r, x <= y ->
          exists p q, cdf x (World d so r) = (Ok p, World d so r)
                      /\ cdf y (World d so r) = (Ok q, World d so r) /\ p <= q).
Proof.
  assert (H1 : (1 <= 3)%Z) by lia.
  split; [split; [exact H1 | apply sad_proper_1_1]|].
  exact (sad_agsne_cdf_cumulative 1 2 3 10 1 1 1 0 H1 (sad_proper_1_1 3)).
Defined.

Lemma sad_agsne_rvs_no_draw_IndexError_witness :
  ((1 <= 3)%Z /\ sad_proper 1 1 3)
  /\ exists d, __init__ (1%Z, 2%Z, 3%Z, 10) (1, 1, 1, 0) = Ok d /\
       rvs 0 (World d [] half_rng) = (Raise IndexError, World d [] half_rng).
Proof.
  assert (H1 : (1 <= 3)%Z) by lia.
  split; [split; [exact H1 | apply sad_proper_1_1]|].
  exact (sad_agsne_rvs_no_draw_IndexError 1 2 3 10 1 1 1 0 [] half_rng H1
           (sad_proper_1_1 3)).
Defined.

End sad_agsne_examples.

(** ** [sad_agsne.rvs] inverts the cumulative mass *)

Section sad_agsne_quantiles.
Import sad_agsne.








End sad_agsne_quantiles.

Section sad_agsne_quantiles_examples.
Import sad_agsne.


End sad_agsne_quantiles_examples.

(** ** [psi_agsne] as a distribution *)

Section psi_agsne_more.
Import psi_agsne.
Context `{Collaborators}.

Lemma pa_exponent_neg (bt l3 x : R) (m : Z) :
  0 < bt -> 0 < l3 -> 1 <= x -> (1 <= m)%Z ->
  0 < (bt - l3 + x * l3) * IZR m.
Proof.
  intros Hbt Hl3 Hx Hm. assert (1 <= IZR m) by (apply IZR_le; lia).
  assert (0 <= (x - 1) * l3) by nra. nra.
Qed.

Lemma pa_init (g s n : Z) (e l1 bt l3 zz : R) :
  (1 <= s)%Z -> 1 < e -> 0 < bt -> 0 < l3 ->
  0 < psi_agsne_unscaled l1 bt l3 s e
  /\ __init__ (g, s, n, e) (l1, bt, l3, zz)
     = Ok (New g s n e 1 e l1 bt l3 zz (bt - l3) (exp (- l1))
             (psi_agsne_unscaled l1 bt l3 s e)).
Proof.
  intros Hs He Hbt Hl3. split.
  - unfold psi_agsne_unscaled.
    apply Rmult_lt_0_compat; [apply Rdiv_lt_0_compat; lra|].
    apply sum_pos.
    + rewrite arange_cons by lia. discriminate.
    + apply Forall_forall. intros y Hy. apply in_map_iff in Hy.
      destruct Hy as [m [<- Hm]]. apply in_arange in Hm.
      unfold psi_agsne_term. apply Rmult_lt_0_compat; [apply exp_pos|].
      assert (1 <= IZR m) by (apply IZR_le; lia).
      replace (- bt * IZR m) with (- (bt * IZR m)) by lra.
      replace (- (bt - l3 + e * l3) * IZR m) with (- ((bt - l3 + e * l3) * IZR m)) by lra.
      assert (0 < (e - 1) * l3) by nra.
      apply recip_gap_pos; nra.
  - unfold __init__. rewrite float_div_ok by lra. cbn [bind res_monad stop res_exc].
    rewrite (mapM_res_ok _ (psi_agsne_term l1 bt l3 e)); [reflexivity|].
    intros m Hm. apply in_arange in Hm.
    assert (Hm1 : 1 <= IZR m) by (apply IZR_le; lia).
    assert (0 < (e - 1) * l3) by nra.
    rewrite float_div_ok by (apply exp_neq_1; nra). cbn.
    rewrite float_div_ok by (apply exp_neq_1; nra). reflexivity.
Qed.

(** The three branches of [cdf], once the unscaled sum has been computed. *)
Lemma pa_cdf_value (gg s n : Z) (e l1 bt l3 zz enl nm x : R) (so : list string)
    (r : nat -> R) :
  l3 <> 0 -> bt <> 0 -> bt - l3 + x * l3 <> 0 ->
  cdf x (World (New gg s n e 1 e l1 bt l3 zz (bt - l3) enl nm) so r)
  = ((if between 1 x e then float_div (psi_agsne_unscaled l1 bt l3 s x) nm
      else if Rltb x 1 then ret 0 else ret 1) : M t R)
      (World (New gg s n e 1 e l1 bt l3 zz (bt - l3) enl nm) so r).
Proof.
  intros Hl3 Hbt Hg. unfold cdf.
  cbn [bind M_monad this obj lambda1 beta lambda2 lambda3 S a b norm].
  rewrite float_div_ok by exact Hl3. cbn [stop M_exc].
  rewrite (mapM_ok _ (psi_agsne_term l1 bt l3 x)); [reflexivity|].
  intros m Hm. apply in_arange in Hm.
  assert (Hm1 : 1 <= IZR m) by (apply IZR_le; lia).
  rewrite float_div_ok by (apply exp_neq_1; nra). cbn.
  rewrite float_div_ok by (apply exp_neq_1; nra). reflexivity.
Qed.

Lemma pa_cdf_in (gg s n : Z) (e l1 bt l3 zz enl nm x : R) (so : list string)
    (r : nat -> R) :
  0 < l3 -> 0 < bt -> nm <> 0 -> 1 <= x <= e ->
  cdf x (World (New gg s n e 1 e l1 bt l3 zz (bt - l3) enl nm) so r)
  = (Ok (psi_agsne_unscaled l1 bt l3 s x / nm),
     World (New gg s n e 1 e l1 bt l3 zz (bt - l3) enl nm) so r).
Proof.
  intros Hl3 Hbt Hnm Hx.
  assert (0 <= (x - 1) * l3) by nra.
  rewrite pa_cdf_value by lra. rewrite between_true by exact Hx.
  now rewrite float_div_ok.
Qed.

Lemma pa_unscaled_at_1 (l1 bt l3 : R) (s : Z) : psi_agsne_unscaled l1 bt l3 s 1 = 0.
Proof.
  unfold psi_agsne_unscaled.
  rewrite (sum_map_ext_in _ (fun _ => 0 * 0)).
  - rewrite sum_map_mult_l. ring.
  - intros m _. unfold psi_agsne_term.
    replace (- (bt - l3 + 1 * l3) * IZR m) with (- bt * IZR m) by ring. ring.
Qed.

Lemma pa_unscaled_increasing (l1 bt l3 : R) (s : Z) (x y : R) :
  (1 <= s)%Z -> 0 < bt -> 0 < l3 -> 1 <= x -> x < y ->
  psi_agsne_unscaled l1 bt l3 s x < psi_agsne_unscaled l1 bt l3 s y.
Proof.
  intros Hs Hbt Hl3 Hx Hxy. unfold psi_agsne_unscaled.
  apply Rmult_lt_compat_l; [apply Rdiv_lt_0_compat; lra|].
  apply sum_map_lt.
  - rewrite arange_cons by lia. discriminate.
  - intros m Hm. apply in_arange in Hm. unfold psi_agsne_term.
    apply Rmult_lt_compat_l; [apply exp_pos|].
    assert (Hm1 : 1 <= IZR m) by (apply IZR_le; lia).
    assert (Hgap : 0 < 1 / (1 - exp (- ((bt - l3 + x * l3) * IZR m)))
                       - 1 / (1 - exp (- ((bt - l3 + y * l3) * IZR m)))).
    { assert (0 <= (x - 1) * l3) by nra.
      assert (0 < (y - x) * l3) by nra.
      assert (Hgx : 0 < bt - l3 + x * l3) by lra.
      assert (Hgy : bt - l3 + x * l3 < bt - l3 + y * l3) by lra.
      apply recip_gap_pos.
      - apply Rmult_lt_0_compat; lra.
      - apply Rmult_lt_compat_r; lra. }
    replace (- (bt - l3 + x * l3) * IZR m) with (- ((bt - l3 + x * l3) * IZR m)) by lra.
    replace (- (bt - l3 + y * l3) * IZR m) with (- ((bt - l3 + y * l3) * IZR m)) by lra.
    lra.
Qed.

(** X19.  With [S >= 1], [E > 1], [beta > 0] and [lambda3 > 0],
    [psi_agsne.cdf] is a distribution function on the support [[1, E]]: it
    returns 0 at 1, returns 1 at and beyond [E], and is strictly increasing
    in between. *)
Theorem psi_agsne_cdf_distribution (g s n : Z) (e l1 bt l3 zz : R) :
  (1 <= s)%Z -> 1 < e -> 0 < bt -> 0 < l3 ->
  exists d, __init__ (g, s, n, e) (l1, bt, l3, zz) = Ok d /\
    (forall so r, cdf 1 (World d so r) = (Ok 0, World d so r)) /\
    (forall x so r, e <= x -> cdf x (World d so r) = (Ok 1, World d so r)) /\
    (forall x y so r, 1 <= x -> x < y -> y <= e ->
       exists p q, cdf x (World d so r) = (Ok p, World d so r)
                   /\ cdf y (World d so r) = (Ok q, World d so r) /\ p < q).
Proof.
  intros Hs He Hbt Hl3.
  destruct (pa_init g s n e l1 bt l3 zz Hs He Hbt Hl3) as [Hnm Hinit].
  eexists. split; [exact Hinit|]. split; [|split].
  - intros so r. rewrite pa_cdf_in by lra. rewrite pa_unscaled_at_1.
    do 2 f_equal. unfold Rdiv. ring.
  - intros x so r [Hx | <-].
    + assert (0 < (x - 1) * l3) by nra.
      rewrite pa_cdf_value by lra. unfold between.
      rewrite (Rleb_false x e), andb_false_r, Rltb_false by lra. reflexivity.
    + rewrite pa_cdf_in by lra. do 2 f_equal. field. lra.
  - intros x y so r Hx Hxy Hy. do 2 eexists. rewrite !pa_cdf_in by lra.
    split; [reflexivity|]. split; [reflexivity|].
    unfold Rdiv. apply Rmult_lt_compat_r; [now apply Rinv_0_lt_compat|].
    now apply pa_unscaled_increasing.
Qed.

(** X20.  Below the support [psi_agsne.cdf] is not 0 everywhere: the
    unscaled sum is computed before the support is tested, so at
    [x = 1 - beta / lambda3], where [lambda2 + x * lambda3 = 0], the call
    raises [ZeroDivisionError].  Away from that point it returns 0: between
    it and the support, for [1 - beta / (2 * lambda3) <= x < 1], and below
    it, for [x <= 1 - 2 * beta / lambda3], as long as the largest exponent
    [- (lambda2 + x * lambda3) * S] stays within the range of [math.exp]
    (at most 700). *)
Theorem psi_agsne_cdf_below_support (g s n : Z) (e l1 bt l3 zz : R) :
  (1 <= s)%Z -> 1 < e -> 0 < bt -> 0 < l3 ->
  exists d, __init__ (g, s, n, e) (l1, bt, l3, zz) = Ok d /\
    1 - bt / l3 < 1 /\
    (forall so r,
       cdf (1 - bt / l3) (World d so r) = (Raise ZeroDivisionError, World d so r)) /\
    (forall x so r, 1 - bt / (2 * l3) <= x < 1 ->
       cdf x (World d so r) = (Ok 0, World d so r)) /\
    (forall x so r, x <= 1 - 2 * bt / l3 ->
       - (bt - l3 + x * l3) * IZR s <= 700 ->
       cdf x (World d so r) = (Ok 0, World d so r)).
Proof.
  intros Hs He Hbt Hl3.
  destruct (pa_init g s n e l1 bt l3 zz Hs He Hbt Hl3) as [Hnm Hinit].
  eexists. split; [exact Hinit|].
  assert (Hoff : forall x so r, x < 1 -> bt - l3 + x * l3 <> 0 ->
            cdf x (World (New g s n e 1 e l1 bt l3 zz (bt - l3) (exp (- l1))
                            (psi_agsne_unscaled l1 bt l3 s e)) so r)
            = (Ok 0, World (New g s n e 1 e l1 bt l3 zz (bt - l3) (exp (- l1))
                              (psi_agsne_unscaled l1 bt l3 s e)) so r)).
  { intros x so r Hx Hg. rewrite pa_cdf_value by lra. unfold between.
    rewrite (Rleb_false 1 x), Rltb_true by lra. reflexivity. }
  split; [|split; [|split]].
  - assert (0 < bt / l3) by (apply Rdiv_lt_0_compat; lra). lra.
  - intros so r. unfold cdf.
    cbn [bind M_monad this obj lambda1 beta lambda2 lambda3 S a b norm].
    rewrite float_div_ok by lra. cbn [stop M_exc].
    rewrite (arange_cons 1 (s + 1)) by lia. cbn [mapM bind M_monad].
    rewrite float_div_ok by (apply exp_neq_1; lra). cbn [stop M_exc].
    rewrite float_div_raise; [reflexivity|].
    replace (- (bt - l3 + (1 - bt / l3) * l3) * 1) with 0 by (field; lra).
    rewrite exp_0. ring.
  - intros x so r [Hlo Hx]. apply Hoff; [exact Hx|].
    assert (Hmid : (1 - bt / (2 * l3)) * l3 = l3 - bt / 2) by (field; lra).
    assert ((1 - bt / (2 * l3)) * l3 <= x * l3) by (apply Rmult_le_compat_r; lra).
    lra.
  - intros x so r Hx _.
    assert (Hlow : (1 - 2 * bt / l3) * l3 = l3 - 2 * bt) by (field; lra).
    assert (x * l3 <= (1 - 2 * bt / l3) * l3) by (apply Rmult_le_compat_r; lra).
    assert (0 < 2 * bt / l3) by (apply Rdiv_lt_0_compat; lra).
    apply Hoff; lra.
Qed.


(** The summand of the density at [x], with the powers written as
    exponentials. *)
Lemma pa_pdf_in (gg s n : Z) (e l1 bt l3 zz nm x : R) (so : list string)
    (r : nat -> R) :
  global_S = Some s -> 0 < l3 -> 0 < bt -> nm <> 0 -> 1 <= x <= e ->
  pdf x (World (New gg s n e 1 e l1 bt l3 zz (bt - l3) (exp (- l1)) nm) so r)
  = (Ok (sum (map (fun m =>
                     IZR m * exp (- l1 * IZR m) * exp (- (bt - l3 + x * l3) * IZR m)
                     / (1 - exp (- (bt - l3 + x * l3) * IZR m)) ^ 2)
                  (arange 1 (s + 1))) / nm),
     World (New gg s n e 1 e l1 bt l3 zz (bt - l3) (exp (- l1)) nm) so r).
Proof.
  intros HS Hl3 Hbt Hnm Hx.
  assert (0 <= (x - 1) * l3) by nra.
  rewrite (psi_agsne_pdf_bound _ x s) by (cbn; first [assumption | lra]).
  cbn [lambda1 lambda2 lambda3 exp_neg_lambda1 norm]. do 3 f_equal.
  apply sum_map_ext_in. intros m _.
  rewrite <- exp_plus, !powerRZ_exp.
  replace ((- (bt - l3 + x * l3) + - l1) * IZR m)
    with (- l1 * IZR m + - (bt - l3 + x * l3) * IZR m) by ring.
  rewrite exp_plus. unfold Rdiv. ring.
Qed.

Lemma pa_term_derivative (l1 bt l3 x : R) (m : Z) :
  1 - exp (- (bt - l3 + x * l3) * IZR m) <> 0 ->
  derivable_pt_lim (fun t => psi_agsne_term l1 bt l3 t m) x
    (l3 * (IZR m * exp (- l1 * IZR m) * exp (- (bt - l3 + x * l3) * IZR m)
           / (1 - exp (- (bt - l3 + x * l3) * IZR m)) ^ 2)).
Proof.
  intros Hx.
  assert (Hrew : forall t,
            - (bt - l3) * IZR m + - l3 * IZR m * t = - (bt - l3 + t * l3) * IZR m)
    by (intros t; ring).
  rewrite <- (Hrew x) in Hx.
  pose proof (recip_exp_derivative (- (bt - l3) * IZR m) (- l3 * IZR m) x Hx) as Hr.
  pose proof (derivable_pt_lim_minus (fct_cte (1 / (1 - exp (- bt * IZR m)))) _ x _ _
                (derivable_pt_lim_const _ x) Hr) as Hm.
  pose proof (derivable_pt_lim_scal _ (exp (- l1 * IZR m)) _ _ Hm) as Hs.
  apply derivable_pt_lim_ext
    with (f := mult_real_fct (exp (- l1 * IZR m))
                 (minus_fct (fct_cte (1 / (1 - exp (- bt * IZR m))))
                    (fun t => 1 / (1 - exp (- (bt - l3) * IZR m + - l3 * IZR m * t))))).
  - intros t. unfold mult_real_fct, minus_fct, fct_cte, psi_agsne_term.
    now rewrite Hrew.
  - rewrite <- (Hrew x).
    replace (l3 * (IZR m * exp (- l1 * IZR m)
                   * exp (- (bt - l3) * IZR m + - l3 * IZR m * x)
                   / (1 - exp (- (bt - l3) * IZR m + - l3 * IZR m * x)) ^ 2))
      with (exp (- l1 * IZR m)
            * (0 - - l3 * IZR m * exp (- (bt - l3) * IZR m + - l3 * IZR m * x)
                   / (1 - exp (- (bt - l3) * IZR m + - l3 * IZR m * x)) ^ 2)).
    + exact Hs.
    + field. exact Hx.
Qed.

Lemma pa_unscaled_derivative (l1 bt l3 : R) (s : Z) (x : R) :
  0 < bt -> 0 < l3 -> 1 <= x ->
  derivable_pt_lim (psi_agsne_unscaled l1 bt l3 s) x
    (sum (map (fun m =>
                 IZR m * exp (- l1 * IZR m) * exp (- (bt - l3 + x * l3) * IZR m)
                 / (1 - exp (- (bt - l3 + x * l3) * IZR m)) ^ 2)
              (arange 1 (s + 1)))).
Proof.
  intros Hbt Hl3 Hx.
  pose proof (derivable_pt_lim_sum
                (fun m t => psi_agsne_term l1 bt l3 t m)
                (fun m => l3 * (IZR m * exp (- l1 * IZR m)
                                * exp (- (bt - l3 + x * l3) * IZR m)
                                / (1 - exp (- (bt - l3 + x * l3) * IZR m)) ^ 2))
                (arange 1 (s + 1)) x) as Hsum.
  rewrite sum_map_mult_l in Hsum.
  assert (Hside : forall m, In m (arange 1 (s + 1)) ->
            derivable_pt_lim (fun t => psi_agsne_term l1 bt l3 t m) x
              (l3 * (IZR m * exp (- l1 * IZR m) * exp (- (bt - l3 + x * l3) * IZR m)
                     / (1 - exp (- (bt - l3 + x * l3) * IZR m)) ^ 2))).
  { intros m Hm. apply in_arange in Hm. apply pa_term_derivative.
    apply exp_neq_1.
    pose proof (pa_exponent_neg bt l3 x m Hbt Hl3 Hx ltac:(lia)). lra. }
  pose proof (derivable_pt_lim_scal _ (1 / l3) _ _ (Hsum Hside)) as Hs.
  clear Hsum Hside.
  apply derivable_pt_lim_ext
    with (f := mult_real_fct (1 / l3)
                 (fun t => sum (map (fun m => psi_agsne_term l1 bt l3 t m)
                                    (arange 1 (s + 1))))).
  - intros t. reflexivity.
  - match goal with
    | |- derivable_pt_lim _ _ ?v =>
        replace v with (1 / l3 * (l3 * v)) by (field; lra)
    end.
    exact Hs.
Qed.

(** X21.  When the bare name [S] of the summation bound resolves to the
    object's own [S], [psi_agsne.pdf] is the density of [psi_agsne.cdf]: on
    the support it returns a positive number, inside the support it is the
    derivative of [cdf], and its integral over [[1, E]] is 1. *)
Theorem psi_agsne_pdf_is_density_of_cdf (g s n : Z) (e l1 bt l3 zz : R) :
  (1 <= s)%Z -> 1 < e -> 0 < bt -> 0 < l3 ->
  global_S = Some s ->
  exists d, __init__ (g, s, n, e) (l1, bt, l3, zz) = Ok d /\
    (forall x so r, 1 <= x <= e ->
       exists p, pdf x (World d so r) = (Ok p, World d so r) /\ 0 < p) /\
    (forall x, 1 < x < e ->
       derivable_pt_lim (fun t => value (cdf t) d) x (value (pdf x) d)) /\
    inhabited (Riemann_integrable (fun x => value (pdf x) d) 1 e) /\
    forall pr : Riemann_integrable (fun x => value (pdf x) d) 1 e, RiemannInt pr = 1.
Proof.
  intros Hs He Hbt Hl3 HS.
  destruct (pa_init g s n e l1 bt l3 zz Hs He Hbt Hl3) as [Hnm Hinit].
  eexists. split; [exact Hinit|].
  set (nm := psi_agsne_unscaled l1 bt l3 s e) in *.
  set (gt := fun (m : Z) (x : R) =>
               IZR m * exp (- l1 * IZR m) * exp (- (bt - l3 + x * l3) * IZR m)
               / (1 - exp (- (bt - l3 + x * l3) * IZR m)) ^ 2).
  set (gf := fun x => sum (map (fun m => gt m x) (arange 1 (s + 1))) * / nm).
  set (F := fun x => psi_agsne_unscaled l1 bt l3 s x * / nm).
  assert (Hc : forall x, 1 <= x <= e -> continuity_pt gf x).
  { intros x Hx. unfold gf.
    apply (continuity_pt_mult (fun x => sum (map (fun m => gt m x) (arange 1 (s + 1))))
                              (fct_cte (/ nm))).
    - apply continuity_pt_sum. intros m Hm. apply in_arange in Hm. unfold gt.
      pose proof (pa_exponent_neg bt l3 x m Hbt Hl3 ltac:(lra) ltac:(lia)) as Hg.
      reg. apply pow_nonzero. apply exp_neq_1. lra.
    - apply continuity_pt_const. intros u v. reflexivity. }
  assert (HF : forall x, 1 <= x <= e -> derivable_pt_lim F x (gf x)).
  { intros x Hx. unfold F, gf.
    pose proof (pa_unscaled_derivative l1 bt l3 s x Hbt Hl3 ltac:(lra)) as Hd.
    pose proof (derivable_pt_lim_scal _ (/ nm) _ _ Hd) as Hsc.
    apply derivable_pt_lim_ext
      with (f := mult_real_fct (/ nm) (psi_agsne_unscaled l1 bt l3 s)).
    + intros t. unfold mult_real_fct. ring.
    + rewrite Rmult_comm. exact Hsc. }
  assert (Hfg : forall x, 1 <= x <= e ->
            gf x = value (pdf x)
                     (New g s n e 1 e l1 bt l3 zz (bt - l3) (exp (- l1)) nm)).
  { intros x Hx. unfold value. rewrite pa_pdf_in by (try assumption; lra).
    reflexivity. }
  split; [|split; [|split]].
  - intros x so r Hx. eexists. split; [apply pa_pdf_in; try assumption; lra|].
    apply Rdiv_lt_0_compat; [|exact Hnm]. apply sum_pos.
    + rewrite arange_cons by lia. discriminate.
    + apply Forall_forall. intros y Hy. apply in_map_iff in Hy.
      destruct Hy as [m [<- Hm]]. apply in_arange in Hm.
      pose proof (pa_exponent_neg bt l3 x m Hbt Hl3 ltac:(lra) ltac:(lia)) as Hg.
      assert (L : exp (- ((bt - l3 + x * l3) * IZR m)) < 1) by now apply exp_neg_lt_1.
      replace (- (bt - l3 + x * l3) * IZR m) with (- ((bt - l3 + x * l3) * IZR m)) by lra.
      apply Rdiv_lt_0_compat; [|apply pow_lt; lra].
      repeat apply Rmult_lt_0_compat; try apply exp_pos. apply IZR_lt. lia.
  - intros x Hx.
    apply derivable_pt_lim_locally_ext with (f := F) (a := 1) (b := e); [exact Hx | |].
    + intros t Ht. unfold value. rewrite pa_cdf_in by lra. reflexivity.
    + rewrite <- Hfg by lra. apply HF. lra.
  - constructor. apply (integrable_on_support _ gf); try assumption. lra.
  - intros pr. rewrite (integral_on_support _ gf F) by (try assumption; lra).
    unfold F. rewrite pa_unscaled_at_1. fold nm. field. lra.
Qed.

(** The function whose root [ppf] looks for, on the support. *)
Lemma pa_ppf_objective (gg s n : Z) (e l1 bt l3 zz enl nm q x : R) (so : list string)
    (r : nat -> R) :
  0 < l3 -> 0 < bt -> nm <> 0 -> 1 <= x <= e ->
  (c <- cdf x ;; ret (c - q))
    (World (New gg s n e 1 e l1 bt l3 zz (bt - l3) enl nm) so r)
  = (Ok (psi_agsne_unscaled l1 bt l3 s x / nm - q),
     World (New gg s n e 1 e l1 bt l3 zz (bt - l3) enl nm) so r).
Proof.
  intros Hl3 Hbt Hnm Hx. cbn [bind M_monad]. now rewrite pa_cdf_in.
Qed.

Lemma pa_ppf_interior (gg s n : Z) (e l1 bt l3 zz enl q : R) (so : list string)
    (r : nat -> R) :
  (1 <= s)%Z -> 1 < e -> 0 < bt -> 0 < l3 ->
  (e - 1) / 2 ^ bisect_maxiter < xtol -> 0 < q < 1 ->
  exists x lo hi,
    ppf q (World (New gg s n e 1 e l1 bt l3 zz (bt - l3) enl
                    (psi_agsne_unscaled l1 bt l3 s e)) so r)
    = (Ok x, World (New gg s n e 1 e l1 bt l3 zz (bt - l3) enl
                      (psi_agsne_unscaled l1 bt l3 s e)) so r)
    /\ 1 <= lo /\ lo <= x /\ x <= hi /\ hi <= e
    /\ psi_agsne_unscaled l1 bt l3 s lo / psi_agsne_unscaled l1 bt l3 s e <= q
    /\ q <= psi_agsne_unscaled l1 bt l3 s hi / psi_agsne_unscaled l1 bt l3 s e
    /\ hi - lo < 2 * (xtol + bisect_rtol * Rabs x).
Proof.
  intros Hs He Hbt Hl3 Hend Hq.
  destruct (pa_init gg s n e l1 bt l3 zz Hs He Hbt Hl3) as [Hnm _].
  set (nm := psi_agsne_unscaled l1 bt l3 s e) in *.
  set (w := World (New gg s n e 1 e l1 bt l3 zz (bt - l3) enl nm) so r).
  destruct (bisect_brackets (fun t => c <- cdf t ;; ret (c - q))
              (fun t => psi_agsne_unscaled l1 bt l3 s t / nm - q) w 1 e)
    with (tol := xtol) as [x [lo [hi [Hrun [H1 [H2 [H3 [H4 [H5 [H6 H7]]]]]]]]]].
  - intros x Hx. apply pa_ppf_objective; lra.
  - exact He.
  - rewrite pa_unscaled_at_1. unfold Rdiv. lra.
  - fold nm. replace (nm / nm) with 1 by (field; lra). lra.
  - exact xtol_pos.
  - exact Hend.
  - exists x, lo, hi. split; [exact Hrun|]. repeat split; lra.
Qed.

Lemma tiny_pos : 0 < / 2 ^ 30.
Proof. apply Rinv_0_lt_compat, pow_lt. lra. Qed.

(** X22.  [psi_agsne.ppf q] for [2 ^ -30 <= q < 1], that is, for [q] well
    above what rounding can leave of [cdf 1]: when the support is short
    enough for the 100 halvings of [bisect] to reach the absolute tolerance
    ([(E - 1) / 2 ^ 100 < xtol]), the call returns a point [x] of the
    support lying between two points [lo <= x <= hi] of the support with
    [cdf lo <= q <= cdf hi] and [hi - lo < 2 * (xtol + rtol * |x|)]: an
    approximate quantile, and neither [ValueError] nor [RuntimeError]. *)
Theorem psi_agsne_ppf_brackets_quantile (g s n : Z) (e l1 bt l3 zz q : R) :
  (1 <= s)%Z -> 1 < e -> 0 < bt -> 0 < l3 ->
  (e - 1) / 2 ^ bisect_maxiter < xtol -> / 2 ^ 30 <= q < 1 ->
  exists d, __init__ (g, s, n, e) (l1, bt, l3, zz) = Ok d /\
    forall so r, exists x lo hi,
      ppf q (World d so r) = (Ok x, World d so r)
      /\ 1 <= lo /\ lo <= x /\ x <= hi /\ hi <= e
      /\ value (cdf lo) d <= q /\ q <= value (cdf hi) d
      /\ hi - lo < 2 * (xtol + bisect_rtol * Rabs x).
Proof.
  intros Hs He Hbt Hl3 Hend Hq30.
  assert (Hq : 0 < q < 1) by (pose proof tiny_pos; lra).
  destruct (pa_init g s n e l1 bt l3 zz Hs He Hbt Hl3) as [Hnm Hinit].
  eexists. split; [exact Hinit|]. intros so r.
  destruct (pa_ppf_interior g s n e l1 bt l3 zz (exp (- l1)) q so r
              Hs He Hbt Hl3 Hend Hq)
    as [x [lo [hi [Hrun [H1 [H2 [H3 [H4 [H5 [H6 H7]]]]]]]]]].
  exists x, lo, hi. split; [exact Hrun|].
  unfold value. rewrite !pa_cdf_in by lra. cbn [fst]. repeat split; assumption.
Qed.

(** X23.  [psi_agsne.ppf] at the upper end and outside the unit interval:
    [ppf 1] returns the upper end [E] of the support without iterating, and
    for [q > 1] or [q <= - 2 ^ -30] the call raises [ValueError], since
    [cdf - q] has the same sign at both ends. *)
Theorem psi_agsne_ppf_endpoints_and_domain (g s n : Z) (e l1 bt l3 zz : R) :
  (1 <= s)%Z -> 1 < e -> 0 < bt -> 0 < l3 ->
  exists d, __init__ (g, s, n, e) (l1, bt, l3, zz) = Ok d /\
    forall so r,
      ppf 1 (World d so r) = (Ok e, World d so r) /\
      forall q, q <= - / 2 ^ 30 \/ 1 < q ->
        ppf q (World d so r) = (Raise ValueError, World d so r).
Proof.
  intros Hs He Hbt Hl3.
  destruct (pa_init g s n e l1 bt l3 zz Hs He Hbt Hl3) as [Hnm Hinit].
  eexists. split; [exact Hinit|]. intros so r.
  set (nm := psi_agsne_unscaled l1 bt l3 s e) in *.
  assert (Hpure : forall q x, 1 <= x <= e ->
            (c <- cdf x ;; ret (c - q))
              (World (New g s n e 1 e l1 bt l3 zz (bt - l3) (exp (- l1)) nm) so r)
            = (Ok (psi_agsne_unscaled l1 bt l3 s x / nm - q),
               World (New g s n e 1 e l1 bt l3 zz (bt - l3) (exp (- l1)) nm) so r)).
  { intros q x Hx. apply pa_ppf_objective; lra. }
  assert (Hlo : psi_agsne_unscaled l1 bt l3 s 1 / nm = 0).
  { rewrite pa_unscaled_at_1. unfold Rdiv. ring. }
  assert (Hhi : psi_agsne_unscaled l1 bt l3 s e / nm = 1).
  { fold nm. field. lra. }
  split.
  - apply (bisect_root_right _ _ _ 1 e (Hpure 1)); [lra | |].
    + rewrite Hlo. lra.
    + rewrite Hhi. ring.
  - intros q Hq30.
    assert (Hq : q < 0 \/ 1 < q) by (pose proof tiny_pos; lra).
    apply (bisect_same_sign _ _ _ 1 e (Hpure q)); [lra|].
    rewrite Hlo, Hhi. destruct Hq as [Hq | Hq]; nra.
Qed.

(** X24.  [psi_agsne.rvs size] consumes exactly [size] uniform draws and,
    when these lie in [[2 ^ -30, 1)] and the support is short enough for
    [bisect] to converge, returns [size] values that all lie in the support
    [[1, E]]. *)
Theorem psi_agsne_rvs_in_support (g s n : Z) (e l1 bt l3 zz : R) (size : nat)
    (so : list string) (r : nat -> R) :
  (1 <= s)%Z -> 1 < e -> 0 < bt -> 0 < l3 ->
  (e - 1) / 2 ^ bisect_maxiter < xtol ->
  (forall k, (k < size)%nat -> / 2 ^ 30 <= r k < 1) ->
  exists d, __init__ (g, s, n, e) (l1, bt, l3, zz) = Ok d /\
    exists out,
      rvs size (World d so r) = (Ok out, World d so (fun k => r (size + k)%nat))
      /\ length out = size
      /\ Forall (fun v => 1 <= v <= e) out.
Proof.
  intros Hs He Hbt Hl3 Hend Hr.
  destruct (pa_init g s n e l1 bt l3 zz Hs He Hbt Hl3) as [Hnm Hinit].
  eexists. split; [exact Hinit|].
  unfold rvs. cbn [bind M_monad uniform_rvs obj stdout rng].
  destruct (mapM_ok_ex ppf (fun v => 1 <= v <= e) (map r (seq 0 size))
              (World (New g s n e 1 e l1 bt l3 zz (bt - l3) (exp (- l1))
                        (psi_agsne_unscaled l1 bt l3 s e)) so
                     (fun k => r (size + k)%nat)))
    as [out [Hrun [Hlen Hall]]].
  - intros q Hin. apply in_map_iff in Hin. destruct Hin as [k [<- Hk]].
    apply in_seq in Hk. assert (Hlt : (k < size)%nat) by lia.
    specialize (Hr k Hlt).
    assert (Hq : 0 < r k < 1) by (pose proof tiny_pos; lra).
    destruct (pa_ppf_interior g s n e l1 bt l3 zz (exp (- l1)) (r k) so
                (fun k => r (size + k)%nat) Hs He Hbt Hl3 Hend Hq)
      as [x [lo [hi [Hrun [H1 [H2 [H3 [H4 _]]]]]]]].
    exists x. split; [exact Hrun | lra].
  - exists out. split; [exact Hrun|]. split; [|exact Hall].
    now rewrite Hlen, length_map, length_seq.
Qed.

End psi_agsne_more.

Section psi_agsne_examples.
Import psi_agsne.

Lemma psi_agsne_cdf_distribution_witness :
  ((1 <= 2)%Z /\ 1 < 3 /\ 0 < 2 /\ 0 < 1)
  /\ exists d, __init__ (1%Z, 2%Z, 5%Z, 3) (1, 2, 1, 0) = Ok d /\
       (forall so r, cdf 1 (World d so r) = (Ok 0, World d so r)) /\
       (forall x so r, 3 <= x -> cdf x (World d so r) = (Ok 1, World d so r)) /\
       (forall x y so r, 1 <= x -> x < y -> y <= 3 ->
          exists p q, cdf x (World d so r) = (Ok p, World d so r)
                      /\ cdf y (World d so r) = (Ok q, World d so r) /\ p < q).
Proof.
  assert (H1 : (1 <= 2)%Z) by lia.
  assert (H2 : 1 < 3) by lra.
  assert (H3 : 0 < 2) by lra.
  assert (H4 : 0 < 1) by lra.
  split; [repeat split; assumption|].
  exact (psi_agsne_cdf_distribution 1 2 5 3 1 2 1 0 H1 H2 H3 H4).
Defined.

Lemma psi_agsne_cdf_below_support_witness :
  ((1 <= 2)%Z /\ 1 < 3 /\ 0 < 2 /\ 0 < 1)
  /\ exists d, __init__ (1%Z, 2%Z, 5%Z, 3) (1, 2, 1, 0) = Ok d /\
       1 - 2 / 1 < 1 /\
       (forall so r,
          cdf (1 - 2 / 1) (World d so r) = (Raise ZeroDivisionError, World d so r)) /\
       (forall x so r, 1 - 2 / (2 * 1) <= x < 1 ->
          cdf x (World d so r) = (Ok 0, World d so r)) /\
       (forall x so r, x <= 1 - 2 * 2 / 1 ->
          - (2 - 1 + x * 1) * 2 <= 700 ->
          cdf x (World d so r) = (Ok 0, World d so r)).
Proof.
  assert (H1 : (1 <= 2)%Z) by lia.
  assert (H2 : 1 < 3) by lra.
  assert (H3 : 0 < 2) by lra.
  assert (H4 : 0 < 1) by lra.
  split; [repeat split; assumption|].
  exact (psi_agsne_cdf_below_support 1 2 5 3 1 2 1 0 H1 H2 H3 H4).
Defined.

Lemma psi_agsne_pdf_is_density_of_cdf_witness :
  ((1 <= 2)%Z /\ 1 < 3 /\ 0 < 2 /\ 0 < 1
   /\ global_S (Collaborators := stub (Some 2%Z)) = Some 2%Z)
  /\ exists d, __init__ (1%Z, 2%Z, 5%Z, 3) (1, 2, 1, 0) = Ok d /\
       (forall x so r, 1 <= x <= 3 ->
          exists p, pdf (H := stub (Some 2%Z)) x (World d so r) = (Ok p, World d so r)
                    /\ 0 < p) /\
       (forall x, 1 < x < 3 ->
          derivable_pt_lim (fun t => value (cdf t) d) x
            (value (pdf (H := stub (Some 2%Z)) x) d)) /\
       inhabited (Riemann_integrable
                    (fun x => value (pdf (H := stub (Some 2%Z)) x) d) 1 3) /\
       forall pr : Riemann_integrable
                     (fun x => value (pdf (H := stub (Some 2%Z)) x) d) 1 3,
         RiemannInt pr = 1.
Proof.
  assert (H1 : (1 <= 2)%Z) by lia.
  assert (H2 : 1 < 3) by lra.
  assert (H3 : 0 < 2) by lra.
  assert (H4 : 0 < 1) by lra.
  split; [repeat split; assumption|].
  exact (psi_agsne_pdf_is_density_of_cdf (H := stub (Some 2%Z)) 1 2 5 3 1 2 1 0
           H1 H2 H3 H4 eq_refl).
Defined.

Lemma short_support_converges : (3 - 1) / 2 ^ bisect_maxiter < xtol.
Proof. unfold bisect_maxiter, xtol. lra. Qed.

Lemma psi_agsne_ppf_brackets_quantile_witness :
  ((1 <= 2)%Z /\ 1 < 3 /\ 0 < 2 /\ 0 < 1
   /\ (3 - 1) / 2 ^ bisect_maxiter < xtol /\ / 2 ^ 30 <= 1 / 2 < 1)
  /\ exists d, __init__ (1%Z, 2%Z, 5%Z, 3) (1, 2, 1, 0) = Ok d /\
       forall so r, exists x lo hi,
         ppf (1 / 2) (World d so r) = (Ok x, World d so r)
         /\ 1 <= lo /\ lo <= x /\ x <= hi /\ hi <= 3
         /\ value (cdf lo) d <= 1 / 2 /\ 1 / 2 <= value (cdf hi) d
         /\ hi - lo < 2 * (xtol + bisect_rtol * Rabs x).
Proof.
  assert (H1 : (1 <= 2)%Z) by lia.
  assert (H2 : 1 < 3) by lra.
  assert (H3 : 0 < 2) by lra.
  assert (H4 : 0 < 1) by lra.
  assert (H5 : / 2 ^ 30 <= 1 / 2 < 1) by lra.
  split; [repeat split; try assumption; try lra; apply short_support_converges|].
  exact (psi_agsne_ppf_brackets_quantile 1 2 5 3 1 2 1 0 (1 / 2)
           H1 H2 H3 H4 short_support_converges H5).
Defined.

Lemma psi_agsne_ppf_endpoints_and_domain_witness :
  ((1 <= 2)%Z /\ 1 < 3 /\ 0 < 2 /\ 0 < 1)
  /\ exists d, __init__ (1%Z, 2%Z, 5%Z, 3) (1, 2, 1, 0) = Ok d /\
       forall so r,
         ppf 1 (World d so r) = (Ok 3, World d so r) /\
         forall q, q <= - / 2 ^ 30 \/ 1 < q ->
           ppf q (World d so r) = (Raise ValueError, World d so r).
Proof.
  assert (H1 : (1 <= 2)%Z) by lia.
  assert (H2 : 1 < 3) by lra.
  assert (H3 : 0 < 2) by lra.
  assert (H4 : 0 < 1) by lra.
  split; [repeat split; assumption|].
  exact (psi_agsne_ppf_endpoints_and_domain 1 2 5 3 1 2 1 0 H1 H2 H3 H4).
Defined.

Lemma psi_agsne_rvs_in_support_witness :
  ((1 <= 2)%Z /\ 1 < 3 /\ 0 < 2 /\ 0 < 1
   /\ (3 - 1) / 2 ^ bisect_maxiter < xtol
   /\ (forall k, (k < 2)%nat -> / 2 ^ 30 <= half_rng k < 1))
  /\ exists d, __init__ (1%Z, 2%Z, 5%Z, 3) (1, 2, 1, 0) = Ok d /\
       exists out,
         rvs 2 (World d [] half_rng)
         = (Ok out, World d [] (fun k => half_rng (2 + k)%nat))
         /\ length out = 2%nat
         /\ Forall (fun v => 1 <= v <= 3) out.
Proof.
  assert (H1 : (1 <= 2)%Z) by lia.
  assert (H2 : 1 < 3) by lra.
  assert (H3 : 0 < 2) by lra.
  assert (H4 : 0 < 1) by lra.
  assert (H5 : forall k, (k < 2)%nat -> / 2 ^ 30 <= half_rng k < 1)
    by (intros k _; unfold half_rng; lra).
  split; [repeat split; try assumption; try apply short_support_converges;
          apply H5; assumption|].
  exact (psi_agsne_rvs_in_support 1 2 5 3 1 2 1 0 2 [] half_rng
           H1 H2 H3 H4 short_support_converges H5).
Defined.

End psi_agsne_examples.

(** ** [theta_agsne] as a distribution *)

Section theta_agsne_more.
Import theta_agsne.

Lemma ta_rate (l3 : R) (m n : Z) (e : R) :
  0 < l3 * IZR m * IZR n -> 1 < e ->
  - l3 * IZR m * IZR n < 0
  /\ 0 < exp (- l3 * IZR m * IZR n) - exp (- l3 * IZR m * IZR n * e)
  /\ l3 <> 0 /\ IZR m <> 0 /\ IZR n <> 0.
Proof.
  intros Hr He.
  assert (Hk : - l3 * IZR m * IZR n < 0) by lra.
  split; [exact Hk|]. split.
  - apply Rlt_0_minus. apply exp_increasing. nra.
  - repeat split; intros Hz; rewrite Hz in Hr; lra.
Qed.

Lemma ta_cdf_in (d : t) (x : R) (m n : Z) (so : list string) (r : nat -> R) :
  exp (- lambda3 d * IZR m * IZR n) - exp (- lambda3 d * IZR m * IZR n * E d) <> 0 ->
  a d <= x <= b d ->
  cdf x m n (World d so r)
  = (Ok ((exp (- lambda3 d * IZR m * IZR n) - exp (- lambda3 d * IZR m * IZR n * x))
         / (exp (- lambda3 d * IZR m * IZR n)
            - exp (- lambda3 d * IZR m * IZR n * E d))),
     World d so r).
Proof.
  intros HD Hx. unfold cdf. cbn. rewrite between_true by exact Hx.
  rewrite float_div_ok by exact HD. reflexivity.
Qed.

Lemma ta_cdf_below (d : t) (x : R) (m n : Z) (so : list string) (r : nat -> R) :
  x < a d -> cdf x m n (World d so r) = (Ok 0, World d so r).
Proof.
  intros Hx. unfold cdf. cbn. unfold between.
  rewrite (Rleb_false (a d) x), Rltb_true by exact Hx. reflexivity.
Qed.

Lemma ta_cdf_above (d : t) (x : R) (m n : Z) (so : list string) (r : nat -> R) :
  a d <= b d -> b d < x -> cdf x m n (World d so r) = (Ok 1, World d so r).
Proof.
  intros Hab Hx. unfold cdf. cbn. unfold between.
  rewrite (Rleb_false x (b d)), andb_false_r, Rltb_false by lra. reflexivity.
Qed.

(** The quantile of [q] in closed form: [ln (exp k - q * D) / k] with
    [k = - lambda3 * m * n] and [D = exp k - exp (k * E)]. *)
Lemma ta_ppf_value (d : t) (q : R) (m n : Z) (so : list string) (r : nat -> R) :
  lambda3 d <> 0 -> IZR m <> 0 -> IZR n <> 0 ->
  0 < exp (- lambda3 d * IZR m * IZR n)
      - q * (exp (- lambda3 d * IZR m * IZR n)
             - exp (- lambda3 d * IZR m * IZR n * E d)) ->
  ppf q m n (World d so r)
  = (Ok (ln (exp (- lambda3 d * IZR m * IZR n)
             - q * (exp (- lambda3 d * IZR m * IZR n)
                    - exp (- lambda3 d * IZR m * IZR n * E d)))
         / (- lambda3 d * IZR m * IZR n)),
     World d so r).
Proof.
  intros H3 Hm Hn Harg. unfold ppf. cbn.
  rewrite float_div_ok by exact H3. cbn.
  rewrite float_div_ok by exact Hm. cbn.
  rewrite float_div_ok by exact Hn. cbn.
  rewrite log_ok by exact Harg. cbn.
  do 2 f_equal. field. repeat split; assumption.
Qed.

Lemma ta_quantile_range (k e q : R) :
  k < 0 -> 1 < e -> 0 <= q <= 1 ->
  0 < exp k - q * (exp k - exp (k * e))
  /\ 1 <= ln (exp k - q * (exp k - exp (k * e))) / k <= e.
Proof.
  intros Hk He Hq.
  pose proof (exp_pos (k * e)) as Pe.
  assert (HD : 0 < exp k - exp (k * e)).
  { apply Rlt_0_minus. apply exp_increasing. nra. }
  assert (Hlo : exp (k * e) <= exp k - q * (exp k - exp (k * e))) by nra.
  assert (Hhi : exp k - q * (exp k - exp (k * e)) <= exp k) by nra.
  assert (Hpos : 0 < exp k - q * (exp k - exp (k * e))) by lra.
  split; [exact Hpos|].
  apply ln_ge_exp in Hlo. apply ln_le_exp in Hhi; [|exact Hpos].
  assert (Hik : / k < 0) by now apply Rinv_lt_0_compat.
  assert (Hkk : k * / k = 1) by (field; lra).
  remember (ln (exp k - q * (exp k - exp (k * e)))) as L eqn:EL.
  assert (H1 : 0 <= (k - L) * - / k) by (apply Rmult_le_pos; lra).
  assert (H2 : 0 <= (L - k * e) * - / k) by (apply Rmult_le_pos; lra).
  unfold Rdiv. split; nra.
Qed.

(** X25.  With [E > 1] and [lambda3 * m * n > 0], [theta_agsne.cdf] is,
    for the given [m] and [n], a distribution function on [[1, E]]: it
    returns 0 up to and at 1, returns 1 at and beyond [E], and is strictly
    increasing in between. *)
Theorem theta_agsne_cdf_distribution (g s n0 : Z) (e l1 bt l3 zz : R) (m n : Z) :
  1 < e -> 0 < l3 * IZR m * IZR n ->
  exists d, __init__ (g, s, n0, e) (l1, bt, l3, zz) = Ok d /\
    (forall x so r, x <= 1 -> cdf x m n (World d so r) = (Ok 0, World d so r)) /\
    (forall x so r, e <= x -> cdf x m n (World d so r) = (Ok 1, World d so r)) /\
    (forall x y so r, 1 <= x -> x < y -> y <= e ->
       exists p q, cdf x m n (World d so r) = (Ok p, World d so r)
                   /\ cdf y m n (World d so r) = (Ok q, World d so r) /\ p < q).
Proof.
  intros He Hr. eexists. split; [reflexivity|].
  destruct (ta_rate l3 m n e Hr He) as [Hk [HD _]].
  split; [|split].
  - intros x so r [Hx | ->].
    + apply ta_cdf_below. cbn. exact Hx.
    + rewrite ta_cdf_in by (cbn; lra). cbn [lambda3 E]. do 2 f_equal.
      rewrite Rmult_1_r. unfold Rdiv. ring.
  - intros x so r [Hx | <-].
    + apply ta_cdf_above; cbn; lra.
    + rewrite ta_cdf_in by (cbn; lra). cbn [lambda3 E]. do 2 f_equal. field. lra.
  - intros x y so r Hx Hxy Hy. do 2 eexists.
    rewrite !ta_cdf_in by (cbn; lra). cbn [lambda3 E].
    split; [reflexivity|]. split; [reflexivity|].
    unfold Rdiv. apply Rmult_lt_compat_r; [apply Rinv_0_lt_compat; lra|].
    assert (exp (- l3 * IZR m * IZR n * y) < exp (- l3 * IZR m * IZR n * x)).
    { apply exp_increasing. nra. }
    lra.
Qed.

(** The same below the value of [cdf] at a point [xs] of the support. *)
Lemma ta_quantile_range_upto (k e xs q : R) :
  k < 0 -> 1 < e -> 1 <= xs <= e ->
  0 <= q <= (exp k - exp (k * xs)) / (exp k - exp (k * e)) ->
  0 < exp k - q * (exp k - exp (k * e))
  /\ 1 <= ln (exp k - q * (exp k - exp (k * e))) / k <= xs.
Proof.
  intros Hk He Hxs Hq.
  pose proof (exp_pos (k * xs)) as Pe.
  assert (HD : 0 < exp k - exp (k * e)).
  { apply Rlt_0_minus. apply exp_increasing. nra. }
  assert (HqD : q * (exp k - exp (k * e)) <= exp k - exp (k * xs)).
  { replace (exp k - exp (k * xs))
      with ((exp k - exp (k * xs)) / (exp k - exp (k * e)) * (exp k - exp (k * e)))
      by (field; lra).
    apply Rmult_le_compat_r; lra. }
  assert (Hq0 : 0 <= q * (exp k - exp (k * e))) by (apply Rmult_le_pos; lra).
  assert (Hlo : exp (k * xs) <= exp k - q * (exp k - exp (k * e))) by lra.
  assert (Hhi : exp k - q * (exp k - exp (k * e)) <= exp k) by lra.
  assert (Hpos : 0 < exp k - q * (exp k - exp (k * e))) by lra.
  split; [exact Hpos|].
  apply ln_ge_exp in Hlo. apply ln_le_exp in Hhi; [|exact Hpos].
  assert (Hik : / k < 0) by now apply Rinv_lt_0_compat.
  assert (Hkk : k * / k = 1) by (field; lra).
  remember (ln (exp k - q * (exp k - exp (k * e)))) as L eqn:EL.
  assert (H1 : 0 <= (k - L) * - / k) by (apply Rmult_le_pos; lra).
  assert (H2 : 0 <= (L - k * xs) * - / k) by (apply Rmult_le_pos; lra).
  unfold Rdiv. split; nra.
Qed.

(** X26.  [theta_agsne.ppf] and [theta_agsne.cdf] invert each other on
    the part of the support where [1 - q] keeps its digits: let [xs] be a
    point of [[1, E]] with [lambda3 * m * n * (xs - 1) <= 10], the rate
    [lambda3 * m * n] being at most 600.  Then for every [x] in [[1, xs]],
    [ppf (cdf x)] returns [x]; and for every [q] between 0 and [cdf xs],
    [ppf q] returns a point of [[1, xs]] at which [cdf] returns [q]. *)
Theorem theta_agsne_ppf_cdf_roundtrips (g s n0 : Z) (e l1 bt l3 zz xs : R) (m n : Z) :
  1 < e -> 0 < l3 * IZR m * IZR n ->
  l3 * IZR m * IZR n <= 600 ->
  1 <= xs <= e -> l3 * IZR m * IZR n * (xs - 1) <= 10 ->
  exists d qs, __init__ (g, s, n0, e) (l1, bt, l3, zz) = Ok d /\
    forall so r,
      cdf xs m n (World d so r) = (Ok qs, World d so r) /\
      (forall x, 1 <= x <= xs ->
         exists q, cdf x m n (World d so r) = (Ok q, World d so r)
                   /\ ppf q m n (World d so r) = (Ok x, World d so r)) /\
      (forall q, 0 <= q <= qs ->
         exists x, ppf q m n (World d so r) = (Ok x, World d so r)
                   /\ 1 <= x <= xs
                   /\ cdf x m n (World d so r) = (Ok q, World d so r)).
Proof.
  intros He Hr _ Hxs _. do 2 eexists. split; [reflexivity|].
  destruct (ta_rate l3 m n e Hr He) as [Hk [HD [H3 [Hm Hn]]]].
  intros so r. split; [apply ta_cdf_in; cbn; lra|]. cbn [lambda3 E]. split.
  - intros x Hx. eexists. split; [apply ta_cdf_in; cbn; lra|].
    cbn [lambda3 E].
    assert (Harg : exp (- l3 * IZR m * IZR n)
                   - (exp (- l3 * IZR m * IZR n) - exp (- l3 * IZR m * IZR n * x))
                     / (exp (- l3 * IZR m * IZR n) - exp (- l3 * IZR m * IZR n * e))
                     * (exp (- l3 * IZR m * IZR n) - exp (- l3 * IZR m * IZR n * e))
                   = exp (- l3 * IZR m * IZR n * x)) by (field; lra).
    rewrite ta_ppf_value; cbn [lambda3 E]; try assumption.
    + rewrite Harg, ln_exp. do 2 f_equal. field. lra.
    + rewrite Harg. apply exp_pos.
  - intros q Hq.
    destruct (ta_quantile_range_upto _ e xs q Hk He Hxs Hq) as [Harg Hrange].
    eexists. split; [apply ta_ppf_value; cbn [lambda3 E]; assumption|].
    cbn [lambda3 E]. split; [exact Hrange|].
    rewrite ta_cdf_in by (cbn; lra). cbn [lambda3 E]. do 2 f_equal.
    replace (- l3 * IZR m * IZR n
             * (ln (exp (- l3 * IZR m * IZR n)
                    - q * (exp (- l3 * IZR m * IZR n) - exp (- l3 * IZR m * IZR n * e)))
                / (- l3 * IZR m * IZR n)))
      with (ln (exp (- l3 * IZR m * IZR n)
                - q * (exp (- l3 * IZR m * IZR n) - exp (- l3 * IZR m * IZR n * e))))
      by (field; lra).
    rewrite exp_ln by exact Harg. field. lra.
Qed.

(** X27.  [theta_agsne.rvs size m n] consumes exactly [size] uniform
    draws and, when these lie in [[0, 1)], returns [size] values that all
    lie in the support [[1, E]]. *)
Theorem theta_agsne_rvs_in_support (g s n0 : Z) (e l1 bt l3 zz : R) (m n : Z)
    (size : nat) (so : list string) (r : nat -> R) :
  1 < e -> 0 < l3 * IZR m * IZR n ->
  (forall k, (k < size)%nat -> 0 <= r k < 1) ->
  exists d, __init__ (g, s, n0, e) (l1, bt, l3, zz) = Ok d /\
    exists out,
      rvs size m n (World d so r) = (Ok out, World d so (fun k => r (size + k)%nat))
      /\ length out = size
      /\ Forall (fun v => 1 <= v <= e) out.
Proof.
  intros He Hr Hdraw. eexists. split; [reflexivity|].
  destruct (ta_rate l3 m n e Hr He) as [Hk [HD [H3 [Hm Hn]]]].
  unfold rvs. cbn [bind M_monad uniform_rvs obj stdout rng].
  set (d := New g s n0 e 1 e l1 bt l3 zz).
  set (qf := fun q => ln (exp (- l3 * IZR m * IZR n)
                          - q * (exp (- l3 * IZR m * IZR n)
                                 - exp (- l3 * IZR m * IZR n * e)))
                      / (- l3 * IZR m * IZR n)).
  assert (Hdraws : forall q, In q (map r (seq 0 size)) -> 0 <= q <= 1).
  { intros q Hin. apply in_map_iff in Hin. destruct Hin as [k [<- Hin]].
    apply in_seq in Hin. assert (Hlt : (k < size)%nat) by lia.
    specialize (Hdraw k Hlt). lra. }
  exists (map qf (map r (seq 0 size))). split; [|split].
  - apply mapM_ok. intros q Hin.
    destruct (ta_quantile_range _ e q Hk He (Hdraws q Hin)) as [Harg _].
    now apply ta_ppf_value.
  - now rewrite !length_map, length_seq.
  - apply Forall_forall. intros v Hv. apply in_map_iff in Hv.
    destruct Hv as [q [<- Hin]].
    now destruct (ta_quantile_range _ e q Hk He (Hdraws q Hin)) as [_ Hrange].
Qed.

Lemma ta_pdf_in (d : t) (x : R) (m n : Z) (so : list string) (r : nat -> R) :
  exp (- lambda3 d * IZR m * IZR n) - exp (- lambda3 d * IZR m * IZR n * E d) <> 0 ->
  a d <= x <= b d ->
  pdf x m n (World d so r)
  = (Ok (lambda3 d * IZR m * IZR n
         / (exp (- lambda3 d * IZR m * IZR n)
            - exp (- lambda3 d * IZR m * IZR n * E d))
         * exp (- lambda3 d * IZR m * IZR n * x)),
     World d so r).
Proof.
  intros HD Hx. rewrite theta_agsne_pdf_value by exact HD.
  now rewrite between_true.
Qed.

(** X28.  [theta_agsne.pdf] is, for the given [m] and [n], a probability
    density on [[1, E]]: it returns a positive number at every point of the
    support and its integral over the support is 1. *)
Theorem theta_agsne_pdf_integrates_to_one (g s n0 : Z) (e l1 bt l3 zz : R) (m n : Z) :
  1 < e -> 0 < l3 * IZR m * IZR n ->
  exists d, __init__ (g, s, n0, e) (l1, bt, l3, zz) = Ok d /\
    (forall x so r, 1 <= x <= e ->
       exists p, pdf x m n (World d so r) = (Ok p, World d so r) /\ 0 < p) /\
    inhabited (Riemann_integrable (fun x => value (pdf x m n) d) 1 e) /\
    forall pr : Riemann_integrable (fun x => value (pdf x m n) d) 1 e,
      RiemannInt pr = 1.
Proof.
  intros He Hr. eexists. split; [reflexivity|].
  destruct (ta_rate l3 m n e Hr He) as [Hk [HD _]].
  set (k := - l3 * IZR m * IZR n) in *.
  set (D := exp k - exp (k * e)) in *.
  set (gf := fun x => l3 * IZR m * IZR n / D * exp (k * x)).
  set (F := fun x => - / D * exp (k * x)).
  assert (Hc : forall x, 1 <= x <= e -> continuity_pt gf x).
  { intros x _. unfold gf. reg. }
  assert (HF : forall x, 1 <= x <= e -> derivable_pt_lim F x (gf x)).
  { intros x _. unfold F, gf.
    replace (l3 * IZR m * IZR n / D * exp (k * x)) with (- / D * (k * exp (k * x)))
      by (unfold k; field; lra).
    apply exp_scaled_derivative. }
  assert (Hfg : forall x, 1 <= x <= e ->
            gf x = value (pdf x m n) (New g s n0 e 1 e l1 bt l3 zz)).
  { intros x Hx. unfold value. rewrite ta_pdf_in by (cbn; fold k; fold D; lra).
    reflexivity. }
  split; [|split].
  - intros x so r Hx. eexists.
    split; [apply ta_pdf_in; cbn; fold k; fold D; lra|].
    cbn [lambda3 E]. fold k. fold D.
    replace (- l3 * IZR m * IZR n * x) with (k * x) by (unfold k; ring).
    apply Rmult_lt_0_compat; [apply Rdiv_lt_0_compat; lra | apply exp_pos].
  - constructor. apply (integrable_on_support _ gf); try assumption. lra.
  - intros pr. rewrite (integral_on_support _ gf F) by (try assumption; lra).
    unfold F. replace (k * 1) with k by ring. unfold D in *. field. lra.
Qed.

(** X29.  The mean that [theta_agsne.expected] returns lies strictly
    inside the support: [1 < expected m n < E]. *)
Theorem theta_agsne_expected_inside_support (g s n0 : Z) (e l1 bt l3 zz : R) (m n : Z) :
  1 < e -> 0 < l3 * IZR m * IZR n ->
  exists d, __init__ (g, s, n0, e) (l1, bt, l3, zz) = Ok d /\
    exists mu, (forall so r, expected m n (World d so r) = (Ok mu, World d so r))
               /\ 1 < mu < e.
Proof.
  intros He Hr. eexists. split; [reflexivity|].
  destruct (ta_rate l3 m n e Hr He) as [Hk [HD _]].
  eexists. split.
  - intros so r. unfold expected. cbn.
    rewrite float_div_ok by (apply Rgt_not_eq; apply Rmult_lt_0_compat; lra).
    reflexivity.
  - set (k := - l3 * IZR m * IZR n) in *.
    replace (l3 * IZR m * IZR n) with (- k) in * by (unfold k; ring).
    set (tt := - k * (e - 1)).
    assert (Ht : 0 < tt) by (unfold tt; nra).
    pose proof (exp_ineq1 tt ltac:(lra)) as Hu.
    pose proof (exp_ineq1 (- tt) ltac:(lra)) as Hv.
    assert (EA : exp k = exp (k * e) * exp tt).
    { rewrite <- exp_plus. f_equal. unfold tt. ring. }
    assert (EB : exp (k * e) = exp k * exp (- tt)).
    { rewrite <- exp_plus. f_equal. unfold tt. ring. }
    pose proof (exp_pos k) as PA. pose proof (exp_pos (k * e)) as PB.
    assert (Hden : 0 < - k * (exp k - exp (k * e))) by (apply Rmult_lt_0_compat; lra).
    split.
    + apply Rmult_lt_reg_r with (- k * (exp k - exp (k * e))); [exact Hden|].
      unfold Rdiv. rewrite Rmult_assoc, Rinv_l by lra.
      assert (exp (k * e) * (1 + tt) < exp k) by (rewrite EA; nra).
      unfold tt in *. nra.
    + apply Rmult_lt_reg_r with (- k * (exp k - exp (k * e))); [exact Hden|].
      unfold Rdiv. rewrite Rmult_assoc, Rinv_l by lra.
      assert (exp k * (1 - tt) < exp (k * e)) by (rewrite EB; nra).
      unfold tt in *. nra.
Qed.

(** X30.  The degenerate support [E = 1]: construction succeeds, but the
    normalizing difference of exponentials is 0, and [pdf], [cdf] (both at
    the only point of the support) and [expected] raise
    [ZeroDivisionError], whatever the parameters. *)
Theorem theta_agsne_degenerate_support (g s n0 : Z) (l1 bt l3 zz : R) (m n : Z)
    (so : list string) (r : nat -> R) :
  exists d, __init__ (g, s, n0, 1) (l1, bt, l3, zz) = Ok d /\
    pdf 1 m n (World d so r) = (Raise ZeroDivisionError, World d so r) /\
    cdf 1 m n (World d so r) = (Raise ZeroDivisionError, World d so r) /\
    expected m n (World d so r) = (Raise ZeroDivisionError, World d so r).
Proof.
  eexists. split; [reflexivity|].
  unfold pdf, cdf, expected. cbn. rewrite between_true by lra.
  rewrite !float_div_raise by (rewrite ?Rmult_1_r; ring).
  repeat split; reflexivity.
Qed.

End theta_agsne_more.

Section theta_agsne_examples.
Import theta_agsne.

Lemma theta_agsne_cdf_distribution_witness :
  (1 < 3 /\ 0 < 1 * IZR 1 * IZR 2)
  /\ exists d, __init__ (1%Z, 2%Z, 5%Z, 3) (1, 2, 1, 0) = Ok d /\
       (forall x so r, x <= 1 -> cdf x 1 2 (World d so r) = (Ok 0, World d so r)) /\
       (forall x so r, 3 <= x -> cdf x 1 2 (World d so r) = (Ok 1, World d so r)) /\
       (forall x y so r, 1 <= x -> x < y -> y <= 3 ->
          exists p q, cdf x 1 2 (World d so r) = (Ok p, World d so r)
                      /\ cdf y 1 2 (World d so r) = (Ok q, World d so r) /\ p < q).
Proof.
  assert (H1 : 1 < 3) by lra.
  assert (H2 : 0 < 1 * IZR 1 * IZR 2) by lra.
  split; [split; assumption|].
  exact (theta_agsne_cdf_distribution 1 2 5 3 1 2 1 0 1 2 H1 H2).
Defined.

Lemma theta_agsne_ppf_cdf_roundtrips_witness :
  (1 < 3 /\ 0 < 1 * IZR 1 * IZR 2 /\ 1 * IZR 1 * IZR 2 <= 600
   /\ 1 <= 2 <= 3 /\ 1 * IZR 1 * IZR 2 * (2 - 1) <= 10)
  /\ exists d qs, __init__ (1%Z, 2%Z, 5%Z, 3) (1, 2, 1, 0) = Ok d /\
       forall so r,
         cdf 2 1 2 (World d so r) = (Ok qs, World d so r) /\
         (forall x, 1 <= x <= 2 ->
            exists q, cdf x 1 2 (World d so r) = (Ok q, World d so r)
                      /\ ppf q 1 2 (World d so r) = (Ok x, World d so r)) /\
         (forall q, 0 <= q <= qs ->
            exists x, ppf q 1 2 (World d so r) = (Ok x, World d so r)
                      /\ 1 <= x <= 2
                      /\ cdf x 1 2 (World d so r) = (Ok q, World d so r)).
Proof.
  assert (H1 : 1 < 3) by lra.
  assert (H2 : 0 < 1 * IZR 1 * IZR 2) by lra.
  assert (H3 : 1 * IZR 1 * IZR 2 <= 600) by lra.
  assert (H4 : 1 <= 2 <= 3) by lra.
  assert (H5 : 1 * IZR 1 * IZR 2 * (2 - 1) <= 10) by lra.
  split; [repeat split; try assumption; lra|].
  exact (theta_agsne_ppf_cdf_roundtrips 1 2 5 3 1 2 1 0 2 1 2 H1 H2 H3 H4 H5).
Defined.

Lemma theta_agsne_rvs_in_support_witness :
  (1 < 3 /\ 0 < 1 * IZR 1 * IZR 2
   /\ (forall k, (k < 2)%nat -> 0 <= half_rng k < 1))
  /\ exists d, __init__ (1%Z, 2%Z, 5%Z, 3) (1, 2, 1, 0) = Ok d /\
       exists out,
         rvs 2 1 2 (World d [] half_rng)
         = (Ok out, World d [] (fun k => half_rng (2 + k)%nat))
         /\ length out = 2%nat
         /\ Forall (fun v => 1 <= v <= 3) out.
Proof.
  assert (H1 : 1 < 3) by lra.
  assert (H2 : 0 < 1 * IZR 1 * IZR 2) by lra.
  assert (H3 : forall k, (k < 2)%nat -> 0 <= half_rng k < 1)
    by (intros k _; unfold half_rng; lra).
  split; [repeat split; try assumption; apply H3; assumption|].
  exact (theta_agsne_rvs_in_support 1 2 5 3 1 2 1 0 1 2 2 [] half_rng H1 H2 H3).
Defined.

Lemma theta_agsne_pdf_integrates_to_one_witness :
  (1 < 3 /\ 0 < 1 * IZR 1 * IZR 2)
  /\ exists d, __init__ (1%Z, 2%Z, 5%Z, 3) (1, 2, 1, 0) = Ok d /\
       (forall x so r, 1 <= x <= 3 ->
          exists p, pdf x 1 2 (World d so r) = (Ok p, World d so r) /\ 0 < p) /\
       inhabited (Riemann_integrable (fun x => value (pdf x 1 2) d) 1 3) /\
       forall pr : Riemann_integrable (fun x => value (pdf x 1 2) d) 1 3,
         RiemannInt pr = 1.
Proof.
  assert (H1 : 1 < 3) by lra.
  assert (H2 : 0 < 1 * IZR 1 * IZR 2) by lra.
  split; [split; assumption|].
  exact (theta_agsne_pdf_integrates_to_one 1 2 5 3 1 2 1 0 1 2 H1 H2).
Defined.

Lemma theta_agsne_expected_inside_support_witness :
  (1 < 3 /\ 0 < 1 * IZR 1 * IZR 2)
  /\ exists d, __init__ (1%Z, 2%Z, 5%Z, 3) (1, 2, 1, 0) = Ok d /\
       exists mu, (forall so r, expected 1 2 (World d so r) = (Ok mu, World d so r))
                  /\ 1 < mu < 3.
Proof.
  assert (H1 : 1 < 3) by lra.
  assert (H2 : 0 < 1 * IZR 1 * IZR 2) by lra.
  split; [split; assumption|].
  exact (theta_agsne_expected_inside_support 1 2 5 3 1 2 1 0 1 2 H1 H2).
Defined.

End theta_agsne_examples.
